(** * Auction Room Engine (server.js): shallow embedding and verification

    The engine of [server.js] keeps, per room, a team registry (budget and
    roster), the sold-name set, two session tables (regular and blind bids)
    and the batch-dispatch cursor.  Every HTTP handler and timer callback is
    embedded as a function on the room record that returns the new room, the
    JSON response and the side effects requested (timers armed, socket
    events emitted).

    Conventions of the embedding:
    - money amounts and clock readings are JS numbers with integer values
      and are modelled by that value in [Z] (milliseconds for time); the
      one arithmetic operation of the source on amounts, the subtraction
      that debits a budget or computes [spentAmount], rounds to the nearest
      double as IEEE 754 does ([js_sub]); amounts with a fractional part and
      non-finite values are outside the embedding;
    - the fields of a request that name a room, a team or a player are JSON
      strings;
    - JS objects used as dictionaries are [gmap string _], JS [Set]s of names
      are [gset string];
    - [Array.prototype.sort] is the stable sort of ECMAScript 2019, embedded
      as a stable insertion sort;
    - one handler invocation reads the clock once ([now]); time stamps, ISO
      strings in the source, are the clock readings themselves;
    - [Object.values] of a session table is [map_to_list]'s enumeration, so
      that answers listing several sessions are given up to the order of
      sessions with equal sort keys;
    - a handler is embedded from the point where [validateRoom] has found the
      room; the fields that [create-room] always sets ([soldPlayers],
      [currentBids], [blindBids], [batchState]) are plain record fields, so
      the handlers' [if (!room.x)] initialisations have nothing to do;
    - the cosmetic [soldPrice] annotation written back into the CSV rows is
      never read by any engine check and is left out of [Player]. *)

From stdpp Require Import gmap strings list fin_maps sorting.
From Stdlib Require Import ZArith Lia.

Open Scope Z_scope.
Set Warnings "-clear-no-such-hyp".

(** ** Configuration *)

Definition DEFAULT_BUDGET : Z := 100000.
Definition MAX_PLAYERS_PER_TEAM : nat := 15.
Definition BIDDING_TIMEOUT : Z := 60 * 1000.
Definition BLIND_BID_TIMEOUT : Z := 5 * 60 * 1000.

Definition CYCLE_ORDER : list string := ["BAT"; "AR"; "BOWL"; "WK"]%string.

(** [BATCH_CONFIG[type]]; a key outside the table reads [undefined], under
    which the loop guard [nextBatch.length < batchSize] is false, as with 0. *)
Definition BATCH_CONFIG (ty : string) : nat :=
  if decide (ty = "BAT"%string) then 8%nat
  else if decide (ty = "AR"%string) then 5%nat
  else if decide (ty = "BOWL"%string) then 8%nat
  else if decide (ty = "WK"%string) then 5%nat
  else 0%nat.

(** ** Data model *)

(** A CSV row after [loadCSVData]. *)
Record Player := mkPlayer {
  name : string;
  team : string;
  type : string;
  basePrice : option Z
}.

(** The projection of a player pushed into a batch by [/next-batch]. *)
Record AuctionPlayer := mkAuctionPlayer {
  ap_name : string;
  ap_team : string;
  ap_type : string;
  ap_basePrice : option Z
}.

(** An entry of [team.players]. *)
Record PurchasedPlayer := mkPurchased {
  pp_name : string;
  pp_team : string;
  pp_type : string;
  pp_basePrice : option Z;
  boughtPrice : Z;
  boughtAt : Z;
  awardedBy : option string
}.

Record Team := mkTeam {
  username : string;
  budget : Z;
  players : list PurchasedPlayer
}.

Record Bid := mkBid {
  bidderTeam : string;
  amount : Z;
  timestamp : Z;
  bidId : string
}.

Inductive Status := active | closed | sold.

Inductive BiddingType := regular | blind.

(** An entry of [room.currentBids] or [room.blindBids]. *)
Record BidData := mkBidData {
  playerName : string;
  playerType : string;
  bd_basePrice : option Z;
  bids : list Bid;
  biddingStartTime : Z;
  status : Status;
  biddingType : BiddingType;
  lastBidTime : option Z;
  closedAt : option Z;
  soldTo : option string;
  finalPrice : option Z;
  soldAt : option Z
}.

Record BatchState := mkBatchState {
  currentCycleIndex : nat;
  sentPlayers : gset string;
  typePointers : gmap string nat
}.

Record Room := mkRoom {
  roomId : string;
  users : gmap string Team;
  budgetPerUser : Z;
  createdAt : Z;
  lastActivity : Z;
  soldPlayers : gset string;
  currentBids : gmap string BidData;
  blindBids : gmap string BidData;
  batchState : BatchState
}.

#[global] Instance Status_eq_dec : EqDecision Status.
Proof. solve_decision. Defined.
#[global] Instance BiddingType_eq_dec : EqDecision BiddingType.
Proof. solve_decision. Defined.
#[global] Instance Player_eq_dec : EqDecision Player.
Proof. solve_decision. Defined.
#[global] Instance AuctionPlayer_eq_dec : EqDecision AuctionPlayer.
Proof. solve_decision. Defined.
#[global] Instance PurchasedPlayer_eq_dec : EqDecision PurchasedPlayer.
Proof. solve_decision. Defined.
#[global] Instance Team_eq_dec : EqDecision Team.
Proof. solve_decision. Defined.
#[global] Instance Bid_eq_dec : EqDecision Bid.
Proof. solve_decision. Defined.
#[global] Instance BidData_eq_dec : EqDecision BidData.
Proof. solve_decision. Defined.

(** ** [Array.prototype.sort] with a descending numeric comparator

    [xs.sort((a, b) => key(b) - key(a))]: elements with a greater key come
    first and elements with equal keys keep their relative order. *)

Fixpoint insert_desc {A} (key : A → Z) (x : A) (l : list A) : list A :=
  match l with
  | [] => [x]
  | y :: l' => if key x <? key y then y :: insert_desc key x l' else x :: y :: l'
  end.

Fixpoint sort_desc {A} (key : A → Z) (l : list A) : list A :=
  match l with
  | [] => []
  | x :: l' => insert_desc key x (sort_desc key l')
  end.

(** ** Catalog ([processPlayerData]) *)

Definition blindBidPlayers (csvPlayers : list Player) : list Player :=
  filter (λ p, basePrice p = None) csvPlayers.

Definition playersWithBase (csvPlayers : list Player) : list Player :=
  filter (λ p, basePrice p ≠ None) csvPlayers.

Definition basePrice_key (p : Player) : Z := default 0 (basePrice p).

(** [mainAuctionPlayers[ty] || []]: the table has the four keys of
    [CYCLE_ORDER] only. *)
Definition mainAuctionPlayers (csvPlayers : list Player) (ty : string) : list Player :=
  if decide (ty ∈ CYCLE_ORDER)
  then sort_desc basePrice_key (filter (λ p, type p = ty) (playersWithBase csvPlayers))
  else [].

(** [csvPlayers.find(p => p.name === playerName)] *)
Definition find_player (l : list Player) (n : string) : option Player :=
  List.find (λ p, bool_decide (name p = n)) l.

(** ** Batch dispatcher ([GET /next-batch/:roomId]) *)

Definition to_auction_player (p : Player) : AuctionPlayer :=
  mkAuctionPlayer (name p) (team p) (type p) (basePrice p).

(** The [for] loop over [availablePlayers] from [startIndex]: [rest] is the
    unvisited suffix, the loop stops at its end or when the batch is full. *)
Fixpoint scan_batch (rest : list Player) (batchSize : nat)
    (nextBatch : list AuctionPlayer) (sent : gset string)
    : list AuctionPlayer * gset string :=
  match rest with
  | [] => (nextBatch, sent)
  | p :: rest' =>
      if decide (length nextBatch < batchSize)%nat then
        if decide (name p ∈ sent) then scan_batch rest' batchSize nextBatch sent
        else scan_batch rest' batchSize (nextBatch ++ [to_auction_player p])
                        ({[name p]} ∪ sent)
      else (nextBatch, sent)
  end.

(** The JSON answer of [/next-batch]: the normal answer carries the three
    counters and no flag (read as [false]), the final one the two flags. *)
Record BatchResponse := mkBatchResponse {
  br_players : list AuctionPlayer;
  br_currentType : option string;
  br_nextType : option string;
  br_batchSize : option nat;
  br_playersInBatch : option nat;
  br_totalSentPlayers : option nat;
  br_batchComplete : bool;
  br_auctionComplete : bool
}.

Definition cycle_type (i : nat) : string := nth i CYCLE_ORDER ""%string.

Definition pointer_of (tp : gmap string nat) (ty : string) : nat :=
  default 0%nat (tp !! ty).

Definition allTypesExhausted (csvPlayers : list Player) (tp : gmap string nat) : bool :=
  forallb (λ ty, bool_decide (length (mainAuctionPlayers csvPlayers ty) ≤ pointer_of tp ty)%nat)
          CYCLE_ORDER.

Definition set_batchState (r : Room) (bs : BatchState) : Room :=
  mkRoom (roomId r) (users r) (budgetPerUser r) (createdAt r) (lastActivity r)
         (soldPlayers r) (currentBids r) (blindBids r) bs.

Definition set_lastActivity (r : Room) (now : Z) : Room :=
  mkRoom (roomId r) (users r) (budgetPerUser r) (createdAt r) now
         (soldPlayers r) (currentBids r) (blindBids r) (batchState r).

(** The handler body once the room has been found.  On the
    [auctionComplete] exit the batch state has already been written but
    [updateRoomActivity] is not reached. *)
Definition nextBatch (csvPlayers : list Player) (now : Z) (r : Room) : Room * BatchResponse :=
  let bs := batchState r in
  let currentType := cycle_type (currentCycleIndex bs) in
  let batchSize := BATCH_CONFIG currentType in
  let availablePlayers := mainAuctionPlayers csvPlayers currentType in
  let startIndex := pointer_of (typePointers bs) currentType in
  let '(batch, sent) :=
    scan_batch (drop startIndex availablePlayers) batchSize [] (sentPlayers bs) in
  let tp := <[currentType := (startIndex + length batch)%nat]> (typePointers bs) in
  let answer idx :=
    mkBatchResponse batch (Some currentType) (Some (cycle_type idx)) (Some batchSize)
                    (Some (length batch)) (Some (size sent)) false false in
  if decide (length batch = 0%nat
             ∨ (length availablePlayers ≤ pointer_of tp currentType)%nat) then
    let idx := ((currentCycleIndex bs + 1) mod length CYCLE_ORDER)%nat in
    let bs' := mkBatchState idx sent tp in
    if allTypesExhausted csvPlayers tp && bool_decide (length batch = 0%nat) then
      (set_batchState r bs', mkBatchResponse [] None None None None None true true)
    else (set_lastActivity (set_batchState r bs') now, answer idx)
  else
    let bs' := mkBatchState (currentCycleIndex bs) sent tp in
    (set_lastActivity (set_batchState r bs') now, answer (currentCycleIndex bs)).

(** ** Responses and effects *)

(** The failure responses of the handlers ([success: false]); the comment
    gives the HTTP status and the message of the source. *)
Inductive Error :=
| BadRequest                     (* 400 '... are required' *)
| TeamNotFound                   (* 404 'Team not found in room' *)
| BudgetExceeded                 (* 400 'Insufficient budget' / 'Bid amount exceeds available budget' *)
| RosterFull                     (* 400 'Team already has maximum 15 players' *)
| PlayerNotFound                 (* 404 'Player not found ...' *)
| PlayerAlreadySold              (* 409 'Player already sold' *)
| SessionNotActive (st : Status) (* 400 'Bidding for <player> is (already) <status>' *)
| BelowBasePrice (base : Z)      (* 400 'Bid amount must be at least <base> (base price)' *)
| BidTooLow (highest : Z)        (* 400 'Bid amount must be higher than current highest bid of <highest>' *)
| DuplicateBid                   (* 400 'Team has already placed a blind bid for this player' *)
| SessionAlreadyActive           (* 409 '(Blind) bidding already started for this player' *)
| NoSessionFound                 (* 404 'No active <type> bidding found for this player' *)
| BadBiddingType.                (* 400 'biddingType must be "regular" or "blind"' *)

(** An element of [regularBids] in the [/room-bids] response. *)
Record RegularBidView := mkRegularBidView {
  rv_playerName : string;
  rv_playerType : string;
  rv_basePrice : option Z;
  rv_highestBid : option Bid;
  rv_totalBids : nat;
  rv_biddingStartTime : Z;
  rv_lastBidTime : option Z;
  rv_timeRemaining : Z;
  rv_allBids : list Bid
}.

(** An element of [blindBids] in the [/room-bids] response. *)
Record BlindBidView := mkBlindBidView {
  bv_playerName : string;
  bv_playerType : string;
  bv_totalBids : nat;
  bv_biddingStartTime : Z;
  bv_timeRemaining : Z
}.

(** An element of [history] in the [/bidding-history] response. *)
Record HistoryEntry := mkHistoryEntry {
  he_playerName : string;
  he_playerType : string;
  he_basePrice : option Z;
  he_biddingType : BiddingType;
  he_status : Status;
  he_winningBid : option Bid;
  he_totalBids : nat;
  he_allBids : list Bid;
  he_biddingStartTime : Z;
  he_closedAt : option Z;
  he_soldAt : option Z;
  he_soldTo : option string;
  he_finalPrice : option Z
}.

Inductive Response :=
| Err (e : Error)
| NoResponse
| Purchased (playerName : string) (soldPrice : Z) (buyerTeam : string)
            (remainingBudget : Z) (teamPlayerCount : nat)
| BidPlaced (bid : Bid) (currentHighestBid : Z) (currentHighestBidder : option string)
            (totalBids : nat) (biddingStatus : Status) (timeRemaining : Z)
| BlindBidPlaced (bidId : string) (bidderTeam : string) (timestamp : Z)
                 (totalBids : nat) (biddingStatus : Status) (timeRemaining : Z)
| BiddingStarted (playerName playerType : string) (basePrice : option Z)
                 (biddingStartTime biddingTimeout : Z) (biddingType : BiddingType)
| BiddingClosed (playerName : string) (biddingType : BiddingType) (winningBid : option Bid)
                (totalBids : nat) (st : Status) (closedAt : option Z)
                (soldTo : option string) (finalPrice : option Z)
| BidsNotStarted (playerName : string) (biddingType : BiddingType)
| PlayerBidsView (playerName playerType : string) (basePrice : option Z)
                 (bids : list Bid) (highestBid : option Bid) (totalBids : nat)
                 (biddingStatus : Status) (biddingStartTime : Z)
                 (lastBidTime : option Z) (timeRemaining : Z)
| BlindBidsHidden (playerName playerType : string) (totalBids : nat)
                  (biddingStatus : Status) (biddingStartTime timeRemaining : Z)
| BlindBidsRevealed (playerName playerType : string) (bids : list Bid)
                    (highestBid : option Bid) (totalBids : nat) (biddingStatus : Status)
                    (biddingStartTime : Z) (lastBidTime closedAt : option Z)
                    (soldTo : option string) (finalPrice : option Z)
| RoomBidsView (regularBids : list RegularBidView) (blindBids : list BlindBidView)
| HistoryView (history : list HistoryEntry)
| BatchView (b : BatchResponse)
| Joined (teamName : string) (budget : option Z).

Inductive Effect :=
| SetTimeout (ty : BiddingType) (playerName : string) (delay : Z)
| SaveRooms
| EmitBidUpdate (playerName : string) (highestBid : Z) (highestBidder : option string)
                (totalBids : nat) (timeRemaining : Z)
| EmitBlindBidUpdate (playerName : string) (totalBids : nat) (timeRemaining : Z)
| EmitPlayerAwarded (playerName : string) (soldPrice : Z) (buyerTeam : string)
| EmitBlindPlayerAwarded (playerName : string) (soldPrice : Z) (buyerTeam : string).

(** ** Field updates *)

Definition set_bids (bd : BidData) (l : list Bid) : BidData :=
  mkBidData (playerName bd) (playerType bd) (bd_basePrice bd) l (biddingStartTime bd)
            (status bd) (biddingType bd) (lastBidTime bd) (closedAt bd) (soldTo bd)
            (finalPrice bd) (soldAt bd).

Definition push_bid (bd : BidData) (b : Bid) (now : Z) : BidData :=
  mkBidData (playerName bd) (playerType bd) (bd_basePrice bd) (bids bd ++ [b])
            (biddingStartTime bd) (status bd) (biddingType bd) (Some now) (closedAt bd)
            (soldTo bd) (finalPrice bd) (soldAt bd).

Definition set_closed (bd : BidData) (now : Z) : BidData :=
  mkBidData (playerName bd) (playerType bd) (bd_basePrice bd) (bids bd) (biddingStartTime bd)
            closed (biddingType bd) (lastBidTime bd) (Some now) (soldTo bd)
            (finalPrice bd) (soldAt bd).

Definition set_sold (bd : BidData) (w : Bid) (now : Z) : BidData :=
  mkBidData (playerName bd) (playerType bd) (bd_basePrice bd) (bids bd) (biddingStartTime bd)
            sold (biddingType bd) (lastBidTime bd) (closedAt bd) (Some (bidderTeam w))
            (Some (amount w)) (Some now).

Definition new_session (n ty : string) (base : option Z) (now : Z) (bt : BiddingType) : BidData :=
  mkBidData n ty base [] now active bt None None None None None.

Definition set_currentBids (r : Room) (m : gmap string BidData) : Room :=
  mkRoom (roomId r) (users r) (budgetPerUser r) (createdAt r) (lastActivity r)
         (soldPlayers r) m (blindBids r) (batchState r).

Definition set_blindBids (r : Room) (m : gmap string BidData) : Room :=
  mkRoom (roomId r) (users r) (budgetPerUser r) (createdAt r) (lastActivity r)
         (soldPlayers r) (currentBids r) m (batchState r).

Definition set_users (r : Room) (m : gmap string Team) : Room :=
  mkRoom (roomId r) m (budgetPerUser r) (createdAt r) (lastActivity r)
         (soldPlayers r) (currentBids r) (blindBids r) (batchState r).

Definition add_sold (r : Room) (n : string) : Room :=
  mkRoom (roomId r) (users r) (budgetPerUser r) (createdAt r) (lastActivity r)
         ({[n]} ∪ soldPlayers r) (currentBids r) (blindBids r) (batchState r).

(** Every integer up to [exact_limit] in magnitude is a double. *)
Definition exact_limit : Z := 2 ^ 53.

(** The double nearest to the integer [z], ties to the even significand: the
    significand keeps 53 bits ([q]), the [e] bits below it are rounded away.
    (Below the overflow threshold of doubles, 2^1024.) *)
Definition round53 (z : Z) : Z :=
  let a := Z.abs z in
  if a <=? exact_limit then z
  else
    let e := Z.log2 a - 52 in
    let q := a / 2 ^ e in
    let rest := a mod 2 ^ e in
    let half := 2 ^ (e - 1) in
    let q' := if (half <? rest) || ((rest =? half) && Z.odd q) then q + 1 else q in
    Z.sgn z * (q' * 2 ^ e).

(** [a - b] on two integer-valued doubles: the exact difference, rounded. *)
Definition js_sub (a b : Z) : Z := round53 (a - b).

(** [team.budget -= price; team.players.push(record)] *)
Definition buy (t : Team) (pp : PurchasedPlayer) : Team :=
  mkTeam (username t) (js_sub (budget t) (boughtPrice pp)) (players t ++ [pp]).

(** ** Room Ledger: direct purchase ([POST /select-player]) *)

Definition selectPlayer (csvPlayers : list Player) (now : Z) (r : Room)
    (playerName : string) (soldPrice : Z) (buyerTeam : string)
    : Room * Response * list Effect :=
  if decide (playerName = ""%string ∨ buyerTeam = ""%string) then (r, Err BadRequest, [])
  else match users r !! buyerTeam with
  | None => (r, Err TeamNotFound, [])
  | Some tm =>
    if decide (budget tm < soldPrice) then (r, Err BudgetExceeded, [])
    else if decide (MAX_PLAYERS_PER_TEAM ≤ length (players tm))%nat then (r, Err RosterFull, [])
    else match find_player csvPlayers playerName with
    | None => (r, Err PlayerNotFound, [])
    | Some player =>
      if decide (playerName ∈ soldPlayers r) then (r, Err PlayerAlreadySold, [])
      else
        let tm' := buy tm (mkPurchased playerName (team player) (type player)
                                           (basePrice player) soldPrice now None) in
        let r' := set_lastActivity (add_sold (set_users r (<[buyerTeam := tm']> (users r)))
                                             playerName) now in
        (r', Purchased playerName soldPrice buyerTeam (budget tm') (length (players tm')),
         [SaveRooms])
    end
  end.

(** ** Session resolution ([autoAwardPlayer], [autoAwardBlindBidPlayer]) *)

(** The common body of the two functions, which differ in the session table,
    the catalog searched, the recorded base price, the [awardedBy] tag and
    the socket event.  [bids.sort] sorts the session's array in place. *)
Definition resolve (pool : list Player) (bt : BiddingType) (now : Z) (r : Room)
    (table : gmap string BidData) (set_table : Room → gmap string BidData → Room)
    (n : string) : Room * list Effect :=
  match table !! n with
  | None => (r, [])
  | Some bd =>
    if decide (status bd ≠ active) then (r, [])
    else
      let sortedBids := sort_desc amount (bids bd) in
      let bd1 := set_bids (set_closed bd now) sortedBids in
      let closed_room := set_table r (<[n := bd1]> table) in
      match head sortedBids with
      | None => (closed_room, [SaveRooms])
      | Some winningBid =>
        match users r !! bidderTeam winningBid, find_player pool n with
        | Some tm, Some player =>
          if decide (amount winningBid ≤ budget tm
                     ∧ (length (players tm) < MAX_PLAYERS_PER_TEAM)%nat) then
            let record :=
              mkPurchased n (team player) (type player)
                (match bt with regular => basePrice player | blind => None end)
                (amount winningBid) now
                (Some (match bt with
                       | regular => "auto_highest_bid"
                       | blind => "auto_blind_bid" end)%string) in
            let r1 := set_users r (<[bidderTeam winningBid := buy tm record]> (users r)) in
            let r2 := add_sold r1 n in
            let r3 := set_table r2 (<[n := set_sold bd1 winningBid now]> table) in
            (r3, [match bt with
                  | regular => EmitPlayerAwarded n (amount winningBid) (bidderTeam winningBid)
                  | blind => EmitBlindPlayerAwarded n (amount winningBid) (bidderTeam winningBid)
                  end; SaveRooms])
          else (closed_room, [SaveRooms])
        | _, _ => (closed_room, [SaveRooms])
        end
      end
  end.

Definition autoAwardPlayer (csvPlayers : list Player) (now : Z) (r : Room) (n : string)
    : Room * list Effect :=
  resolve csvPlayers regular now r (currentBids r) set_currentBids n.

Definition autoAwardBlindBidPlayer (csvPlayers : list Player) (now : Z) (r : Room) (n : string)
    : Room * list Effect :=
  resolve (blindBidPlayers csvPlayers) blind now r (blindBids r) set_blindBids n.

(** The callbacks armed by [scheduleAutoCloseBidding] and
    [scheduleAutoCloseBlindBidding]. *)
Definition timerRegular (csvPlayers : list Player) (now : Z) (r : Room) (n : string)
    : Room * list Effect :=
  match currentBids r !! n with
  | Some bd => if decide (status bd = active) then autoAwardPlayer csvPlayers now r n else (r, [])
  | None => (r, [])
  end.

Definition timerBlind (csvPlayers : list Player) (now : Z) (r : Room) (n : string)
    : Room * list Effect :=
  match blindBids r !! n with
  | Some bd => if decide (status bd = active) then autoAwardBlindBidPlayer csvPlayers now r n
               else (r, [])
  | None => (r, [])
  end.

(** ** Bid admission ([POST /place-bid], [POST /place-blind-bid]) *)

(** [bids.length > 0 ? Math.max(...bids.map(b => b.amount)) : 0] *)
Definition currentHighestBid (l : list Bid) : Z :=
  match l with
  | [] => 0
  | b :: l' => foldr (λ b' m, Z.max (amount b') m) (amount b) l'
  end.

(** [player.basePrice && bidAmount < player.basePrice]: a base price of 0 is
    falsy and disables the floor. *)
Definition below_base (player : Player) (bidAmount : Z) : option Z :=
  match basePrice player with
  | Some b => if decide (b ≠ 0 ∧ bidAmount < b) then Some b else None
  | None => None
  end.

Definition placeBid (csvPlayers : list Player) (now : Z) (r : Room)
    (n : string) (bidAmount : Z) (bidder : string) (rnd : string)
    : Room * Response * list Effect :=
  if decide (n = ""%string ∨ bidder = ""%string) then (r, Err BadRequest, [])
  else match users r !! bidder with
  | None => (r, Err TeamNotFound, [])
  | Some tm =>
    if decide (budget tm < bidAmount) then (r, Err BudgetExceeded, [])
    else if decide (MAX_PLAYERS_PER_TEAM ≤ length (players tm))%nat then (r, Err RosterFull, [])
    else match find_player csvPlayers n with
    | None => (r, Err PlayerNotFound, [])
    | Some player =>
      if decide (n ∈ soldPlayers r) then (r, Err PlayerAlreadySold, [])
      else
        (* Initialize bids for this player if not exists *)
        let '(r1, bd, eff) :=
          match currentBids r !! n with
          | Some bd => (r, bd, [])
          | None =>
              let bd := new_session n (type player) (basePrice player) now regular in
              (set_currentBids r (<[n := bd]> (currentBids r)), bd,
               [SetTimeout regular n BIDDING_TIMEOUT])
          end in
        if decide (status bd ≠ active) then (r1, Err (SessionNotActive (status bd)), eff)
        else match below_base player bidAmount with
        | Some b => (r1, Err (BelowBasePrice b), eff)
        | None =>
          let highest := currentHighestBid (bids bd) in
          if decide (bidAmount ≤ highest) then (r1, Err (BidTooLow highest), eff)
          else
            let newBid := mkBid bidder bidAmount now rnd in
            let bd' := push_bid bd newBid now in
            let r2 := set_lastActivity
                        (set_currentBids r1 (<[n := bd']> (currentBids r1))) now in
            let highestBid := currentHighestBid (bids bd') in
            let highestBidder :=
              List.find (λ b, bool_decide (amount b = highestBid)) (bids bd') in
            let remaining := BIDDING_TIMEOUT - (now - biddingStartTime bd') in
            (r2,
             BidPlaced newBid highestBid (bidderTeam <$> highestBidder)
                       (length (bids bd')) (status bd') remaining,
             eff ++ [SaveRooms;
                     EmitBidUpdate n highestBid (bidderTeam <$> highestBidder)
                                   (length (bids bd')) remaining])
        end
    end
  end.

Definition placeBlindBid (csvPlayers : list Player) (now : Z) (r : Room)
    (n : string) (bidAmount : Z) (bidder : string) (rnd : string)
    : Room * Response * list Effect :=
  if decide (n = ""%string ∨ bidder = ""%string) then (r, Err BadRequest, [])
  else match users r !! bidder with
  | None => (r, Err TeamNotFound, [])
  | Some tm =>
    if decide (budget tm < bidAmount) then (r, Err BudgetExceeded, [])
    else if decide (MAX_PLAYERS_PER_TEAM ≤ length (players tm))%nat then (r, Err RosterFull, [])
    else match find_player (blindBidPlayers csvPlayers) n with
    | None => (r, Err PlayerNotFound, [])
    | Some player =>
      if decide (n ∈ soldPlayers r) then (r, Err PlayerAlreadySold, [])
      else
        let '(r1, bd, eff) :=
          match blindBids r !! n with
          | Some bd => (r, bd, [])
          | None =>
              let bd := new_session n (type player) None now blind in
              (set_blindBids r (<[n := bd]> (blindBids r)), bd,
               [SetTimeout blind n BLIND_BID_TIMEOUT])
          end in
        if decide (status bd ≠ active) then (r1, Err (SessionNotActive (status bd)), eff)
        else match List.find (λ b, bool_decide (bidderTeam b = bidder)) (bids bd) with
        | Some _ => (r1, Err DuplicateBid, eff)
        | None =>
            let newBid := mkBid bidder bidAmount now rnd in
            let bd' := push_bid bd newBid now in
            let r2 := set_lastActivity
                        (set_blindBids r1 (<[n := bd']> (blindBids r1))) now in
            let remaining := BLIND_BID_TIMEOUT - (now - biddingStartTime bd') in
            (r2,
             BlindBidPlaced (bidId newBid) (bidderTeam newBid) (timestamp newBid)
                            (length (bids bd')) (status bd') remaining,
             eff ++ [SaveRooms; EmitBlindBidUpdate n (length (bids bd')) remaining])
        end
    end
  end.

(** ** Explicit session start ([POST /start-bidding], [POST /start-blind-bidding]) *)

Definition startBidding (csvPlayers : list Player) (now : Z) (r : Room) (n : string)
    : Room * Response * list Effect :=
  if decide (n = ""%string) then (r, Err BadRequest, [])
  else match List.find (λ p, bool_decide (name p = n ∧ basePrice p ≠ None)) csvPlayers with
  | None => (r, Err PlayerNotFound, [])
  | Some player =>
    if decide (n ∈ soldPlayers r) then (r, Err PlayerAlreadySold, [])
    else match currentBids r !! n with
    | Some _ => (r, Err SessionAlreadyActive, [])
    | None =>
        let bd := new_session n (type player) (basePrice player) now regular in
        (set_lastActivity (set_currentBids r (<[n := bd]> (currentBids r))) now,
         BiddingStarted n (type player) (basePrice player) now BIDDING_TIMEOUT regular,
         [SetTimeout regular n BIDDING_TIMEOUT; SaveRooms])
    end
  end.

Definition startBlindBidding (csvPlayers : list Player) (now : Z) (r : Room) (n : string)
    : Room * Response * list Effect :=
  if decide (n = ""%string) then (r, Err BadRequest, [])
  else match find_player (blindBidPlayers csvPlayers) n with
  | None => (r, Err PlayerNotFound, [])
  | Some player =>
    if decide (n ∈ soldPlayers r) then (r, Err PlayerAlreadySold, [])
    else match blindBids r !! n with
    | Some _ => (r, Err SessionAlreadyActive, [])
    | None =>
        let bd := new_session n (type player) None now blind in
        (set_lastActivity (set_blindBids r (<[n := bd]> (blindBids r))) now,
         BiddingStarted n (type player) None now BLIND_BID_TIMEOUT blind,
         [SetTimeout blind n BLIND_BID_TIMEOUT; SaveRooms])
    end
  end.

(** ** Manual close ([POST /close-bidding]) *)

(** After the award function the handler re-reads the session and sorts its
    bids once more for the response. *)
Definition close_response (bt : BiddingType) (r : Room)
    (table : gmap string BidData) (set_table : Room → gmap string BidData → Room)
    (n : string) : Room * Response :=
  match table !! n with
  | None => (r, NoResponse)
  | Some bd =>
      let sortedBids := sort_desc amount (bids bd) in
      (set_table r (<[n := set_bids bd sortedBids]> table),
       BiddingClosed n bt (head sortedBids) (length sortedBids) (status bd)
                     (closedAt bd) (soldTo bd) (finalPrice bd))
  end.

Definition closeBidding (csvPlayers : list Player) (now : Z) (r : Room)
    (n : string) (biddingType : string) : Room * Response * list Effect :=
  if decide (n = ""%string ∨ biddingType = ""%string) then (r, Err BadRequest, [])
  else if decide (biddingType = "regular"%string) then
    match currentBids r !! n with
    | None => (r, Err NoSessionFound, [])
    | Some bd =>
      if decide (status bd ≠ active) then (r, Err (SessionNotActive (status bd)), [])
      else
        let '(r1, eff) := autoAwardPlayer csvPlayers now r n in
        let '(r2, resp) := close_response regular r1 (currentBids r1) set_currentBids n in
        (r2, resp, eff)
    end
  else if decide (biddingType = "blind"%string) then
    match blindBids r !! n with
    | None => (r, Err NoSessionFound, [])
    | Some bd =>
      if decide (status bd ≠ active) then (r, Err (SessionNotActive (status bd)), [])
      else
        let '(r1, eff) := autoAwardBlindBidPlayer csvPlayers now r n in
        let '(r2, resp) := close_response blind r1 (blindBids r1) set_blindBids n in
        (r2, resp, eff)
    end
  else (r, Err BadBiddingType, []).

(** ** Queries

    [Object.values(table)] is rendered by [map_to_list]; the regular-session
    queries sort the session's bid array in place, which is a write to the
    room. *)

Definition sort_in_place (bd : BidData) : BidData := set_bids bd (sort_desc amount (bids bd)).

(** [GET /player-bids/:roomId/:playerName] *)
Definition playerBids (now : Z) (r : Room) (n : string) : Room * Response :=
  match currentBids r !! n with
  | None => (r, BidsNotStarted n regular)
  | Some bd =>
      let bd' := sort_in_place bd in
      (set_lastActivity (set_currentBids r (<[n := bd']> (currentBids r))) now,
       PlayerBidsView n (playerType bd') (bd_basePrice bd') (bids bd') (head (bids bd'))
         (length (bids bd')) (status bd') (biddingStartTime bd') (lastBidTime bd')
         (if decide (status bd' = active)
          then Z.max 0 (BIDDING_TIMEOUT - (now - biddingStartTime bd')) else 0))
  end.

(** [GET /blind-bids/:roomId/:playerName] *)
Definition blindBidsQuery (now : Z) (r : Room) (n : string) : Room * Response :=
  match blindBids r !! n with
  | None => (r, BidsNotStarted n blind)
  | Some bd =>
      (* Only show bids if bidding is closed or sold *)
      if decide (status bd = active) then
        (r, BlindBidsHidden n (playerType bd) (length (bids bd)) (status bd)
              (biddingStartTime bd)
              (Z.max 0 (BLIND_BID_TIMEOUT - (now - biddingStartTime bd))))
      else
        let bd' := sort_in_place bd in
        (set_lastActivity (set_blindBids r (<[n := bd']> (blindBids r))) now,
         BlindBidsRevealed n (playerType bd') (bids bd') (head (bids bd'))
           (length (bids bd')) (status bd') (biddingStartTime bd') (lastBidTime bd')
           (closedAt bd') (soldTo bd') (finalPrice bd'))
  end.

Definition regular_view (now : Z) (bd : BidData) : RegularBidView :=
  mkRegularBidView (playerName bd) (playerType bd) (bd_basePrice bd) (head (bids bd))
    (length (bids bd)) (biddingStartTime bd) (lastBidTime bd)
    (Z.max 0 (BIDDING_TIMEOUT - (now - biddingStartTime bd))) (bids bd).

Definition blind_view (now : Z) (bd : BidData) : BlindBidView :=
  mkBlindBidView (playerName bd) (playerType bd) (length (bids bd)) (biddingStartTime bd)
    (Z.max 0 (BLIND_BID_TIMEOUT - (now - biddingStartTime bd))).

Definition is_active (bd : BidData) : bool := bool_decide (status bd = active).

Definition sort_active (bd : BidData) : BidData :=
  if is_active bd then sort_in_place bd else bd.

Definition values (m : gmap string BidData) : list BidData := (map_to_list m).*2.

(** [GET /room-bids/:roomId] *)
Definition roomBids (now : Z) (r : Room) : Room * Response :=
  let cur := sort_active <$> currentBids r in
  let regularBids := regular_view now <$> List.filter is_active (values cur) in
  let blindViews := blind_view now <$> List.filter is_active (values (blindBids r)) in
  (set_lastActivity (set_currentBids r cur) now,
   RoomBidsView
     (sort_desc (λ v, default (rv_biddingStartTime v) (rv_lastBidTime v)) regularBids)
     (sort_desc bv_biddingStartTime blindViews)).

Definition is_terminal (bd : BidData) : bool :=
  bool_decide (status bd = sold ∨ status bd = closed).

Definition sort_terminal (bd : BidData) : BidData :=
  if is_terminal bd then sort_in_place bd else bd.

Definition history_entry (bt : BiddingType) (bd : BidData) : HistoryEntry :=
  mkHistoryEntry (playerName bd) (playerType bd)
    (match bt with regular => bd_basePrice bd | blind => None end) bt (status bd)
    (head (bids bd)) (length (bids bd)) (bids bd) (biddingStartTime bd) (closedAt bd)
    (soldAt bd) (soldTo bd) (finalPrice bd).

(** [new Date(h.soldAt || h.closedAt)] as a number; a terminal session always
    carries [closedAt]. *)
Definition history_key (h : HistoryEntry) : Z :=
  match he_soldAt h with
  | Some t => t
  | None => default 0 (he_closedAt h)
  end.

(** [GET /bidding-history/:roomId] *)
Definition biddingHistory (now : Z) (r : Room) : Room * Response :=
  let cur := sort_terminal <$> currentBids r in
  let bl := sort_terminal <$> blindBids r in
  let history :=
    (history_entry regular <$> List.filter is_terminal (values cur))
    ++ (history_entry blind <$> List.filter is_terminal (values bl)) in
  (set_lastActivity (set_blindBids (set_currentBids r cur) bl) now,
   HistoryView (sort_desc history_key history)).

(** ** Room creation and late join ([POST /create-room], [POST /join-room]) *)

(** [x || DEFAULT_BUDGET] for a numeric or missing [x]. *)
Definition or_default_budget (x : option Z) : Z :=
  match x with
  | Some b => if decide (b = 0) then DEFAULT_BUDGET else b
  | None => DEFAULT_BUDGET
  end.

Definition initial_batchState : BatchState :=
  mkBatchState 0 ∅ (list_to_map [("BAT", 0); ("AR", 0); ("BOWL", 0); ("WK", 0)]%string%nat).

(** [users.forEach(username => newRoom.users[username] = {...})]: one team
    per distinct name.  (For the name ["__proto__"] the source's assignment
    sets the prototype of [users] instead of a key; the team is then still
    what [users["__proto__"]] reads, as here, but is not enumerated.) *)
Definition newRoom (rid : string) (usernames : list string) (budgetPerUser : option Z)
    (now : Z) : Room :=
  let budget := or_default_budget budgetPerUser in
  mkRoom rid
    (foldl (λ m u, <[u := mkTeam u budget []]> m) ∅ usernames)
    budget now now ∅ ∅ ∅ initial_batchState.

Inductive CreateError := CreateBadRequest | RoomAlreadyExists.

(** The property names every plain object inherits from [Object.prototype]:
    [obj[k]] is truthy for them whether or not [obj] holds the key [k]. *)
Definition proto_members : list string :=
  ["constructor"; "__proto__"; "hasOwnProperty"; "isPrototypeOf"; "propertyIsEnumerable";
   "toLocaleString"; "toString"; "valueOf"; "__defineGetter__"; "__defineSetter__";
   "__lookupGetter__"; "__lookupSetter__"]%string.

(** [if (rooms[roomId])] answers 409 for a registered room and for an
    inherited property name alike. *)
Definition createRoom (rooms : gmap string Room) (rid : string) (usernames : list string)
    (budgetPerUser : option Z) (now : Z) : gmap string Room * option CreateError :=
  if decide (rid = ""%string ∨ (length usernames < 2)%nat) then (rooms, Some CreateBadRequest)
  else match rooms !! rid with
  | Some _ => (rooms, Some RoomAlreadyExists)
  | None =>
      if decide (rid ∈ proto_members) then (rooms, Some RoomAlreadyExists)
      else (<[rid := newRoom rid usernames budgetPerUser now]> rooms, None)
  end.

(** The names under which [users[k]] is truthy without [users] holding a
    team under [k]: the members of [Object.prototype] and, when a team was
    created under the name ["__proto__"] and so became the prototype of
    [users], that team's own fields (a budget of 0 is falsy). *)
Definition inherited (usrs : gmap string Team) (k : string) : bool :=
  bool_decide (k ∈ proto_members)
  || match usrs !! "__proto__"%string with
     | Some h =>
         bool_decide (k = "username"%string) || bool_decide (k = "players"%string)
         || (bool_decide (k = "budget"%string) && negb (budget h =? 0))
     | None => false
     end.

(** [if (!rooms[roomID].users[teamName])]: an inherited property name is
    truthy, so no team is added for it, and the answer then reads the
    [budget] of the inherited value, which is [undefined]. *)
Definition joinRoom (now : Z) (r : Room) (teamName : string) : Room * Response * list Effect :=
  match users r !! teamName with
  | None =>
      if inherited (users r) teamName then (r, Joined teamName None, [])
      else
        let b := or_default_budget (Some (budgetPerUser r)) in
        (set_lastActivity (set_users r (<[teamName := mkTeam teamName b []]> (users r))) now,
         Joined teamName (Some b), [SaveRooms])
  | Some tm => (r, Joined teamName (Some (budget tm)), [])
  end.

(** ** The engine as a transition system

    One [Op] per entry point of a room: the HTTP handlers and the two timer
    callbacks.  [step] runs one entry point at clock reading [now]. *)

Inductive Op :=
| OpSelectPlayer (playerName : string) (soldPrice : Z) (buyerTeam : string)
| OpNextBatch
| OpPlaceBid (playerName : string) (bidAmount : Z) (bidderTeam : string) (rnd : string)
| OpPlaceBlindBid (playerName : string) (bidAmount : Z) (bidderTeam : string) (rnd : string)
| OpStartBidding (playerName : string)
| OpStartBlindBidding (playerName : string)
| OpCloseBidding (playerName : string) (biddingType : string)
| OpTimerRegular (playerName : string)
| OpTimerBlind (playerName : string)
| OpPlayerBids (playerName : string)
| OpBlindBids (playerName : string)
| OpRoomBids
| OpBiddingHistory
| OpJoinRoom (teamName : string).

Definition step (csvPlayers : list Player) (r : Room) (ev : Z * Op)
    : Room * Response * list Effect :=
  let now := ev.1 in
  match ev.2 with
  | OpSelectPlayer n p t => selectPlayer csvPlayers now r n p t
  | OpNextBatch =>
      let '(r', b) := nextBatch csvPlayers now r in
      (r', BatchView b, if br_auctionComplete b then [] else [SaveRooms])
  | OpPlaceBid n a t rnd => placeBid csvPlayers now r n a t rnd
  | OpPlaceBlindBid n a t rnd => placeBlindBid csvPlayers now r n a t rnd
  | OpStartBidding n => startBidding csvPlayers now r n
  | OpStartBlindBidding n => startBlindBidding csvPlayers now r n
  | OpCloseBidding n bt => closeBidding csvPlayers now r n bt
  | OpTimerRegular n => let '(r', eff) := timerRegular csvPlayers now r n in (r', NoResponse, eff)
  | OpTimerBlind n => let '(r', eff) := timerBlind csvPlayers now r n in (r', NoResponse, eff)
  | OpPlayerBids n => let '(r', resp) := playerBids now r n in (r', resp, [])
  | OpBlindBids n => let '(r', resp) := blindBidsQuery now r n in (r', resp, [])
  | OpRoomBids => let '(r', resp) := roomBids now r in (r', resp, [])
  | OpBiddingHistory => let '(r', resp) := biddingHistory now r in (r', resp, [])
  | OpJoinRoom t => joinRoom now r t
  end.

(** The room after a sequence of entry points. *)
Definition run (csvPlayers : list Player) (r : Room) (evs : list (Z * Op)) : Room :=
  foldl (λ r ev, (step csvPlayers r ev).1.1) r evs.

(** Rooms that [create-room] followed by any sequence of entry points can
    produce. *)
Inductive reachable (csvPlayers : list Player) : Room → Prop :=
| reachable_new rid usernames b now :
    reachable csvPlayers (newRoom rid usernames b now)
| reachable_step r ev :
    reachable csvPlayers r → reachable csvPlayers (step csvPlayers r ev).1.1.

(** ** Ledger totals *)

Definition sum_teams (f : Team → Z) (m : gmap string Team) : Z :=
  map_fold (λ _ t acc, f t + acc) 0 m.

(** The purchase prices recorded in one roster. *)
Definition spent (t : Team) : Z := foldr (λ pp acc, boughtPrice pp + acc) 0 (players t).

Definition total_budget (r : Room) : Z := sum_teams budget (users r).
Definition total_spent (r : Room) : Z := sum_teams spent (users r).
Definition initial_total_budget (r : Room) : Z := Z.of_nat (size (users r)) * budgetPerUser r.

(** The number of roster entries for a name across all teams of the room. *)
Definition records_in (n : string) (t : Team) : Z :=
  Z.of_nat (length (List.filter (λ pp, bool_decide (pp_name pp = n)) (players t))).

Definition records_of (n : string) (r : Room) : Z := sum_teams (records_in n) (users r).

(** ** Repeated batch requests *)

(** Call [/next-batch] until it reports [auctionComplete], at most [fuel]
    times; the result is the list of batch responses before the final one
    and whether [auctionComplete] was reached. *)
Fixpoint requestAll (csvPlayers : list Player) (now : Z) (fuel : nat) (r : Room)
    : list BatchResponse * bool :=
  match fuel with
  | O => ([], false)
  | S fuel' =>
      let '(r', b) := nextBatch csvPlayers now r in
      if br_auctionComplete b then ([], true)
      else let '(bs, done) := requestAll csvPlayers now fuel' r' in (b :: bs, done)
  end.

(** The players served for one type, in the order served. *)
Definition served_for (ty : string) (bs : list BatchResponse) : list AuctionPlayer :=
  concat (br_players <$> List.filter (λ b, bool_decide (br_currentType b = Some ty)) bs).

Definition priced_catalog (csvPlayers : list Player) : list Player :=
  concat (mainAuctionPlayers csvPlayers <$> CYCLE_ORDER).

(** ** Accepted regular bids along a run *)

(** The amounts of the [place-bid] calls on player [n] that were accepted, in
    the order of acceptance. *)
Fixpoint accepted_bids (csvPlayers : list Player) (r : Room) (evs : list (Z * Op))
    (n : string) : list Z :=
  match evs with
  | [] => []
  | ev :: evs' =>
      let out := step csvPlayers r ev in
      let rest := accepted_bids csvPlayers out.1.1 evs' n in
      match ev.2, out.1.2 with
      | OpPlaceBid n' a _ _, BidPlaced _ _ _ _ _ _ => if decide (n' = n) then a :: rest else rest
      | _, _ => rest
      end
  end.

(** ** What an observer may know of a blind session *)

Definition hide_amount (b : Bid) : Bid := mkBid (bidderTeam b) 0 (timestamp b) (bidId b).

(** The bids of an active blind session with their amounts blanked. *)
Definition hide_amounts (bd : BidData) : BidData :=
  if is_active bd then set_bids bd (hide_amount <$> bids bd) else bd.

(** Two rooms that differ at most in the amounts of the bids held by active
    blind sessions. *)
Definition blind_equiv (r1 r2 : Room) : Prop :=
  set_blindBids r1 ∅ = set_blindBids r2 ∅
  ∧ hide_amounts <$> blindBids r1 = hide_amounts <$> blindBids r2.

(** ** Persistence ([saveRoomsToDB], [loadRoomsFromDB])

    lowdb's [JSONFile] adapter writes [JSON.stringify(db.data)] and reads
    with [JSON.parse].  [JValue] is the object graph held in memory: JSON
    data plus [Set] objects. *)

#[warnings="-register-all"]
Inductive JValue :=
| JNull
| JNum (z : Z)
| JStr (s : string)
| JArr (l : list JValue)
| JObj (props : list (string * JValue))
| JSet (s : gset string).

(** [JSON.parse(JSON.stringify(v))]: a [Set] has no enumerable own property
    and is written as the empty object. *)
Fixpoint reload (v : JValue) : JValue :=
  match v with
  | JArr l => JArr (List.map reload l)
  | JObj props => JObj (List.map (λ '(k, x), (k, reload x)) props)
  | JSet _ => JObj []
  | _ => v
  end.

(** [obj[k]] *)
Definition get_prop (v : JValue) (k : string) : option JValue :=
  match v with
  | JObj props => snd <$> List.find (λ kv, bool_decide (kv.1 = k)) props
  | _ => None
  end.

(** [v.has(n)]: [None] stands for the TypeError raised when [v] is not a
    [Set]. *)
Definition js_has (v : JValue) (n : string) : option bool :=
  match v with
  | JSet s => Some (bool_decide (n ∈ s))
  | _ => None
  end.

Definition js_opt {A} (f : A → JValue) (k : string) (o : option A) : list (string * JValue) :=
  match o with Some x => [(k, f x)] | None => [] end.

Definition js_status (s : Status) : JValue :=
  JStr (match s with active => "active" | closed => "closed" | sold => "sold" end)%string.

Definition js_bid (b : Bid) : JValue :=
  JObj [("bidderTeam", JStr (bidderTeam b)); ("amount", JNum (amount b));
        ("timestamp", JNum (timestamp b)); ("bidId", JStr (bidId b))]%string.

Definition js_bidData (bd : BidData) : JValue :=
  JObj ([("playerName", JStr (playerName bd)); ("playerType", JStr (playerType bd))]%string
        ++ match biddingType bd with
           | regular => [("basePrice"%string, from_option JNum JNull (bd_basePrice bd))]
           | blind => []
           end
        ++ [("bids", JArr (js_bid <$> bids bd));
            ("biddingStartTime", JNum (biddingStartTime bd));
            ("status", js_status (status bd));
            ("biddingType", JStr (match biddingType bd with
                                  | regular => "regular" | blind => "blind" end))]%string
        ++ js_opt JNum "lastBidTime" (lastBidTime bd)
        ++ js_opt JNum "closedAt" (closedAt bd)
        ++ js_opt JStr "soldTo" (soldTo bd)
        ++ js_opt JNum "finalPrice" (finalPrice bd)
        ++ js_opt JNum "soldAt" (soldAt bd)).

Definition js_purchased (pp : PurchasedPlayer) : JValue :=
  JObj ([("name", JStr (pp_name pp)); ("team", JStr (pp_team pp)); ("type", JStr (pp_type pp));
         ("basePrice", from_option JNum JNull (pp_basePrice pp));
         ("boughtPrice", JNum (boughtPrice pp)); ("boughtAt", JNum (boughtAt pp))]%string
        ++ js_opt JStr "awardedBy" (awardedBy pp)).

Definition js_team (t : Team) : JValue :=
  JObj [("username", JStr (username t)); ("budget", JNum (budget t));
        ("players", JArr (js_purchased <$> players t))]%string.

Definition js_map {A} (f : A → JValue) (m : gmap string A) : JValue :=
  JObj ((λ kv, (kv.1, f kv.2)) <$> map_to_list m).

Definition js_batchState (bs : BatchState) : JValue :=
  JObj [("currentCycleIndex", JNum (Z.of_nat (currentCycleIndex bs)));
        ("sentPlayers", JSet (sentPlayers bs));
        ("typePointers", js_map (λ p, JNum (Z.of_nat p)) (typePointers bs))]%string.

(** The room object as built by [create-room] and mutated by the handlers. *)
Definition js_room (r : Room) : JValue :=
  JObj [("roomId", JStr (roomId r));
        ("users", js_map js_team (users r));
        ("budgetPerUser", JNum (budgetPerUser r));
        ("createdAt", JNum (createdAt r));
        ("lastActivity", JNum (lastActivity r));
        ("soldPlayers", JSet (soldPlayers r));
        ("currentBids", js_map js_bidData (currentBids r));
        ("blindBids", js_map js_bidData (blindBids r));
        ("batchState", js_batchState (batchState r))]%string.

(** [room.soldPlayers.has(n)] and [room.batchState.sentPlayers.has(n)] on a
    room object. *)
Definition sold_has (room : JValue) (n : string) : option bool :=
  v ← get_prop room "soldPlayers"; js_has v n.

Definition sent_has (room : JValue) (n : string) : option bool :=
  bs ← get_prop room "batchState"; v ← get_prop bs "sentPlayers"; js_has v n.

(** [saveRoomsToDB] followed by [loadRoomsFromDB] at the next start. *)
Definition save_then_load (rooms : gmap string Room) : JValue :=
  reload (js_map js_room rooms).

(** ** Relations used by the verification *)

(** Descending order of keys. *)
Definition desc {A} (key : A → Z) : relation A := λ a b, key b ≤ key a.

(** Every entry point leaves the registry alone, applies one purchase to one
    existing team (marking the player sold), or adds one fresh team. *)
Inductive ledger_change (r r' : Room) : Prop :=
| lc_same :
    users r' = users r → soldPlayers r' = soldPlayers r → ledger_change r r'
| lc_buy k t pp :
    users r !! k = Some t →
    users r' = <[k := buy t pp]> (users r) →
    soldPlayers r' = {[pp_name pp]} ∪ soldPlayers r →
    boughtPrice pp ≤ budget t →
    (length (players t) < MAX_PLAYERS_PER_TEAM)%nat →
    ledger_change r r'
| lc_join k :
    users r !! k = None →
    users r' = <[k := mkTeam k (or_default_budget (Some (budgetPerUser r))) []]> (users r) →
    soldPlayers r' = soldPlayers r →
    ledger_change r r'.

Definition ledger_balanced (r : Room) : Prop :=
  total_budget r + total_spent r = initial_total_budget r.


(** How one entry point may change the session that a table holds for player
    [n]: nothing, an implicit or explicit start, one admitted bid, an
    in-place sort, a resolution without or with a sale, or several of these
    in a row.  [pool] is the catalog searched on creation and [usrs] the
    team registry before the entry point. *)
Inductive session_step (pool : list Player) (usrs : gmap string Team) (bt : BiddingType)
    (n : string) : option BidData → option BidData → Prop :=
| ss_same o : session_step pool usrs bt n o o
| ss_start ty base now :
    is_Some (find_player pool n) →
    session_step pool usrs bt n None (Some (new_session n ty base now bt))
| ss_push bd b now :
    status bd = active →
    is_Some (usrs !! bidderTeam b) →
    match bt with
    | regular => currentHighestBid (bids bd) < amount b
    | blind => ∀ b', b' ∈ bids bd → bidderTeam b' ≠ bidderTeam b
    end →
    session_step pool usrs bt n (Some bd) (Some (push_bid bd b now))
| ss_sort bd :
    (bt = blind → status bd ≠ active) →
    session_step pool usrs bt n (Some bd) (Some (sort_in_place bd))
| ss_close bd now :
    status bd = active →
    session_step pool usrs bt n (Some bd)
      (Some (set_bids (set_closed bd now) (sort_desc amount (bids bd))))
| ss_sold bd w now :
    status bd = active →
    head (sort_desc amount (bids bd)) = Some w →
    session_step pool usrs bt n (Some bd)
      (Some (set_sold (set_bids (set_closed bd now) (sort_desc amount (bids bd))) w now))
| ss_trans o1 o2 o3 :
    session_step pool usrs bt n o1 o2 → session_step pool usrs bt n o2 o3 →
    session_step pool usrs bt n o1 o3.

(** The change of both session tables between two rooms, player by player. *)
Definition regular_step (csv : list Player) (r r' : Room) (n : string) : Prop :=
  session_step csv (users r) regular n (currentBids r !! n) (currentBids r' !! n).

Definition blind_step (csv : list Player) (r r' : Room) (n : string) : Prop :=
  session_step (blindBidPlayers csv) (users r) blind n (blindBids r !! n) (blindBids r' !! n).

Definition sessions_step (csv : list Player) (r r' : Room) : Prop :=
  ∀ n, regular_step csv r r' n ∧ blind_step csv r r' n.

(** The highest bid held by a session of a table ([0] without session, as
    in [place-bid] before the first bid). *)
Definition highest_of (o : option BidData) : Z :=
  from_option (λ bd, currentHighestBid (bids bd)) 0 o.

(** A session is well formed when its player is in the catalog searched at
    resolution and every bidder is a team of the room. *)
Definition session_wf (pool : list Player) (usrs : gmap string Team) (n : string)
    (bd : BidData) : Prop :=
  is_Some (find_player pool n) ∧ ∀ b, b ∈ bids bd → is_Some (usrs !! bidderTeam b).

Definition sessions_wf (csv : list Player) (r : Room) : Prop :=
  (∀ n bd, currentBids r !! n = Some bd → session_wf csv (users r) n bd)
  ∧ (∀ n bd, blindBids r !! n = Some bd → session_wf (blindBidPlayers csv) (users r) n bd).

(** What resolving the active session [bd] of player [n] does to room [r]:
    [r'] is the room and [o'] the session afterwards. *)
Definition resolution_outcome (n : string) (bd : BidData) (r r' : Room)
    (o' : option BidData) : Prop :=
  match head (sort_desc amount (bids bd)) with
  | None =>
      bids bd = [] ∧ users r' = users r ∧ soldPlayers r' = soldPlayers r
      ∧ status <$> o' = Some closed
  | Some w =>
      w ∈ bids bd ∧ (∀ b, b ∈ bids bd → amount b ≤ amount w)
      ∧ ∃ tm, users r !! bidderTeam w = Some tm
        ∧ if decide (amount w ≤ budget tm
                     ∧ (length (players tm) < MAX_PLAYERS_PER_TEAM)%nat)
          then ∃ pp, pp_name pp = n ∧ boughtPrice pp = amount w
                 ∧ users r' = <[bidderTeam w := buy tm pp]> (users r)
                 ∧ soldPlayers r' = {[n]} ∪ soldPlayers r
                 ∧ status <$> o' = Some sold
                 ∧ o' ≫= soldTo = Some (bidderTeam w)
                 ∧ o' ≫= finalPrice = Some (amount w)
          else users r' = users r ∧ soldPlayers r' = soldPlayers r
               ∧ status <$> o' = Some closed
  end.

(** ** A small catalog and rooms for the examples

    Two teams with 1,000,000 each; P is a batsman with base price 50,000 and
    S is in the blind pool. *)

Definition example_catalog : list Player :=
  [mkPlayer "P" "MI" "BAT" (Some 50000); mkPlayer "Q" "MI" "BAT" (Some 30000);
   mkPlayer "R" "CSK" "WK" (Some 5000); mkPlayer "S" "RR" "AR" None]%string.

Definition example_room : Room := newRoom "room" ["A"; "B"]%string (Some 1000000) 0.

(** The room after team A's bid of 100,000 on P, and the session it then
    holds for P. *)
Definition example_after_bid : Room :=
  run example_catalog example_room [(1, OpPlaceBid "P" 100000 "A" "x")]%string.

Definition example_session : BidData :=
  mkBidData "P" "BAT" (Some 50000) [mkBid "A" 100000 1 "x"] 1 active regular (Some 1)
            None None None None.

(** Team A bids 100,000 then team B bids 150,000 on P. *)
Definition scenario_regular : Room :=
  run example_catalog example_room
    [(1, OpPlaceBid "P" 100000 "A" "x"); (2, OpPlaceBid "P" 150000 "B" "y")]%string.

Definition scenario_regular_session : BidData :=
  mkBidData "P" "BAT" (Some 50000) [mkBid "A" 100000 1 "x"; mkBid "B" 150000 2 "y"]
            1 active regular (Some 2) None None None None.

(** Team A then team B bid 200,000 on S in a blind session. *)
Definition scenario_blind_tie : Room :=
  run example_catalog example_room
    [(1, OpPlaceBlindBid "S" 200000 "A" "x"); (2, OpPlaceBlindBid "S" 200000 "B" "y")]%string.


(** A regular session for P started and closed by the operator without bids. *)
Definition example_closed : Room :=
  run example_catalog example_room
    [(1, OpStartBidding "P"); (2, OpCloseBidding "P" "regular")]%string.

(** Team A bids on P, the operator sells P to team B directly, then the
    session is resolved. *)
Definition example_double_sale : Room :=
  run example_catalog example_room
    [(1, OpPlaceBid "P" 100000 "A" "x"); (2, OpSelectPlayer "P" 50000 "B");
     (3, OpCloseBidding "P" "regular")]%string.

(** The blind scenario with a lower sealed bid from team B. *)
Definition scenario_blind_other : Room :=
  run example_catalog example_room
    [(1, OpPlaceBlindBid "S" 200000 "A" "x"); (2, OpPlaceBlindBid "S" 150000 "B" "y")]%string.

(** ** Progress of the batch dispatcher *)

(** [typePointers[ty]] of a batch state. *)
Definition ptr (bs : BatchState) (ty : string) : nat := pointer_of (typePointers bs) ty.

Definition exhausted (csv : list Player) (bs : BatchState) (ty : string) : bool :=
  bool_decide (length (mainAuctionPlayers csv ty) ≤ ptr bs ty)%nat.

(** Players not yet reached by the pointers. *)
Definition remaining (csv : list Player) (bs : BatchState) : nat :=
  sum_list ((λ ty, length (mainAuctionPlayers csv ty) - ptr bs ty)%nat <$> CYCLE_ORDER).

(** The number of consecutive positions of the cycle, from [i] on and among
    [fuel] at most, at which [e] holds. *)
Fixpoint skip_count (e : nat → bool) (i fuel : nat) : nat :=
  match fuel with
  | O => O
  | S fuel' => if e i then S (skip_count e ((i + 1) mod length CYCLE_ORDER) fuel') else O
  end.

Definition dispatch_measure (csv : list Player) (bs : BatchState) : nat :=
  (5 * remaining csv bs
   + skip_count (λ i, exhausted csv bs (cycle_type i)) (currentCycleIndex bs) 4)%nat.

(** The cursor is inside the cycle, no pointer is beyond its list, and no
    player behind a pointer has been dispatched. *)
Definition dispatch_inv (csv : list Player) (bs : BatchState) : Prop :=
  (currentCycleIndex bs < length CYCLE_ORDER)%nat
  ∧ (∀ ty, ty ∈ CYCLE_ORDER → (ptr bs ty ≤ length (mainAuctionPlayers csv ty))%nat)
  ∧ (∀ ty pl, ty ∈ CYCLE_ORDER → pl ∈ drop (ptr bs ty) (mainAuctionPlayers csv ty) →
              name pl ∉ sentPlayers bs).

(** The batches answered by [/next-batch] along a run, the final
    [auctionComplete] answers left out. *)
Fixpoint batches_of (csv : list Player) (r : Room) (evs : list (Z * Op)) : list BatchResponse :=
  match evs with
  | [] => []
  | ev :: evs' =>
      let rest := batches_of csv (step csv r ev).1.1 evs' in
      match ev.2 with
      | OpNextBatch =>
          let b := (nextBatch csv ev.1 r).2 in
          if br_auctionComplete b then rest else b :: rest
      | _ => rest
      end
  end.

(** A batch names a type of the cycle and holds players of that type. *)
Definition batch_typed (b : BatchResponse) : Prop :=
  ∃ ty, ty ∈ CYCLE_ORDER ∧ br_currentType b = Some ty
        ∧ ∀ p, p ∈ br_players b → ap_type p = ty.

(** The dispatcher's invariant together with its history [hist]: the
    batches answered so far serve, for each type, the players in front of
    the pointer. *)
Definition dispatch_history (csv : list Player) (bs : BatchState) (hist : list BatchResponse)
    : Prop :=
  dispatch_inv csv bs
  ∧ (∀ ty, ty ∈ CYCLE_ORDER →
       served_for ty hist
       = to_auction_player <$> take (ptr bs ty) (mainAuctionPlayers csv ty))
  ∧ Forall batch_typed hist.

(** A catalog in which two rows carry the same name, and the rooms the
    dispatcher then cycles through: cursor [i], the name dispatched once and
    the BAT pointer behind the second row. *)
Definition repeated_name_catalog : list Player :=
  [mkPlayer "X" "MI" "BAT" (Some 100); mkPlayer "X" "CSK" "BAT" (Some 50)]%string.

Definition stalled_room (i : nat) : Room :=
  set_lastActivity
    (set_batchState example_room
       (mkBatchState i {["X"%string]}
          (<["BAT"%string := 1%nat]> (typePointers initial_batchState)))) 1.

(** ** Predicates of the ledger and session invariants *)

(** A team of a room whose per-team budget is [bpu]: the roster is within
    the cap, and the balance is not below zero (or below [bpu], should that
    be negative). *)
Definition team_ok (bpu : Z) (t : Team) : Prop :=
  (length (players t) ≤ MAX_PLAYERS_PER_TEAM)%nat
  ∧ Z.min 0 bpu ≤ budget t.

(** Some roster of the room holds a record for the name [n]. *)
Definition on_roster (r : Room) (n : string) : Prop :=
  ∃ k t pp, users r !! k = Some t ∧ pp ∈ players t ∧ pp_name pp = n.

(** The session table and the timeout of a bidding type. *)
Definition table_of (bt : BiddingType) (r : Room) : gmap string BidData :=
  match bt with regular => currentBids r | blind => blindBids r end.

Definition timeout_of (bt : BiddingType) : Z :=
  match bt with regular => BIDDING_TIMEOUT | blind => BLIND_BID_TIMEOUT end.

(** What the fields of a session stored under key [n] of the table of type
    [bt] record: its key and type, the closing and sale stamps that go with
    its status, and the shape of its bid array (open bids of pairwise
    distinct positive amounts, sealed bids of pairwise distinct teams). *)
Definition session_ok (bt : BiddingType) (n : string) (bd : BidData) : Prop :=
  playerName bd = n ∧ biddingType bd = bt
  ∧ match status bd with
    | active =>
        closedAt bd = None ∧ soldTo bd = None ∧ finalPrice bd = None ∧ soldAt bd = None
    | closed =>
        is_Some (closedAt bd) ∧ soldTo bd = None ∧ finalPrice bd = None ∧ soldAt bd = None
        ∧ StronglySorted (desc amount) (bids bd)
    | sold =>
        is_Some (closedAt bd) ∧ is_Some (soldAt bd)
        ∧ StronglySorted (desc amount) (bids bd)
        ∧ ∃ w, head (bids bd) = Some w ∧ soldTo bd = Some (bidderTeam w)
               ∧ finalPrice bd = Some (amount w)
    end
  ∧ match bt with
    | regular => NoDup (amount <$> bids bd) ∧ Forall (λ b, 0 < amount b) (bids bd)
    | blind => NoDup (bidderTeam <$> bids bd)
    end.

Definition sessions_ok (r : Room) : Prop :=
  ∀ bt, map_Forall (session_ok bt) (table_of bt r).

(** The sale a sold session of player [n] reports is in the ledger: the
    name is marked sold and the roster of the team named by [soldTo] holds a
    record for [n] at the session's [finalPrice]. *)
Definition sale_recorded (r : Room) (n : string) (bd : BidData) : Prop :=
  n ∈ soldPlayers r
  ∧ ∃ k t pp, soldTo bd = Some k ∧ users r !! k = Some t ∧ pp ∈ players t
              ∧ pp_name pp = n ∧ finalPrice bd = Some (boughtPrice pp).

(** A session that is sold after an entry point either was sold before, with
    the same buyer and price, or its sale has just been recorded. *)
Definition sold_step (r r' : Room) : Prop :=
  ∀ bt n bd', table_of bt r' !! n = Some bd' → status bd' = sold →
    (∃ bd, table_of bt r !! n = Some bd ∧ status bd = sold
           ∧ soldTo bd = soldTo bd' ∧ finalPrice bd = finalPrice bd')
    ∨ sale_recorded r' n bd'.

(** ** Housekeeping of the room registry ([cleanupInactiveRooms]) *)

Definition ROOM_INACTIVE_TIMEOUT : Z := 60 * 60 * 1000.

(** The [forEach] over [Object.keys(rooms)] deletes from the registry it
    iterates; [cleanedCount] decides whether the registry is saved.
    [lastActivity] is set by [create-room], so the [|| room.createdAt]
    fallback is not taken. *)
Definition cleanupInactiveRooms (now : Z) (rooms : gmap string Room)
    : gmap string Room * list Effect :=
  let '(rooms', cleanedCount) :=
    foldl (λ '(m, c) roomID,
             match m !! roomID with
             | Some room =>
                 if decide (ROOM_INACTIVE_TIMEOUT < now - lastActivity room)
                 then (delete roomID m, S c) else (m, c)
             | None => (m, c)
             end)
          (rooms, 0%nat) (map_to_list rooms).*1 in
  (rooms', if decide (0 < cleanedCount)%nat then [SaveRooms] else []).

(** What the sweep at clock reading [now] does with one room. *)
Definition keep_room (now : Z) (room : Room) : option Room :=
  if decide (ROOM_INACTIVE_TIMEOUT < now - lastActivity room) then None else Some room.

(** JSON values that hold no [Set] object. *)
Fixpoint set_free (v : JValue) : bool :=
  match v with
  | JArr l => forallb set_free l
  | JObj props => forallb (λ kv, set_free kv.2) props
  | JSet _ => false
  | _ => true
  end.

(** ** Room summaries ([GET /room-state], [GET /room-data]) *)

(** An element of [users] in the [/room-state] response. *)
Record UserState := mkUserState {
  us_username : string;
  us_budget : Z;
  us_spentAmount : Z;
  us_players : list PurchasedPlayer;
  us_playerCount : nat;
  us_canBuyMore : bool
}.

Inductive AuctionPhase := main_auction | completed.

Record RoomState := mkRoomState {
  rs_roomId : string;
  rs_users : gmap string UserState;
  rs_currentType : string;
  rs_nextType : string;
  rs_remainingPlayers : Z;
  rs_totalPlayersSent : nat;
  rs_blindBidPlayersCount : nat;
  rs_mainAuctionPlayersCount : nat;
  rs_soldPlayersCount : nat;
  rs_auctionPhase : AuctionPhase
}.

(** [Object.values(mainAuctionPlayers).flat()] is [priced_catalog]: the
    table's keys are in the order of [CYCLE_ORDER].  The array built from
    [Object.keys(room.users)] is given as a map from the user name, its
    order left out; [Object.keys] does not list a team that is the prototype
    of [users].  [spentAmount] is a subtraction of doubles; the count
    [remainingPlayers] subtracts two array lengths, which is exact.  The
    handler ends with [updateRoomActivity]. *)
Definition roomState (csvPlayers : list Player) (now : Z) (r : Room) : Room * RoomState :=
  let bs := batchState r in
  let totalMainAuctionPlayers := length (priced_catalog csvPlayers) in
  let remainingPlayers :=
    Z.of_nat totalMainAuctionPlayers - Z.of_nat (size (sentPlayers bs)) in
  (set_lastActivity r now,
   mkRoomState (roomId r)
     (map_imap (λ k t, Some (mkUserState k (budget t) (js_sub (budgetPerUser r) (budget t))
                                         (players t) (length (players t))
                                         (bool_decide (length (players t)
                                                       < MAX_PLAYERS_PER_TEAM)%nat)))
               (delete "__proto__"%string (users r)))
     (cycle_type (currentCycleIndex bs))
     (cycle_type ((currentCycleIndex bs + 1) mod length CYCLE_ORDER))
     remainingPlayers (size (sentPlayers bs)) (length (blindBidPlayers csvPlayers))
     totalMainAuctionPlayers (size (soldPlayers r))
     (if decide (0 < remainingPlayers) then main_auction else completed)).

Record RoomData := mkRoomData {
  rd_roomID : string;
  rd_users : list Team;
  rd_budgetPerUser : Z;
  rd_soldPlayersCount : nat;
  rd_activeBidsCount : nat;
  rd_activeBlindBidsCount : nat;
  rd_createdAt : Z;
  rd_lastActivity : Z
}.

(** The two counts filter [Object.keys] of a session table by the status of
    the session under the key. *)
Definition roomData (now : Z) (r : Room) : Room * RoomData :=
  (set_lastActivity r now,
   mkRoomData (roomId r) (map_to_list (users r)).*2
     (or_default_budget (Some (budgetPerUser r))) (size (soldPlayers r))
     (length (List.filter (λ kv, is_active kv.2) (map_to_list (currentBids r))))
     (length (List.filter (λ kv, is_active kv.2) (map_to_list (blindBids r))))
     (createdAt r) (lastActivity r)).

(** ** Amounts, their sources and the exact ledger *)

(** The amount a request carries, if any. *)
Definition op_amount (op : Op) : option Z :=
  match op with
  | OpSelectPlayer _ p _ => Some p
  | OpPlaceBid _ a _ _ => Some a
  | OpPlaceBlindBid _ a _ _ => Some a
  | _ => None
  end.

Definition amounts_nonneg (ev : Z * Op) : Prop :=
  from_option (λ a, 0 ≤ a) True (op_amount ev.2).

(** Where the price of a purchase made by the entry point [ev] in room [r]
    comes from: the request itself, or a bid held by a session of [r]. *)
Definition price_known (r : Room) (ev : Z * Op) (p : Z) : Prop :=
  op_amount ev.2 = Some p
  ∨ ∃ bt n bd b, table_of bt r !! n = Some bd ∧ b ∈ bids bd ∧ amount b = p.

(** [ledger_change] with the source of the price. *)
Definition purchase_step (r : Room) (ev : Z * Op) (r' : Room) : Prop :=
  (users r' = users r ∧ soldPlayers r' = soldPlayers r)
  ∨ (∃ k t pp,
       users r !! k = Some t ∧ users r' = <[k := buy t pp]> (users r)
       ∧ soldPlayers r' = {[pp_name pp]} ∪ soldPlayers r
       ∧ boughtPrice pp ≤ budget t ∧ price_known r ev (boughtPrice pp))
  ∨ (∃ k, users r !! k = None
          ∧ users r' = <[k := mkTeam k (or_default_budget (Some (budgetPerUser r))) []]> (users r)
          ∧ soldPlayers r' = soldPlayers r).

(** Every bid held after an entry point was held before or carries the
    amount of the request. *)
Definition bid_origin (r : Room) (ev : Z * Op) (r' : Room) : Prop :=
  ∀ bt n bd' b, table_of bt r' !! n = Some bd' → b ∈ bids bd' →
    (∃ bd, table_of bt r !! n = Some bd ∧ b ∈ bids bd) ∨ op_amount ev.2 = Some (amount b).

(** The ledger of a room in which every balance computation has been exact:
    no balance is below 0 (or below the per-team budget, should that be
    negative), balances add up with the prices paid, themselves
    non-negative, to the per-team budget; and no session holds a negative
    bid. *)
Definition exact_ledger (r : Room) : Prop :=
  map_Forall (λ _ t, Z.min 0 (budgetPerUser r) ≤ budget t
                     ∧ budget t + spent t = budgetPerUser r
                     ∧ Forall (λ pp, 0 ≤ boughtPrice pp) (players t)) (users r)
  ∧ ∀ bt, map_Forall (λ _ bd, Forall (λ b, 0 ≤ amount b) (bids bd)) (table_of bt r).

(** What one entry point does to the registry, field by field: nothing, or
    one team debited by exactly the price of the record appended to its
    roster, the player marked sold, or one team added with the full budget
    and an empty roster. *)
Definition ledger_effect (r r' : Room) : Prop :=
  (users r' = users r ∧ soldPlayers r' = soldPlayers r)
  ∨ (∃ k t t' pp,
       users r !! k = Some t ∧ users r' = <[k := t']> (users r)
       ∧ username t' = username t
       ∧ budget t' = budget t - boughtPrice pp
       ∧ players t' = players t ++ [pp]
       ∧ soldPlayers r' = {[pp_name pp]} ∪ soldPlayers r)
  ∨ (∃ k, users r !! k = None
          ∧ users r' = <[k := mkTeam k (budgetPerUser r) []]> (users r)
          ∧ soldPlayers r' = soldPlayers r).

(** [resolution_outcome] field by field: what resolving the active session
    [bd] of player [n] does to room [r].  On a sale the winner's entry of
    the registry is replaced by a team [tm'] of the same name whose budget
    is the old budget less the winning amount (as the server's subtraction
    of doubles gives it, which is the exact difference up to 2^53) and whose
    roster is the old roster followed by one record [pp] for [n] at that
    amount. *)
Definition resolution_effect (n : string) (bd : BidData) (r r' : Room)
    (o' : option BidData) : Prop :=
  match head (sort_desc amount (bids bd)) with
  | None =>
      bids bd = [] ∧ users r' = users r ∧ soldPlayers r' = soldPlayers r
      ∧ status <$> o' = Some closed
  | Some w =>
      w ∈ bids bd ∧ (∀ b, b ∈ bids bd → amount b ≤ amount w)
      ∧ ∃ tm, users r !! bidderTeam w = Some tm
        ∧ if decide (amount w ≤ budget tm
                     ∧ (length (players tm) < MAX_PLAYERS_PER_TEAM)%nat)
          then ∃ tm' pp,
                 users r' = <[bidderTeam w := tm']> (users r)
                 ∧ username tm' = username tm
                 ∧ budget tm' = js_sub (budget tm) (amount w)
                 ∧ (budget tm - amount w ≤ exact_limit →
                    budget tm' = budget tm - amount w)
                 ∧ players tm' = players tm ++ [pp]
                 ∧ pp_name pp = n ∧ boughtPrice pp = amount w
                 ∧ soldPlayers r' = {[n]} ∪ soldPlayers r
                 ∧ status <$> o' = Some sold
                 ∧ o' ≫= soldTo = Some (bidderTeam w)
                 ∧ o' ≫= finalPrice = Some (amount w)
          else users r' = users r ∧ soldPlayers r' = soldPlayers r
               ∧ status <$> o' = Some closed
  end.

(** * Verification *)

(** ** Sums over the team registry *)

Section sum_teams.
Variable f : Team → Z.

Lemma sum_teams_empty : sum_teams f ∅ = 0.
Proof. unfold sum_teams. by rewrite map_fold_empty. Qed.

Lemma sum_teams_insert_fresh (m : gmap string Team) k t :
  m !! k = None → sum_teams f (<[k := t]> m) = f t + sum_teams f m.
Proof.
  intros Hk. unfold sum_teams.
  rewrite map_fold_insert_L; [done| |done].
  intros. lia.
Qed.

Lemma sum_teams_delete (m : gmap string Team) k t :
  m !! k = Some t → sum_teams f m = f t + sum_teams f (delete k m).
Proof.
  intros Hk. unfold sum_teams.
  rewrite (map_fold_delete_L _ _ k t m); [done| |done].
  intros. lia.
Qed.

Lemma sum_teams_insert_update (m : gmap string Team) k t t' :
  m !! k = Some t → sum_teams f (<[k := t']> m) = sum_teams f m - f t + f t'.
Proof.
  intros Hk. rewrite <- insert_delete_eq.
  rewrite sum_teams_insert_fresh by apply lookup_delete_eq.
  rewrite (sum_teams_delete m k t Hk). lia.
Qed.
End sum_teams.

(** ** The subtraction of doubles on integers *)

Lemma round53_exact z : Z.abs z ≤ exact_limit → round53 z = z.
Proof. intros H. unfold round53. cbv zeta. by rewrite (Zle_imp_le_bool _ _ H). Qed.

Lemma round53_nonneg z : 0 ≤ z → 0 ≤ round53 z.
Proof.
  intros Hz. unfold round53. cbv zeta. destruct (Z.abs z <=? exact_limit); [done|].
  apply Z.mul_nonneg_nonneg; [by apply Z.sgn_nonneg|].
  assert (0 ≤ Z.abs z / 2 ^ (Z.log2 (Z.abs z) - 52)) as Hq.
  { apply Z_div_nonneg_nonneg; [lia|]. apply Z.pow_nonneg. lia. }
  apply Z.mul_nonneg_nonneg; [|apply Z.pow_nonneg; lia].
  destruct (_ || _); lia.
Qed.

Lemma js_sub_exact a b : Z.abs (a - b) ≤ exact_limit → js_sub a b = a - b.
Proof. apply round53_exact. Qed.

Lemma js_sub_nonneg a b : b ≤ a → 0 ≤ js_sub a b.
Proof. intros H. apply round53_nonneg. lia. Qed.

Lemma spent_buy t pp : spent (buy t pp) = spent t + boughtPrice pp.
Proof.
  unfold spent, buy; simpl. induction (players t) as [|q l IH]; simpl; lia.
Qed.

(** ** How one entry point changes the ledger *)

Lemma resolve_regular_ledger csv now r n :
  ledger_change r (autoAwardPlayer csv now r n).1.
Proof.
  unfold autoAwardPlayer, resolve.
  repeat case_match; simpl; try (by apply lc_same).
  destruct_and!. eapply lc_buy; eauto; simpl; lia.
Qed.

Lemma resolve_blind_ledger csv now r n :
  ledger_change r (autoAwardBlindBidPlayer csv now r n).1.
Proof.
  unfold autoAwardBlindBidPlayer, resolve.
  repeat case_match; simpl; try (by apply lc_same).
  destruct_and!. eapply lc_buy; eauto; simpl; lia.
Qed.

Lemma timerRegular_ledger csv now r n : ledger_change r (timerRegular csv now r n).1.
Proof.
  unfold timerRegular. pose proof (resolve_regular_ledger csv now r n).
  repeat case_match; simplify_eq/=; try (by apply lc_same); done.
Qed.

Lemma timerBlind_ledger csv now r n : ledger_change r (timerBlind csv now r n).1.
Proof.
  unfold timerBlind. pose proof (resolve_blind_ledger csv now r n).
  repeat case_match; simplify_eq/=; try (by apply lc_same); done.
Qed.

Lemma ledger_change_same_fields r1 r2 r3 :
  ledger_change r1 r2 → users r3 = users r2 → soldPlayers r3 = soldPlayers r2 →
  ledger_change r1 r3.
Proof.
  intros H Hu Hs. destruct H.
  - apply lc_same; congruence.
  - eapply lc_buy; eauto; congruence.
  - eapply lc_join; eauto; congruence.
Qed.

Lemma close_response_fields bt r table set_table n :
  (∀ r m, users (set_table r m) = users r ∧ soldPlayers (set_table r m) = soldPlayers r
          ∧ budgetPerUser (set_table r m) = budgetPerUser r) →
  let r' := (close_response bt r table set_table n).1 in
  users r' = users r ∧ soldPlayers r' = soldPlayers r ∧ budgetPerUser r' = budgetPerUser r.
Proof.
  intros H. unfold close_response. case_match; simpl; [apply H|done].
Qed.

Lemma step_budgetPerUser csv r ev : budgetPerUser (step csv r ev).1.1 = budgetPerUser r.
Proof.
  destruct ev as [now op]; destruct op; unfold step; simpl;
    unfold selectPlayer, nextBatch, placeBid, placeBlindBid, startBidding, startBlindBidding,
      closeBidding, timerRegular, timerBlind, autoAwardPlayer, autoAwardBlindBidPlayer,
      resolve, close_response, playerBids, blindBidsQuery, roomBids, biddingHistory, joinRoom;
    repeat (case_match; simplify_eq/=); done.
Qed.

Lemma step_ledger csv r ev : ledger_change r (step csv r ev).1.1.
Proof.
  destruct ev as [now op]; destruct op; unfold step; simpl.
  - unfold selectPlayer. repeat case_match; simpl; try (by apply lc_same).
    eapply lc_buy; eauto; simpl; lia.
  - unfold nextBatch. repeat (case_match; simplify_eq/=); by apply lc_same.
  - unfold placeBid. repeat (case_match; simplify_eq/=); by apply lc_same.
  - unfold placeBlindBid. repeat (case_match; simplify_eq/=); by apply lc_same.
  - unfold startBidding. repeat (case_match; simplify_eq/=); by apply lc_same.
  - unfold startBlindBidding. repeat (case_match; simplify_eq/=); by apply lc_same.
  - unfold closeBidding.
    repeat case_decide; try (by apply lc_same).
    + destruct (currentBids r !! playerName0) as [bd|]; [|by apply lc_same].
      case_decide; [by apply lc_same|].
      pose proof (resolve_regular_ledger csv now r playerName0) as Hl.
      destruct (autoAwardPlayer csv now r playerName0) as [r1 eff]; simpl in *.
      pose proof (close_response_fields regular r1 (currentBids r1) set_currentBids playerName0) as Hl'.
      destruct (close_response regular r1 (currentBids r1) set_currentBids playerName0) as [r2 resp].
      simpl in *. destruct Hl' as (?&?&?); [done|]. by eapply ledger_change_same_fields.
    + destruct (blindBids r !! playerName0) as [bd|]; [|by apply lc_same].
      case_decide; [by apply lc_same|].
      pose proof (resolve_blind_ledger csv now r playerName0) as Hl.
      destruct (autoAwardBlindBidPlayer csv now r playerName0) as [r1 eff]; simpl in *.
      pose proof (close_response_fields blind r1 (blindBids r1) set_blindBids playerName0) as Hl'.
      destruct (close_response blind r1 (blindBids r1) set_blindBids playerName0) as [r2 resp].
      simpl in *. destruct Hl' as (?&?&?); [done|]. by eapply ledger_change_same_fields.
  - pose proof (timerRegular_ledger csv now r playerName0).
    by destruct (timerRegular csv now r playerName0).
  - pose proof (timerBlind_ledger csv now r playerName0).
    by destruct (timerBlind csv now r playerName0).
  - unfold playerBids. repeat (case_match; simplify_eq/=); by apply lc_same.
  - unfold blindBidsQuery. repeat (case_match; simplify_eq/=); by apply lc_same.
  - by apply lc_same.
  - by apply lc_same.
  - unfold joinRoom. case_match eqn:E; simpl; [by apply lc_same|].
    case_match; simpl; [by apply lc_same|by eapply lc_join].
Qed.

(** ** Reachable rooms *)

Lemma run_snoc csv r evs ev : run csv r (evs ++ [ev]) = (step csv (run csv r evs) ev).1.1.
Proof. unfold run. by rewrite foldl_app. Qed.

Lemma reachable_run csv rid usernames b now evs :
  reachable csv (run csv (newRoom rid usernames b now) evs).
Proof.
  induction evs as [|ev evs IH] using rev_ind.
  - apply reachable_new.
  - rewrite run_snoc. by apply reachable_step.
Qed.

Lemma reachable_run_from csv r evs : reachable csv r → reachable csv (run csv r evs).
Proof.
  intros Hr. induction evs as [|ev evs IH] using rev_ind; [done|].
  rewrite run_snoc. by apply reachable_step.
Qed.

(** ** The ledger of a new room *)

Lemma sum_teams_const f c (m : gmap string Team) :
  (∀ k t, m !! k = Some t → f t = c) → sum_teams f m = Z.of_nat (size m) * c.
Proof.
  induction m as [|k t m Hk IH] using map_ind; intros Hc.
  - rewrite sum_teams_empty, map_size_empty. lia.
  - rewrite sum_teams_insert_fresh, map_size_insert_None by done.
    rewrite (Hc k t) by apply lookup_insert_eq.
    rewrite IH; [lia|].
    intros k' t' Hk'. apply (Hc k'). rewrite lookup_insert_ne; [done|]. intros ?; simplify_eq.
Qed.

Lemma newRoom_users_fresh rid usernames b now k t :
  users (newRoom rid usernames b now) !! k = Some t →
  budget t = or_default_budget b ∧ players t = [].
Proof.
  unfold newRoom; simpl.
  assert (Hgen : ∀ (m : gmap string Team),
    (∀ k t, m !! k = Some t → budget t = or_default_budget b ∧ players t = []) →
    ∀ k t, foldl (λ m u, <[u := mkTeam u (or_default_budget b) []]> m) m usernames !! k = Some t →
           budget t = or_default_budget b ∧ players t = []).
  { induction usernames as [|u us IH]; intros m Hm k' t'; simpl; [apply Hm|].
    apply IH. intros k'' t''. rewrite lookup_insert. case_decide; [|apply Hm].
    by intros [= <-]. }
  apply Hgen. intros ??. by rewrite lookup_empty.
Qed.

Lemma newRoom_balanced rid usernames b now : ledger_balanced (newRoom rid usernames b now).
Proof.
  unfold ledger_balanced, total_budget, total_spent, initial_total_budget.
  rewrite (sum_teams_const budget (or_default_budget b)).
  - rewrite (sum_teams_const spent 0); [simpl; lia|].
    intros k t Ht. apply newRoom_users_fresh in Ht as [_ Hp]. unfold spent. by rewrite Hp.
  - intros k t Ht. by apply newRoom_users_fresh in Ht as [Hb _].
Qed.

Lemma or_default_budget_nonzero b : or_default_budget b ≠ 0.
Proof. unfold or_default_budget, DEFAULT_BUDGET. repeat case_match; lia. Qed.

Lemma reachable_budgetPerUser csv r : reachable csv r → budgetPerUser r ≠ 0.
Proof.
  induction 1 as [|r ev Hr IH]; simpl; [apply or_default_budget_nonzero|].
  by rewrite step_budgetPerUser.
Qed.

Lemma spent_fresh k b : spent (mkTeam k b []) = 0.
Proof. done. Qed.

(** ** The stable descending sort *)

Section sort_desc.
Context {A : Type} (key : A → Z).

Lemma insert_desc_perm x l : insert_desc key x l ≡ₚ x :: l.
Proof.
  induction l as [|y l IH]; simpl; [done|].
  case_match; [|done]. rewrite IH. apply Permutation_swap.
Qed.

Lemma sort_desc_perm l : sort_desc key l ≡ₚ l.
Proof.
  induction l as [|x l IH]; simpl; [done|].
  by rewrite insert_desc_perm, IH.
Qed.

Lemma sort_desc_length l : length (sort_desc key l) = length l.
Proof. by rewrite sort_desc_perm. Qed.

Lemma sort_desc_elem_of x l : x ∈ sort_desc key l ↔ x ∈ l.
Proof. by rewrite sort_desc_perm. Qed.

Lemma sort_desc_nil_inv l : sort_desc key l = [] → l = [].
Proof.
  intros H. apply Permutation_nil_r. rewrite <- H. by rewrite sort_desc_perm.
Qed.

Lemma insert_desc_sorted x l :
  StronglySorted (desc key) l → StronglySorted (desc key) (insert_desc key x l).
Proof.
  induction 1 as [|y l Hl IH Hy]; simpl.
  - repeat constructor.
  - case_match eqn:E.
    + apply Z.ltb_lt in E. constructor; [done|].
      rewrite Forall_forall. intros z Hz.
      rewrite insert_desc_perm in Hz. apply elem_of_cons in Hz as [->|Hz].
      * unfold desc. lia.
      * by apply (proj1 (Forall_forall _ _) Hy).
    + apply Z.ltb_ge in E. constructor; [by constructor|].
      constructor; [done|].
      eapply Forall_impl; [done|]. unfold desc. simpl. intros; lia.
Qed.

Lemma sort_desc_sorted l : StronglySorted (desc key) (sort_desc key l).
Proof.
  induction l; simpl; [constructor|by apply insert_desc_sorted].
Qed.

(** The first element after sorting carries the greatest key. *)
Lemma sort_desc_head_max l w :
  head (sort_desc key l) = Some w → w ∈ l ∧ ∀ b, b ∈ l → key b ≤ key w.
Proof.
  intros Hw. pose proof (sort_desc_sorted l) as Hs.
  destruct (sort_desc key l) as [|w' s] eqn:E; simplify_eq/=.
  split.
  - rewrite <- sort_desc_elem_of, E. by left.
  - intros b Hb. rewrite <- sort_desc_elem_of, E in Hb.
    apply elem_of_cons in Hb as [->|Hb]; [done|].
    apply StronglySorted_inv in Hs as [_ Hall].
    by apply (proj1 (Forall_forall _ _) Hall).
Qed.


(** Sorting an array that is already in descending order changes nothing. *)
Lemma sort_desc_sorted_id l : StronglySorted (desc key) l → sort_desc key l = l.
Proof.
  induction 1 as [|x l Hl IH Hx]; simpl; [done|].
  rewrite IH. destruct l as [|y l']; simpl; [done|].
  apply Forall_cons in Hx as [Hy _]. unfold desc in Hy.
  by rewrite (proj2 (Z.ltb_ge _ _)).
Qed.

Lemma sort_desc_idem l : sort_desc key (sort_desc key l) = sort_desc key l.
Proof. apply sort_desc_sorted_id, sort_desc_sorted. Qed.
End sort_desc.

(** ** [Math.max] over the bids *)

Lemma foldr_max_init (l : list Bid) x y :
  Z.max y (foldr (λ b' m, Z.max (amount b') m) x l)
  = Z.max x (foldr (λ b' m, Z.max (amount b') m) y l).
Proof.
  revert x y. induction l as [|a l IH]; intros x y; simpl; [lia|].
  specialize (IH x y). lia.
Qed.

Lemma currentHighestBid_cons b l :
  currentHighestBid (b :: l)
  = match l with [] => amount b | _ => Z.max (amount b) (currentHighestBid l) end.
Proof.
  destruct l as [|c l]; [done|]. simpl. apply foldr_max_init.
Qed.

Lemma currentHighestBid_ge l b : b ∈ l → amount b ≤ currentHighestBid l.
Proof.
  induction l as [|c l IH]; [by intros ?%elem_of_nil|].
  rewrite currentHighestBid_cons. intros [->|Hb]%elem_of_cons.
  - destruct l; lia.
  - destruct l; [by apply elem_of_nil in Hb|]. specialize (IH Hb). lia.
Qed.

Lemma currentHighestBid_elem l : l ≠ [] → ∃ b, b ∈ l ∧ amount b = currentHighestBid l.
Proof.
  induction l as [|c l IH]; [done|]. intros _.
  rewrite currentHighestBid_cons. destruct l as [|d l].
  - exists c. split; [by left|done].
  - destruct IH as (b & Hb & Hm); [done|].
    destruct (Z.max_spec (amount c) (currentHighestBid (d :: l))) as [[? ->]|[? ->]].
    + exists b. split; [by right|done].
    + exists c. split; [by left|done].
Qed.

Lemma currentHighestBid_perm_le l l' :
  l ≡ₚ l' → currentHighestBid l ≤ currentHighestBid l'.
Proof.
  intros Hp. destruct l as [|c l].
  { apply Permutation_nil_l in Hp. by subst. }
  destruct (currentHighestBid_elem (c :: l)) as (b & Hb & <-); [done|].
  rewrite Hp in Hb. by apply currentHighestBid_ge.
Qed.

Lemma currentHighestBid_perm l l' : l ≡ₚ l' → currentHighestBid l = currentHighestBid l'.
Proof.
  intros Hp. apply Z.le_antisymm; by apply currentHighestBid_perm_le.
Qed.

Lemma currentHighestBid_snoc l b :
  currentHighestBid l < amount b → currentHighestBid (l ++ [b]) = amount b.
Proof.
  intros Hlt. destruct (currentHighestBid_elem (l ++ [b])) as (c & Hc & E).
  { by destruct l. }
  apply elem_of_app in Hc as [Hc|Hc%list_elem_of_singleton]; [|by subst].
  apply currentHighestBid_ge in Hc.
  assert (amount b ≤ currentHighestBid (l ++ [b])).
  { apply currentHighestBid_ge. apply elem_of_app. right. by left. }
  lia.
Qed.

(** ** How one entry point changes the session tables *)

Lemma find_player_weaken csv n p :
  List.find (λ p, bool_decide (name p = n ∧ basePrice p ≠ None)) csv = Some p →
  is_Some (find_player csv n).
Proof.
  intros H. apply find_some in H as [Hin Hp].
  apply bool_decide_eq_true in Hp as [Hn _].
  unfold find_player. destruct (List.find _ csv) eqn:E; [done|].
  eapply find_none in E; [|done]. simpl in E. by rewrite bool_decide_eq_true_2 in E.
Qed.

Lemma find_bidder_none (l : list Bid) t :
  List.find (λ b, bool_decide (bidderTeam b = t)) l = None →
  ∀ b, b ∈ l → bidderTeam b ≠ t.
Proof.
  intros H b Hb E. apply list_elem_of_In in Hb.
  eapply find_none in H; [|done]. simpl in H. by rewrite bool_decide_eq_true_2 in H.
Qed.

Ltac table_step :=
  repeat first
    [ progress (simpl in *; simplify_eq)
    | rewrite lookup_insert_eq in *
    | match goal with
      | |- context [ <[?k := _]> _ !! ?n ] =>
          destruct (decide (k = n)) as [->|?];
          [rewrite lookup_insert_eq | rewrite lookup_insert_ne by done]
      end
    | case_match ].

Lemma not_not_active s : ¬ s ≠ active → s = active.
Proof. destruct s; naive_solver. Qed.

Ltac push_side :=
  simpl; first [lia | by eauto using find_bidder_none | by intros ? ?%elem_of_nil].

Ltac session_tac :=
  try apply ss_same;
  try (match goal with H : _ !! _ = _ |- _ => rewrite H; apply ss_same end);
  try (match goal with H : _ !! _ = _ |- _ => rewrite H end);
  try (apply ss_start; by eauto using find_player_weaken);
  try (apply ss_push; [by eauto using not_not_active|by eauto|push_side]);
  try (eapply ss_trans; [apply ss_start; by eauto|
         apply ss_push; [done|by eauto|push_side]]);
  try (apply ss_sort; by eauto);
  try (apply ss_close; by eauto using not_not_active);
  try (eapply ss_sold; by eauto using not_not_active);
  try (eapply ss_trans; [apply ss_close; by eauto using not_not_active|apply ss_sort; by simpl]);
  try (eapply ss_trans; [eapply ss_sold; by eauto using not_not_active|apply ss_sort; by simpl]).

Section sessions.
Variable csv : list Player.

Lemma sessions_step_refl r : sessions_step csv r r.
Proof. intros ?; split; apply ss_same. Qed.

Lemma selectPlayer_sessions now r p a t :
  sessions_step csv r (selectPlayer csv now r p a t).1.1.
Proof.
  intros n. unfold regular_step, blind_step, selectPlayer.
  split; table_step; session_tac.
Qed.

Lemma nextBatch_sessions now r :
  sessions_step csv r (nextBatch csv now r).1.
Proof.
  intros n. unfold regular_step, blind_step, nextBatch.
  split; table_step; session_tac.
Qed.

Lemma placeBid_sessions now r p a t rnd :
  sessions_step csv r (placeBid csv now r p a t rnd).1.1.
Proof.
  intros n. unfold regular_step, blind_step, placeBid.
  split; table_step; session_tac.
Qed.

Lemma placeBlindBid_sessions now r p a t rnd :
  sessions_step csv r (placeBlindBid csv now r p a t rnd).1.1.
Proof.
  intros n. unfold regular_step, blind_step, placeBlindBid.
  split; table_step; session_tac.
Qed.

Lemma startBidding_sessions now r p :
  sessions_step csv r (startBidding csv now r p).1.1.
Proof.
  intros n. unfold regular_step, blind_step, startBidding.
  split; table_step; session_tac.
Qed.

Lemma startBlindBidding_sessions now r p :
  sessions_step csv r (startBlindBidding csv now r p).1.1.
Proof.
  intros n. unfold regular_step, blind_step, startBlindBidding.
  split; table_step; session_tac.
Qed.

Lemma autoAwardPlayer_sessions now r p :
  sessions_step csv r (autoAwardPlayer csv now r p).1.
Proof.
  intros n. unfold regular_step, blind_step, autoAwardPlayer, resolve.
  split; table_step; session_tac.
Qed.

Lemma autoAwardBlindBidPlayer_sessions now r p :
  sessions_step csv r (autoAwardBlindBidPlayer csv now r p).1.
Proof.
  intros n. unfold regular_step, blind_step, autoAwardBlindBidPlayer, resolve.
  split; table_step; session_tac.
Qed.

Lemma timerRegular_sessions now r p :
  sessions_step csv r (timerRegular csv now r p).1.
Proof.
  unfold timerRegular.
  repeat case_match; simpl; first [apply autoAwardPlayer_sessions|apply sessions_step_refl].
Qed.

Lemma timerBlind_sessions now r p :
  sessions_step csv r (timerBlind csv now r p).1.
Proof.
  unfold timerBlind.
  repeat case_match; simpl;
    first [apply autoAwardBlindBidPlayer_sessions|apply sessions_step_refl].
Qed.

Lemma closeBidding_sessions now r p bt :
  sessions_step csv r (closeBidding csv now r p bt).1.1.
Proof.
  intros n. unfold regular_step, blind_step, closeBidding, autoAwardPlayer,
    autoAwardBlindBidPlayer, resolve, close_response.
  split; table_step; session_tac.
Qed.

Lemma playerBids_sessions now r p :
  sessions_step csv r (playerBids now r p).1.
Proof.
  intros n. unfold regular_step, blind_step, playerBids.
  split; table_step; session_tac.
Qed.

Lemma blindBidsQuery_sessions now r p :
  sessions_step csv r (blindBidsQuery now r p).1.
Proof.
  intros n. unfold regular_step, blind_step, blindBidsQuery.
  split; table_step; session_tac.
Qed.

Lemma roomBids_sessions now r :
  sessions_step csv r (roomBids now r).1.
Proof.
  intros n. unfold regular_step, blind_step, roomBids. simpl. split; [|apply ss_same].
  rewrite lookup_fmap. destruct (currentBids r !! n) as [bd|]; simpl; [|apply ss_same].
  unfold sort_active. case_match; [by apply ss_sort|apply ss_same].
Qed.

Lemma biddingHistory_sessions now r :
  sessions_step csv r (biddingHistory now r).1.
Proof.
  intros n. unfold regular_step, blind_step, biddingHistory. simpl. split.
  - rewrite lookup_fmap. destruct (currentBids r !! n) as [bd|]; simpl; [|apply ss_same].
    unfold sort_terminal. case_match; [by apply ss_sort|apply ss_same].
  - rewrite lookup_fmap. destruct (blindBids r !! n) as [bd|]; simpl; [|apply ss_same].
    unfold sort_terminal. destruct (is_terminal bd) eqn:E; [|apply ss_same].
    apply bool_decide_eq_true in E. apply ss_sort. intros _ Hact.
    destruct E; congruence.
Qed.

Lemma joinRoom_sessions now r t :
  sessions_step csv r (joinRoom now r t).1.1.
Proof.
  intros n. unfold regular_step, blind_step, joinRoom.
  split; table_step; session_tac.
Qed.

Lemma step_sessions r ev : sessions_step csv r (step csv r ev).1.1.
Proof.
  destruct ev as [now op];
    destruct op as [n p t| |n a t rnd|n a t rnd|n|n|n bt|n|n|n|n| | |t]; unfold step; simpl.
  - apply selectPlayer_sessions.
  - pose proof (nextBatch_sessions now r). by destruct (nextBatch csv now r).
  - apply placeBid_sessions.
  - apply placeBlindBid_sessions.
  - apply startBidding_sessions.
  - apply startBlindBidding_sessions.
  - apply closeBidding_sessions.
  - pose proof (timerRegular_sessions now r n). by destruct (timerRegular csv now r n).
  - pose proof (timerBlind_sessions now r n). by destruct (timerBlind csv now r n).
  - pose proof (playerBids_sessions now r n). by destruct (playerBids now r n).
  - pose proof (blindBidsQuery_sessions now r n). by destruct (blindBidsQuery now r n).
  - apply roomBids_sessions.
  - apply biddingHistory_sessions.
  - apply joinRoom_sessions.
Qed.
End sessions.

(** ** C5: regular bids are strictly increasing *)

Lemma session_step_highest pool usrs n o o' :
  session_step pool usrs regular n o o' → highest_of o ≤ highest_of o'.
Proof.
  induction 1 as [o|ty base now Hf|bd b now Hs Hu Hb|bd Hs|bd now Hs|bd w now Hs Hw|
                  o1 o2 o3 _ IH1 _ IH2]; simpl; try lia.
  - rewrite currentHighestBid_snoc by done. lia.
  - rewrite (currentHighestBid_perm _ _ (sort_desc_perm amount (bids bd))). lia.
  - rewrite (currentHighestBid_perm _ _ (sort_desc_perm amount (bids bd))). lia.
  - rewrite (currentHighestBid_perm _ _ (sort_desc_perm amount (bids bd))). lia.
Qed.

Lemma step_highest csv r ev n :
  highest_of (currentBids r !! n) ≤ highest_of (currentBids (step csv r ev).1.1 !! n).
Proof. eapply session_step_highest, step_sessions. Qed.

(** An accepted bid was above the highest bid held and is the highest bid
    afterwards. *)
Lemma placeBid_accepted csv now r n a t rnd bid h hb tb st rem :
  (placeBid csv now r n a t rnd).1.2 = BidPlaced bid h hb tb st rem →
  highest_of (currentBids r !! n) < a
  ∧ highest_of (currentBids (placeBid csv now r n a t rnd).1.1 !! n) = a.
Proof.
  unfold placeBid. intros H.
  repeat (case_match; simplify_eq/=); rewrite ?lookup_insert_eq; simpl.
  all: try match goal with H : currentBids _ !! _ = _ |- _ => rewrite H end; simpl.
  all: split; [lia|]; try done.
  all: rewrite currentHighestBid_snoc; simpl; lia.
Qed.

Lemma accepted_bids_above csv n evs : ∀ r,
  Forall (λ a, highest_of (currentBids r !! n) < a) (accepted_bids csv r evs n)
  ∧ StronglySorted Z.lt (accepted_bids csv r evs n).
Proof.
  induction evs as [|[now op] evs IH]; intros r; simpl.
  { split; constructor. }
  destruct (IH (step csv r (now, op)).1.1) as [IHa IHs].
  pose proof (step_highest csv r (now, op) n) as Hmono.
  assert (Forall (λ a, highest_of (currentBids r !! n) < a)
            (accepted_bids csv (step csv r (now, op)).1.1 evs n)) as Hweak.
  { eapply Forall_impl; [exact IHa|]. simpl. intros; lia. }
  destruct op as [p a t| |p a t rnd|p a t rnd|p|p|p bt|p|p|p|p| | |t]; try done.
  destruct ((step csv r (now, OpPlaceBid p a t rnd)).1.2) eqn:E; try done.
  case_decide as Hp; [subst p|done].
  unfold step in E, IHa, IHs, Hmono |- *; simpl in *.
  apply placeBid_accepted in E as [Hlt Heq].
  rewrite Heq in IHa. split.
  - constructor; [done|]. eapply Forall_impl; [exact IHa|]. simpl. intros; lia.
  - constructor; [done|]. eapply Forall_impl; [exact IHa|]. simpl. intros; lia.
Qed.

Lemma placeBid_rejects_low csv now r n a t rnd bd :
  currentBids r !! n = Some bd →
  a ≤ currentHighestBid (bids bd) →
  let out := placeBid csv now r n a t rnd in
  (∃ e, out.1.2 = Err e) ∧ out.1.1 = r ∧ out.2 = [].
Proof.
  intros Hbd Hle. unfold placeBid.
  repeat (case_match; simplify_eq/=); eauto. lia.
Qed.

Lemma placeBid_BidTooLow csv now r n a t rnd bd tm p :
  currentBids r !! n = Some bd →
  a ≤ currentHighestBid (bids bd) →
  n ≠ ""%string → t ≠ ""%string →
  users r !! t = Some tm → a ≤ budget tm →
  (length (players tm) < MAX_PLAYERS_PER_TEAM)%nat →
  find_player csv n = Some p → n ∉ soldPlayers r →
  status bd = active → below_base p a = None →
  (placeBid csv now r n a t rnd).1.2 = Err (BidTooLow (currentHighestBid (bids bd))).
Proof.
  intros Hbd Hle Hn Ht Htm Hb Hr Hp Hs Hst Hbase. unfold placeBid.
  rewrite decide_False by (by intros [?|?]). rewrite Htm.
  rewrite decide_False by lia. rewrite decide_False by lia.
  rewrite Hp. rewrite decide_False by done. rewrite Hbd.
  rewrite decide_False by (by intros Hx; apply Hx). rewrite Hbase.
  by rewrite decide_True by done.
Qed.


(** C5. A [place-bid] whose amount is not above the highest bid held by the
    session is rejected and changes nothing; once the checks placed before it
    pass the rejection is [BidTooLow].  Hence the amounts accepted for one
    player, in the order of acceptance along any run, strictly increase. *)
Theorem C5_regular_bids_strictly_increasing csv :
  (∀ now r n a t rnd bd,
     currentBids r !! n = Some bd →
     a ≤ currentHighestBid (bids bd) →
     let out := placeBid csv now r n a t rnd in
     (∃ e, out.1.2 = Err e) ∧ out.1.1 = r
     ∧ (∀ tm p,
          n ≠ ""%string → t ≠ ""%string →
          users r !! t = Some tm → a ≤ budget tm →
          (length (players tm) < MAX_PLAYERS_PER_TEAM)%nat →
          find_player csv n = Some p → n ∉ soldPlayers r →
          status bd = active → below_base p a = None →
          out.1.2 = Err (BidTooLow (currentHighestBid (bids bd)))))
  ∧ (∀ r evs n, StronglySorted Z.lt (accepted_bids csv r evs n)).
Proof.
  split.
  - intros now r n a t rnd bd Hbd Hle out.
    destruct (placeBid_rejects_low csv now r n a t rnd bd Hbd Hle) as (He & Hr & _).
    repeat split; [done..|].
    intros. by eapply placeBid_BidTooLow.
  - intros r evs n. apply accepted_bids_above.
Qed.

(** Team B's bid of 100,000 against team A's standing bid of 100,000 is
    rejected as too low. *)
Lemma C5_witness :
  (placeBid example_catalog 2 example_after_bid "P" 100000 "B" "y").1.2
  = Err (BidTooLow 100000).
Proof.
  refine (proj2 (proj2 (proj1 (C5_regular_bids_strictly_increasing example_catalog)
            2 example_after_bid "P"%string 100000 "B"%string "y"%string example_session _ _))
            (mkTeam "B" 1000000 []) (mkPlayer "P" "MI" "BAT" (Some 50000)) _ _ _ _ _ _ _ _ _).
  - vm_compute. reflexivity.
  - vm_compute. discriminate.
  - discriminate.
  - discriminate.
  - vm_compute. reflexivity.
  - vm_compute. discriminate.
  - vm_compute. lia.
  - vm_compute. reflexivity.
  - vm_compute. set_solver.
  - reflexivity.
  - vm_compute. reflexivity.
Defined.

(** ** Sessions of reachable rooms are well formed *)

Lemma session_step_wf pool usrs bt n o o' :
  session_step pool usrs bt n o o' →
  (∀ bd, o = Some bd → session_wf pool usrs n bd) →
  ∀ bd', o' = Some bd' → session_wf pool usrs n bd'.
Proof.
  induction 1 as [o|ty base now Hf|bd b now Hs Hu Hb|bd Hs|bd now Hs|bd w now Hs Hw|
                  o1 o2 o3 _ IH1 _ IH2]; intros Hwf bd' E; simplify_eq.
  - by apply Hwf.
  - split; [done|]. simpl. by intros ? ?%elem_of_nil.
  - destruct (Hwf bd eq_refl) as [Hp Hb']. split; [done|]. simpl.
    intros b' [Hin|Hin%list_elem_of_singleton]%elem_of_app; [by apply Hb'|by subst].
  - destruct (Hwf bd eq_refl) as [Hp Hb']. split; [done|]. simpl.
    intros b' Hin%sort_desc_elem_of. by apply Hb'.
  - destruct (Hwf bd eq_refl) as [Hp Hb']. split; [done|]. simpl.
    intros b' Hin%sort_desc_elem_of. by apply Hb'.
  - destruct (Hwf bd eq_refl) as [Hp Hb']. split; [done|]. simpl.
    intros b' Hin%sort_desc_elem_of. by apply Hb'.
  - eauto.
Qed.

Lemma session_wf_mono pool (usrs usrs' : gmap string Team) n bd :
  (∀ k, is_Some (usrs !! k) → is_Some (usrs' !! k)) →
  session_wf pool usrs n bd → session_wf pool usrs' n bd.
Proof. intros Hm [Hp Hb]. split; [done|]. intros b Hin. apply Hm. by apply Hb. Qed.

Lemma ledger_change_teams r r' k :
  ledger_change r r' → is_Some (users r !! k) → is_Some (users r' !! k).
Proof.
  intros [Hu _|k' t pp Hk Hu _ _ _|k' Hk Hu _] Hs; rewrite Hu; [done|..].
  - rewrite lookup_insert. by case_decide.
  - rewrite lookup_insert. by case_decide.
Qed.

Lemma step_sessions_wf csv r ev : sessions_wf csv r → sessions_wf csv (step csv r ev).1.1.
Proof.
  intros [Hreg Hbl].
  pose proof (step_sessions csv r ev) as Hstep.
  pose proof (step_ledger csv r ev) as Hled.
  split; intros n bd' Hbd'; destruct (Hstep n) as [Hr Hb].
  - eapply session_wf_mono; [intros k; by apply ledger_change_teams|].
    eapply session_step_wf; [exact Hr| |exact Hbd']. intros bd. apply Hreg.
  - eapply session_wf_mono; [intros k; by apply ledger_change_teams|].
    eapply session_step_wf; [exact Hb| |exact Hbd']. intros bd. apply Hbl.
Qed.

Lemma reachable_sessions_wf csv r : reachable csv r → sessions_wf csv r.
Proof.
  induction 1 as [|r ev Hr IH]; [|by apply step_sessions_wf].
  split; intros n bd; simpl; by rewrite lookup_empty.
Qed.

(** ** C6: resolution *)

Lemma autoAwardPlayer_outcome csv now r n bd :
  session_wf csv (users r) n bd →
  currentBids r !! n = Some bd → status bd = active →
  let r' := (autoAwardPlayer csv now r n).1 in
  resolution_outcome n bd r r' (currentBids r' !! n).
Proof.
  intros [[p Hp] Hteams] Hbd Hact. unfold autoAwardPlayer, resolve, resolution_outcome.
  rewrite Hbd. rewrite decide_False by (by intros Hx; apply Hx).
  destruct (head (sort_desc amount (bids bd))) as [w|] eqn:Hw; simpl.
  - destruct (sort_desc_head_max amount _ _ Hw) as [Hin Hmax].
    split; [done|]. split; [done|].
    destruct (Hteams w Hin) as [tm Htm]. exists tm. split; [done|].
    rewrite Htm, Hp. case_decide; simpl.
    + eexists. rewrite lookup_insert_eq. simpl. repeat split; done.
    + rewrite lookup_insert_eq. done.
  - rewrite lookup_insert_eq. simpl. split; [|done].
    apply head_None in Hw. by apply sort_desc_nil_inv in Hw.
Qed.

Lemma autoAwardBlindBidPlayer_outcome csv now r n bd :
  session_wf (blindBidPlayers csv) (users r) n bd →
  blindBids r !! n = Some bd → status bd = active →
  let r' := (autoAwardBlindBidPlayer csv now r n).1 in
  resolution_outcome n bd r r' (blindBids r' !! n).
Proof.
  intros [[p Hp] Hteams] Hbd Hact. unfold autoAwardBlindBidPlayer, resolve, resolution_outcome.
  rewrite Hbd. rewrite decide_False by (by intros Hx; apply Hx).
  destruct (head (sort_desc amount (bids bd))) as [w|] eqn:Hw; simpl.
  - destruct (sort_desc_head_max amount _ _ Hw) as [Hin Hmax].
    split; [done|]. split; [done|].
    destruct (Hteams w Hin) as [tm Htm]. exists tm. split; [done|].
    rewrite Htm, Hp. case_decide; simpl.
    + eexists. rewrite lookup_insert_eq. simpl. repeat split; done.
    + rewrite lookup_insert_eq. done.
  - rewrite lookup_insert_eq. simpl. split; [|done].
    apply head_None in Hw. by apply sort_desc_nil_inv in Hw.
Qed.

Lemma timerRegular_active csv now r n bd :
  currentBids r !! n = Some bd → status bd = active →
  timerRegular csv now r n = autoAwardPlayer csv now r n.
Proof. intros Hbd Hs. unfold timerRegular. rewrite Hbd. by rewrite decide_True. Qed.

Lemma timerBlind_active csv now r n bd :
  blindBids r !! n = Some bd → status bd = active →
  timerBlind csv now r n = autoAwardBlindBidPlayer csv now r n.
Proof. intros Hbd Hs. unfold timerBlind. rewrite Hbd. by rewrite decide_True. Qed.

Lemma resolution_outcome_sorted n bd r r1 r2 o :
  users r2 = users r1 → soldPlayers r2 = soldPlayers r1 →
  resolution_outcome n bd r r1 o →
  resolution_outcome n bd r r2 (sort_in_place <$> o).
Proof.
  intros Hu Hs. unfold resolution_outcome. rewrite Hu, Hs.
  destruct o as [bd1|]; simpl; [|done].
  case_match; [|done].
  intros (?&?&tm&?&Hcase). repeat split; [done..|]. exists tm. split; [done|].
  case_decide; [|done]. destruct Hcase as (pp&?&?&?&?&?&?&?). by exists pp.
Qed.

Lemma closeBidding_regular_active csv now r n bd :
  n ≠ ""%string → currentBids r !! n = Some bd → status bd = active →
  let r1 := (autoAwardPlayer csv now r n).1 in
  let r2 := (closeBidding csv now r n "regular").1.1 in
  users r2 = users r1 ∧ soldPlayers r2 = soldPlayers r1
  ∧ currentBids r2 !! n = sort_in_place <$> currentBids r1 !! n.
Proof.
  intros Hn Hbd Hs. unfold closeBidding.
  rewrite decide_False by (by intros [?|?]). rewrite decide_True by done.
  rewrite Hbd. rewrite decide_False by (by intros Hx; apply Hx).
  destruct (autoAwardPlayer csv now r n) as [r1 eff]. simpl.
  unfold close_response. destruct (currentBids r1 !! n) as [bd1|] eqn:E; simpl.
  - by rewrite lookup_insert_eq.
  - by rewrite E.
Qed.

Lemma closeBidding_blind_active csv now r n bd :
  n ≠ ""%string → blindBids r !! n = Some bd → status bd = active →
  let r1 := (autoAwardBlindBidPlayer csv now r n).1 in
  let r2 := (closeBidding csv now r n "blind").1.1 in
  users r2 = users r1 ∧ soldPlayers r2 = soldPlayers r1
  ∧ blindBids r2 !! n = sort_in_place <$> blindBids r1 !! n.
Proof.
  intros Hn Hbd Hs. unfold closeBidding.
  rewrite decide_False by (by intros [?|?]). rewrite decide_False by done.
  rewrite decide_True by done.
  rewrite Hbd. rewrite decide_False by (by intros Hx; apply Hx).
  destruct (autoAwardBlindBidPlayer csv now r n) as [r1 eff]. simpl.
  unfold close_response. destruct (blindBids r1 !! n) as [bd1|] eqn:E; simpl.
  - by rewrite lookup_insert_eq.
  - by rewrite E.
Qed.

Lemma resolution_outcome_effect n bd r r' o' :
  resolution_outcome n bd r r' o' → resolution_effect n bd r r' o'.
Proof.
  unfold resolution_outcome, resolution_effect.
  destruct (head (sort_desc amount (bids bd))) as [w|]; [|done].
  intros (Hin & Hmax & tm & Htm & H). split; [done|]. split; [done|].
  exists tm. split; [done|].
  destruct (decide (amount w ≤ budget tm ∧ (length (players tm) < MAX_PLAYERS_PER_TEAM)%nat))
    as [Hd|Hd]; [|done].
  destruct H as (pp & Hn & Hp & Hu & Hs & Hst & Hto & Hfp).
  exists (buy tm pp), pp. split; [done|].
  unfold buy. cbn [username budget players]. rewrite Hp.
  split_and!; try done.
  intros Hle. apply js_sub_exact. destruct Hd as [Hd _]. lia.
Qed.

Lemma resolution_outcomes csv now r n bd :
  reachable csv r → status bd = active →
  (currentBids r !! n = Some bd →
     (let r' := (timerRegular csv now r n).1 in
      resolution_outcome n bd r r' (currentBids r' !! n))
     ∧ (n ≠ ""%string →
        let r' := (closeBidding csv now r n "regular").1.1 in
        resolution_outcome n bd r r' (currentBids r' !! n)))
  ∧ (blindBids r !! n = Some bd →
     (let r' := (timerBlind csv now r n).1 in
      resolution_outcome n bd r r' (blindBids r' !! n))
     ∧ (n ≠ ""%string →
        let r' := (closeBidding csv now r n "blind").1.1 in
        resolution_outcome n bd r r' (blindBids r' !! n))).
Proof.
  intros Hr Hact. destruct (reachable_sessions_wf csv r Hr) as [Hreg Hbl]. split; intros Hbd.
  - pose proof (autoAwardPlayer_outcome csv now r n bd (Hreg n bd Hbd) Hbd Hact) as Hout.
    split.
    + by rewrite (timerRegular_active csv now r n bd).
    + intros Hn. cbv zeta.
      destruct (closeBidding_regular_active csv now r n bd Hn Hbd Hact) as (Hu & Hs & E).
      rewrite E. by eapply resolution_outcome_sorted.
  - pose proof (autoAwardBlindBidPlayer_outcome csv now r n bd (Hbl n bd Hbd) Hbd Hact) as Hout.
    split.
    + by rewrite (timerBlind_active csv now r n bd).
    + intros Hn. cbv zeta.
      destruct (closeBidding_blind_active csv now r n bd Hn Hbd Hact) as (Hu & Hs & E).
      rewrite E. by eapply resolution_outcome_sorted.
Qed.

(** C6. In a reachable room, the timer callback or the manual close of an
    active session (regular or blind) picks a bid of greatest amount; if that
    bidder's budget covers the amount and its roster has room, the team's
    budget becomes its former budget less the amount (the server's
    subtraction, which is the exact difference whenever that is at most
    2^53), its roster becomes the former roster followed by one record for
    the player at that amount, the player is marked sold and the session
    becomes sold to that team at that price; otherwise the session becomes
    closed and no registry entry or sold mark changes, whatever the other
    bids are. *)
Theorem C6_resolution csv now r n bd :
  reachable csv r → status bd = active →
  (currentBids r !! n = Some bd →
     (let r' := (timerRegular csv now r n).1 in
      resolution_effect n bd r r' (currentBids r' !! n))
     ∧ (n ≠ ""%string →
        let r' := (closeBidding csv now r n "regular").1.1 in
        resolution_effect n bd r r' (currentBids r' !! n)))
  ∧ (blindBids r !! n = Some bd →
     (let r' := (timerBlind csv now r n).1 in
      resolution_effect n bd r r' (blindBids r' !! n))
     ∧ (n ≠ ""%string →
        let r' := (closeBidding csv now r n "blind").1.1 in
        resolution_effect n bd r r' (blindBids r' !! n))).
Proof.
  intros Hr Hact. destruct (resolution_outcomes csv now r n bd Hr Hact) as [Hreg Hbl].
  split; intros Hbd.
  - destruct (Hreg Hbd) as [H1 H2]. split.
    + by apply resolution_outcome_effect.
    + intros Hn. by apply resolution_outcome_effect, H2.
  - destruct (Hbl Hbd) as [H1 H2]. split.
    + by apply resolution_outcome_effect.
    + intros Hn. by apply resolution_outcome_effect, H2.
Qed.

(** At the timeout of the scenario of the specification, B wins P. *)
Lemma C6_witness :
  resolution_effect "P" scenario_regular_session scenario_regular
    (timerRegular example_catalog 60001 scenario_regular "P").1
    (currentBids (timerRegular example_catalog 60001 scenario_regular "P").1 !! "P"%string).
Proof.
  refine (proj1 (proj1 (C6_resolution example_catalog 60001 scenario_regular "P"%string
                          scenario_regular_session _ _) _)).
  - apply reachable_run.
  - reflexivity.
  - vm_compute. reflexivity.
Defined.

(** The scenario in numbers: B wins at 150,000, A keeps 1,000,000, B is left
    with 850,000 and one player. *)
Example scenario_regular_timeout :
  let r' := (timerRegular example_catalog 60001 scenario_regular "P").1 in
  budget <$> users r' !! "A" = Some 1000000
  ∧ budget <$> users r' !! "B" = Some 850000
  ∧ (length ∘ players) <$> users r' !! "B" = Some 1%nat
  ∧ (length ∘ players) <$> users r' !! "A" = Some 0%nat
  ∧ status <$> currentBids r' !! "P" = Some sold
  ∧ currentBids r' !! "P" ≫= soldTo = Some "B"%string
  ∧ currentBids r' !! "P" ≫= finalPrice = Some 150000.
Proof. vm_compute. done. Qed.


(** ** C7: resolving a terminal session *)

Lemma resolve_terminal pool bt now r table set_table n bd :
  table !! n = Some bd → status bd ≠ active →
  resolve pool bt now r table set_table n = (r, []).
Proof. intros Hbd Hs. unfold resolve. rewrite Hbd. by rewrite decide_True. Qed.

(** C7 (amended). On a session that is already closed or sold, the award
    functions and the timer callbacks return the room as it is, with no
    effect; the manual close answers with a 400 error that names the status
    and leaves the room as it is. *)
Theorem C7_terminal_resolution csv now r n bd :
  status bd ≠ active →
  (currentBids r !! n = Some bd →
     autoAwardPlayer csv now r n = (r, [])
     ∧ timerRegular csv now r n = (r, [])
     ∧ closeBidding csv now r n "regular"
       = (r, Err (if decide (n = ""%string) then BadRequest
                  else SessionNotActive (status bd)), []))
  ∧ (blindBids r !! n = Some bd →
     autoAwardBlindBidPlayer csv now r n = (r, [])
     ∧ timerBlind csv now r n = (r, [])
     ∧ closeBidding csv now r n "blind"
       = (r, Err (if decide (n = ""%string) then BadRequest
                  else SessionNotActive (status bd)), [])).
Proof.
  intros Hs. split; intros Hbd; (split; [by eapply resolve_terminal|]); split.
  - unfold timerRegular. rewrite Hbd. by rewrite decide_False.
  - unfold closeBidding. destruct (decide (n = ""%string)) as [->|Hn].
    + by rewrite decide_True by (by left).
    + rewrite decide_False by (by intros [?|?]). rewrite decide_True by done.
      rewrite Hbd. by rewrite decide_True.
  - unfold timerBlind. rewrite Hbd. by rewrite decide_False.
  - unfold closeBidding. destruct (decide (n = ""%string)) as [->|Hn].
    + by rewrite decide_True by (by left).
    + rewrite decide_False by (by intros [?|?]). rewrite decide_False by done.
      rewrite decide_True by done.
      rewrite Hbd. by rewrite decide_True.
Qed.

(** A second manual close of the closed session of P changes nothing and is
    answered with the status error. *)
Lemma C7_witness :
  closeBidding example_catalog 3 example_closed "P" "regular"
  = (example_closed, Err (SessionNotActive closed), []).
Proof.
  refine (proj2 (proj2 (proj1 (C7_terminal_resolution example_catalog 3 example_closed
            "P"%string
            (mkBidData "P" "BAT" (Some 50000) [] 1 closed regular None (Some 2) None None None)
            _) _))).
  - discriminate.
  - vm_compute. reflexivity.
Defined.

(** The manual close of a session that is already closed is answered with an
    error. *)
Lemma C7_counterexample :
  status <$> currentBids example_closed !! "P" = Some closed
  ∧ (closeBidding example_catalog 3 example_closed "P" "regular").1.2
    = Err (SessionNotActive closed).
Proof. vm_compute. done. Qed.


(** ** C9: ties in a blind session *)

Lemma session_step_Some pool usrs bt n o o' :
  session_step pool usrs bt n o o' → is_Some o → is_Some o'.
Proof. induction 1; eauto. Qed.

Lemma session_step_blind_prefix pool usrs n o o' :
  session_step pool usrs blind n o o' →
  ∀ bd bd', o = Some bd → o' = Some bd' → status bd' = active →
  status bd = active ∧ bids bd `prefix_of` bids bd'.
Proof.
  induction 1 as [o|ty base now Hf|bd b now Hs Hu Hb|bd Hs|bd now Hs|bd w now Hs Hw|
                  o1 o2 o3 H1 IH1 H2 IH2]; intros bd0 bd' E E' Hact; simplify_eq/=.
  - done.
  - split; [done|]. by apply prefix_app_r.
  - by destruct Hs.
  - destruct (session_step_Some _ _ _ _ _ _ H1) as [bd2 ->]; [done|].
    destruct (IH2 bd2 bd' eq_refl eq_refl Hact) as [Hact2 Hp2].
    destruct (IH1 bd0 bd2 eq_refl eq_refl Hact2) as [Hact1 Hp1].
    split; [done|]. by etrans.
Qed.

(** While a blind session stays active its bid array only grows at the end:
    it lists the bids in the order received. *)
Lemma blind_bids_arrival_order csv r ev n bd bd' :
  blindBids r !! n = Some bd →
  blindBids (step csv r ev).1.1 !! n = Some bd' →
  status bd' = active →
  bids bd `prefix_of` bids bd'.
Proof.
  intros Hbd Hbd' Hact. destruct (step_sessions csv r ev n) as [_ Hb].
  unfold blind_step in Hb. by eapply session_step_blind_prefix.
Qed.



(** The tie in numbers: A pays 200,000 and holds S, B keeps its budget. *)
Example scenario_blind_tie_timeout :
  let r' := (timerBlind example_catalog 300001 scenario_blind_tie "S").1 in
  budget <$> users r' !! "A" = Some 800000
  ∧ budget <$> users r' !! "B" = Some 1000000
  ∧ (fmap pp_name ∘ players) <$> users r' !! "A" = Some ["S"%string]
  ∧ blindBids r' !! "S" ≫= soldTo = Some "A"%string.
Proof. vm_compute. done. Qed.

(** ** C2: a sold player can be awarded a second time *)

(** C2 (the code departs from it). Resolution does not consult the sold set:
    after team A has bid on P and the operator has sold P to team B directly,
    closing the session awards P to team A as well, so P is in the sold set
    with two roster records. *)
Theorem C2_double_sale :
  "P"%string ∈ soldPlayers example_double_sale
  ∧ records_of "P" example_double_sale = 2
  ∧ (fmap pp_name ∘ players) <$> users example_double_sale !! "A" = Some ["P"%string]
  ∧ (fmap pp_name ∘ players) <$> users example_double_sale !! "B" = Some ["P"%string].
Proof.
  split; [by apply (bool_decide_unpack _); vm_compute|]. vm_compute. done.
Qed.

(** ** C4: a first bid opens the session *)

(** Against C4 as stated: with no session for P, team A's bid is accepted,
    the session is created and its timer armed. *)
Lemma C4_counterexample :
  currentBids example_room !! "P" = None
  ∧ let out := placeBid example_catalog 1 example_room "P" 100000 "A" "x" in
    out.1.2 = BidPlaced (mkBid "A" 100000 1 "x") 100000 (Some "A"%string) 1 active 60000
    ∧ currentBids out.1.1 !! "P" = Some example_session
    ∧ SetTimeout regular "P" 60000 ∈ out.2.
Proof.
  split; [done|]. vm_compute. split; [done|]. split; [done|]. by left.
Qed.

(** C4 (amended). A [place-bid] for a player without session never answers
    [SessionNotActive]: once the team, budget, roster, catalog and sold
    checks pass it creates an active session and arms its timer, and a
    positive amount that is not below the base price is admitted as the
    first bid.  A call rejected by one of those earlier checks leaves the
    room as it is. *)
Theorem C4_first_bid_opens_session csv now r n a t rnd :
  currentBids r !! n = None →
  let out := placeBid csv now r n a t rnd in
  (∀ st, out.1.2 ≠ Err (SessionNotActive st))
  ∧ (∀ tm p,
       n ≠ ""%string → t ≠ ""%string →
       users r !! t = Some tm → a ≤ budget tm →
       (length (players tm) < MAX_PLAYERS_PER_TEAM)%nat →
       find_player csv n = Some p → n ∉ soldPlayers r →
       below_base p a = None → 0 < a →
       let bid := mkBid t a now rnd in
       let bd := push_bid (new_session n (type p) (basePrice p) now regular) bid now in
       out.1.2 = BidPlaced bid a (Some t) 1 active BIDDING_TIMEOUT
       ∧ out.1.1 = set_lastActivity (set_currentBids r (<[n := bd]> (currentBids r))) now
       ∧ out.2 = [SetTimeout regular n BIDDING_TIMEOUT; SaveRooms;
                  EmitBidUpdate n a (Some t) 1 BIDDING_TIMEOUT])
  ∧ (out.1.2 ∈ [Err BadRequest; Err TeamNotFound; Err BudgetExceeded; Err RosterFull;
                Err PlayerNotFound; Err PlayerAlreadySold] →
     out.1.1 = r ∧ out.2 = []).
Proof.
  intros Hnone out. split; [|split].
  - intros st. subst out. unfold placeBid. rewrite Hnone.
    repeat (case_match; simplify_eq/=); done.
  - intros tm p Hn Ht Htm Hb Hr Hp Hs Hbase Hpos bid bd. subst out. unfold placeBid.
    rewrite decide_False by (by intros [?|?]). rewrite Htm.
    rewrite decide_False by lia. rewrite decide_False by lia.
    rewrite Hp. rewrite decide_False by done. rewrite Hnone. simpl.
    rewrite Hbase. rewrite decide_False by lia. simpl.
    rewrite bool_decide_eq_true_2 by done. simpl.
    rewrite insert_insert_eq.
    replace (BIDDING_TIMEOUT - (now - now)) with BIDDING_TIMEOUT by lia. done.
  - subst out. unfold placeBid. rewrite Hnone.
    repeat (case_match; simplify_eq/=); try done.
    all: intros Hin; repeat (apply elem_of_cons in Hin as [Hin|Hin]; [done|]).
    all: by apply elem_of_nil in Hin.
Qed.

(** Team A's first bid on P in the fresh example room. *)
Lemma C4_witness :
  let out := placeBid example_catalog 1 example_room "P" 100000 "A" "x" in
  out.1.2 = BidPlaced (mkBid "A" 100000 1 "x") 100000 (Some "A"%string) 1 active BIDDING_TIMEOUT.
Proof.
  refine (proj1 (proj1 (proj2 (C4_first_bid_opens_session example_catalog 1 example_room
            "P"%string 100000 "A"%string "x"%string _))
            (mkTeam "A" 1000000 []) (mkPlayer "P" "MI" "BAT" (Some 50000))
            _ _ _ _ _ _ _ _ _)).
  - done.
  - discriminate.
  - discriminate.
  - vm_compute. reflexivity.
  - simpl. lia.
  - simpl. unfold MAX_PLAYERS_PER_TEAM. lia.
  - vm_compute. reflexivity.
  - vm_compute. set_solver.
  - vm_compute. reflexivity.
  - lia.
Defined.

(** ** C8: blind amounts stay hidden while the session is active *)

Lemma hide_amounts_public bd :
  playerName (hide_amounts bd) = playerName bd
  ∧ playerType (hide_amounts bd) = playerType bd
  ∧ length (bids (hide_amounts bd)) = length (bids bd)
  ∧ biddingStartTime (hide_amounts bd) = biddingStartTime bd
  ∧ status (hide_amounts bd) = status bd.
Proof.
  unfold hide_amounts. destruct (is_active bd); simpl; [|done].
  by rewrite length_fmap.
Qed.

Lemma hide_amounts_terminal bd : status bd ≠ active → hide_amounts bd = bd.
Proof.
  intros Hs. unfold hide_amounts, is_active. by rewrite bool_decide_eq_false_2.
Qed.

Lemma is_active_hide bd : is_active (hide_amounts bd) = is_active bd.
Proof. unfold is_active. by rewrite (proj2 (proj2 (proj2 (proj2 (hide_amounts_public bd))))). Qed.

Lemma is_terminal_hide bd : is_terminal (hide_amounts bd) = is_terminal bd.
Proof. unfold is_terminal. by rewrite (proj2 (proj2 (proj2 (proj2 (hide_amounts_public bd))))). Qed.

Lemma blind_view_hide now bd : blind_view now (hide_amounts bd) = blind_view now bd.
Proof.
  destruct (hide_amounts_public bd) as (Hn & Ht & Hl & Hs & _).
  unfold blind_view. by rewrite Hn, Ht, Hl, Hs.
Qed.

Lemma values_fmap (f : BidData → BidData) (m : gmap string BidData) :
  values (f <$> m) = f <$> values m.
Proof.
  unfold values. rewrite map_to_list_fmap. rewrite <- !list_fmap_compose.
  by apply list_fmap_ext.
Qed.

Lemma filter_fmap_commute (p : BidData → bool) (f : BidData → BidData) l :
  (∀ bd, p (f bd) = p bd) → List.filter p (f <$> l) = f <$> List.filter p l.
Proof.
  intros Hp. induction l as [|x l IH]; simpl; [done|].
  rewrite Hp. destruct (p x); simpl; [f_equal|]; exact IH.
Qed.

(** The blind part of [/room-bids] is a function of the table with the
    amounts of its active sessions blanked. *)
Lemma blind_views_hidden now (m : gmap string BidData) :
  blind_view now <$> List.filter is_active (values m)
  = blind_view now <$> List.filter is_active (values (hide_amounts <$> m)).
Proof.
  rewrite values_fmap. rewrite (filter_fmap_commute _ _ _ is_active_hide).
  rewrite <- list_fmap_compose. apply list_fmap_ext. intros ? bd _. simpl.
  by rewrite blind_view_hide.
Qed.

Lemma filter_terminal_hide l :
  List.filter is_terminal (hide_amounts <$> l) = List.filter is_terminal l.
Proof.
  induction l as [|bd l IH]; simpl; [done|].
  rewrite is_terminal_hide. destruct (is_terminal bd) eqn:E; [|exact IH].
  f_equal; [|exact IH]. apply hide_amounts_terminal.
  apply bool_decide_eq_true in E. destruct E; congruence.
Qed.

Lemma sort_terminal_hide bd : hide_amounts (sort_terminal bd) = sort_terminal (hide_amounts bd).
Proof.
  unfold sort_terminal. rewrite is_terminal_hide.
  destruct (is_terminal bd) eqn:E; [|done].
  apply bool_decide_eq_true in E.
  assert (status bd ≠ active) as Hs by (destruct E; congruence).
  rewrite (hide_amounts_terminal bd Hs). by apply hide_amounts_terminal.
Qed.

Lemma blind_history_hidden (m : gmap string BidData) :
  List.filter is_terminal (values (sort_terminal <$> m))
  = List.filter is_terminal (values (sort_terminal <$> (hide_amounts <$> m))).
Proof.
  rewrite <- (filter_terminal_hide (values (sort_terminal <$> m))).
  rewrite <- values_fmap. do 2 f_equal.
  rewrite <- !map_fmap_compose. apply map_fmap_ext. intros ? bd _. simpl.
  apply sort_terminal_hide.
Qed.

Lemma blind_equiv_fields r1 r2 :
  blind_equiv r1 r2 → currentBids r1 = currentBids r2.
Proof. intros [H _]. by apply (f_equal currentBids) in H. Qed.

Lemma blindBidsQuery_hidden now r1 r2 n :
  blind_equiv r1 r2 → (blindBidsQuery now r1 n).2 = (blindBidsQuery now r2 n).2.
Proof.
  intros [_ H]. apply (f_equal (.!! n)) in H. rewrite !lookup_fmap in H.
  unfold blindBidsQuery.
  destruct (blindBids r1 !! n) as [bd1|], (blindBids r2 !! n) as [bd2|]; simplify_eq/=; [|done].
  destruct (hide_amounts_public bd1) as (Hn1 & Ht1 & Hl1 & Hs1 & Hst1).
  destruct (hide_amounts_public bd2) as (Hn2 & Ht2 & Hl2 & Hs2 & Hst2).
  rewrite H in Ht1, Hl1, Hs1, Hst1.
  assert (status bd1 = status bd2) as Hst by congruence.
  destruct (decide (status bd1 = active)) as [Ha|Ha].
  - rewrite decide_True by congruence. simpl. f_equal; congruence.
  - rewrite decide_False by congruence.
    rewrite !hide_amounts_terminal in H by congruence. by subst.
Qed.

(** C8. Two rooms that differ at most in the amounts of the bids held by
    active blind sessions get the same answer from the per-player blind-bid
    query, from the room-wide active-bids query and from the history query;
    and the per-player query lists bids only for a session that is closed or
    sold. *)
Theorem C8_blind_amounts_hidden now r1 r2 :
  blind_equiv r1 r2 →
  (∀ n, (blindBidsQuery now r1 n).2 = (blindBidsQuery now r2 n).2)
  ∧ (roomBids now r1).2 = (roomBids now r2).2
  ∧ (biddingHistory now r1).2 = (biddingHistory now r2).2
  ∧ (∀ n pt bs hb tb st t0 lt ca sto fp,
       (blindBidsQuery now r1 n).2 = BlindBidsRevealed n pt bs hb tb st t0 lt ca sto fp →
       (st = closed ∨ st = sold) ∧ status <$> blindBids r1 !! n = Some st).
Proof.
  intros Heq. split; [|split; [|split]].
  - intros n. by apply blindBidsQuery_hidden.
  - pose proof (blind_equiv_fields _ _ Heq) as Hcur. destruct Heq as [_ Hbl].
    unfold roomBids. simpl. rewrite Hcur.
    rewrite (blind_views_hidden now (blindBids r1)), (blind_views_hidden now (blindBids r2)).
    by rewrite Hbl.
  - pose proof (blind_equiv_fields _ _ Heq) as Hcur. destruct Heq as [_ Hbl].
    unfold biddingHistory. simpl. rewrite Hcur.
    rewrite (blind_history_hidden (blindBids r1)), (blind_history_hidden (blindBids r2)).
    by rewrite Hbl.
  - intros n pt bs hb tb st t0 lt ca sto fp. unfold blindBidsQuery.
    destruct (blindBids r1 !! n) as [bd|]; [|done]. simpl.
    case_decide as Hact; [done|]. simpl. intros [= <- <- <- <- <- <- <- <- <- <-].
    split; [|done]. destruct (status bd); naive_solver.
Qed.

(** Two runs that differ only in the amount of team B's sealed bid answer
    the room-wide query alike while the session is active. *)
Lemma C8_witness :
  (roomBids 3 scenario_blind_tie).2 = (roomBids 3 scenario_blind_other).2.
Proof.
  refine (proj1 (proj2 (C8_blind_amounts_hidden 3 scenario_blind_tie scenario_blind_other _))).
  split; vm_compute; reflexivity.
Defined.

(** After the timeout the per-player query lists the sealed amounts. *)
Example blind_bids_revealed_after_close :
  let r' := (timerBlind example_catalog 300001 scenario_blind_tie "S").1 in
  ∃ pt bs hb tb t0 lt ca sto fp,
    (blindBidsQuery 300002 r' "S").2 = BlindBidsRevealed "S" pt bs hb tb sold t0 lt ca sto fp
    ∧ amount <$> bs = [200000; 200000].
Proof. vm_compute. by repeat eexists. Qed.

(** ** C10: the name sets do not survive a save and reload *)

Lemma find_map_to_list {A} (m : gmap string A) k x :
  m !! k = Some x →
  List.find (λ kv, bool_decide (kv.1 = k)) (map_to_list m) = Some (k, x).
Proof.
  intros Hk. destruct (List.find _ (map_to_list m)) as [[k' x']|] eqn:E.
  - apply find_some in E as [Hin Hp]. apply bool_decide_eq_true in Hp. simpl in Hp. subst k'.
    apply list_elem_of_In, elem_of_map_to_list in Hin. congruence.
  - eapply find_none in E; [|apply list_elem_of_In, elem_of_map_to_list, Hk].
    simpl in E. by rewrite bool_decide_eq_true_2 in E.
Qed.

Lemma find_key_map {A B} (f : A → B) (l : list (string * A)) k :
  List.find (λ kv, bool_decide (kv.1 = k)) ((λ kv, (kv.1, f kv.2)) <$> l)
  = (λ kv, (kv.1, f kv.2)) <$> List.find (λ kv, bool_decide (kv.1 = k)) l.
Proof.
  induction l as [|[k' x] l IH]; [done|]. cbn.
  destruct (bool_decide (k' = k)); [done|]. exact IH.
Qed.

Lemma find_key_reload (l : list (string * JValue)) k :
  List.find (λ kv, bool_decide (kv.1 = k)) (List.map (λ '(k, x), (k, reload x)) l)
  = (λ kv, (kv.1, reload kv.2)) <$> List.find (λ kv, bool_decide (kv.1 = k)) l.
Proof.
  induction l as [|[k' x] l IH]; [done|]. cbn.
  destruct (bool_decide (k' = k)); [done|]. exact IH.
Qed.

Lemma save_then_load_room rooms rid r :
  rooms !! rid = Some r → get_prop (save_then_load rooms) rid = Some (reload (js_room r)).
Proof.
  intros Hr. unfold save_then_load, js_map. cbn [reload get_prop].
  rewrite find_key_reload, find_key_map, (find_map_to_list _ _ _ Hr). done.
Qed.

(** C10 (the code departs from it). In memory the sold-name and
    dispatched-name sets answer membership; in the room read back after
    [saveRoomsToDB] and [loadRoomsFromDB] both fields are plain empty
    objects, on which [has] is not even defined: membership is lost for
    every name. *)
Theorem C10_sets_lost_on_reload rooms rid r n :
  rooms !! rid = Some r →
  sold_has (js_room r) n = Some (bool_decide (n ∈ soldPlayers r))
  ∧ sent_has (js_room r) n = Some (bool_decide (n ∈ sentPlayers (batchState r)))
  ∧ ∃ room', get_prop (save_then_load rooms) rid = Some room'
      ∧ sold_has room' n = None ∧ sent_has room' n = None.
Proof.
  intros Hr. split; [reflexivity|]. split; [reflexivity|].
  exists (reload (js_room r)). split; [by apply save_then_load_room|]. split; reflexivity.
Qed.


(** The room in which P has been sold, saved and read back. *)
Lemma C10_failing_input :
  let rooms : gmap string Room := {[ "room"%string := example_double_sale ]} in
  "P"%string ∈ soldPlayers example_double_sale
  ∧ ∃ room', get_prop (save_then_load rooms) "room" = Some room'
      ∧ sold_has room' "P" = None.
Proof.
  intros rooms.
  destruct (C10_sets_lost_on_reload rooms "room"%string example_double_sale "P"%string)
    as (_ & _ & room' & H1 & H2 & _); [apply lookup_singleton_eq|].
  split; [apply (bool_decide_unpack _); vm_compute; exact I|].
  exists room'. split; assumption.
Defined.

(** ** Batch dispatch over a catalog of distinct names *)

(** The dispatcher reads and writes the batch state only, and no other entry
    point touches it: requests interleaved with bids and purchases are served
    as in [requestAll]. *)
Lemma nextBatch_reads_batchState csv now now' r1 r2 :
  batchState r1 = batchState r2 →
  (nextBatch csv now r1).2 = (nextBatch csv now' r2).2
  ∧ batchState (nextBatch csv now r1).1 = batchState (nextBatch csv now' r2).1.
Proof.
  intros E. unfold nextBatch. rewrite E.
  repeat (case_match; simplify_eq/=); done.
Qed.

Lemma step_keeps_batchState csv r now op :
  op ≠ OpNextBatch → batchState (step csv r (now, op)).1.1 = batchState r.
Proof.
  intros Hop. destruct op; try done; unfold step; simpl;
    unfold selectPlayer, placeBid, placeBlindBid, startBidding, startBlindBidding,
      closeBidding, timerRegular, timerBlind, autoAwardPlayer, autoAwardBlindBidPlayer,
      resolve, close_response, playerBids, blindBidsQuery, roomBids, biddingHistory, joinRoom;
    repeat (case_match; simplify_eq/=); done.
Qed.

Lemma scan_batch_fresh rest size acc (sent : gset string) :
  (∀ p, p ∈ rest → name p ∉ sent) →
  NoDup (name <$> rest) →
  scan_batch rest size acc sent
  = (acc ++ (to_auction_player <$> take (size - length acc) rest),
     list_to_set (name <$> take (size - length acc) rest) ∪ sent).
Proof.
  revert acc sent. induction rest as [|p rest IH]; intros acc sent Hfresh Hnd; simpl.
  - rewrite take_nil. simpl. rewrite app_nil_r. f_equal. set_solver.
  - apply NoDup_cons in Hnd as [Hp Hnd]. case_decide as Hlen.
    + rewrite decide_False by (apply Hfresh; by left).
      rewrite IH; [| |done].
      * rewrite length_app. simpl.
        replace (size - length acc)%nat with (S (size - (length acc + 1)))%nat by lia.
        simpl. rewrite <- app_assoc. simpl. f_equal. set_solver.
      * intros q Hq. apply not_elem_of_union. split.
        -- intros Hq'%elem_of_singleton. apply Hp. rewrite <- Hq'.
           apply list_elem_of_fmap. by exists q.
        -- apply Hfresh. by right.
    + replace (size - length acc)%nat with 0%nat by lia. simpl.
      rewrite app_nil_r. f_equal. set_solver.
Qed.

Section dispatcher.
Variable csv : list Player.
Hypothesis names_unique : NoDup (name <$> priced_catalog csv).
Local Open Scope nat_scope.

Lemma in_cycle ty :
  ty ∈ CYCLE_ORDER ↔ ty = "BAT"%string ∨ ty = "AR"%string ∨ ty = "BOWL"%string ∨ ty = "WK"%string.
Proof. unfold CYCLE_ORDER. rewrite !elem_of_cons, elem_of_nil. naive_solver. Qed.

Lemma cycle_type_in i : i < length CYCLE_ORDER → cycle_type i ∈ CYCLE_ORDER.
Proof.
  intros Hi. apply in_cycle. simpl in Hi.
  destruct i as [|[|[|[|]]]]; try lia; vm_compute; tauto.
Qed.

Lemma BATCH_CONFIG_pos ty : ty ∈ CYCLE_ORDER → 0 < BATCH_CONFIG ty.
Proof. intros [-> | [-> | [-> | ->]]]%in_cycle; vm_compute; lia. Qed.

Lemma catalog_names_NoDup ty :
  ty ∈ CYCLE_ORDER → NoDup (name <$> mainAuctionPlayers csv ty).
Proof.
  pose proof names_unique as H. unfold priced_catalog, CYCLE_ORDER in H. simpl in H.
  rewrite app_nil_r, !fmap_app, !NoDup_app in H.
  intros [-> | [-> | [-> | ->]]]%in_cycle; naive_solver.
Qed.

Lemma catalog_names_disjoint ty1 ty2 x :
  ty1 ∈ CYCLE_ORDER → ty2 ∈ CYCLE_ORDER → ty1 ≠ ty2 →
  x ∈ name <$> mainAuctionPlayers csv ty1 → x ∉ name <$> mainAuctionPlayers csv ty2.
Proof.
  pose proof names_unique as H. unfold priced_catalog, CYCLE_ORDER in H. simpl in H.
  rewrite app_nil_r, !fmap_app, !NoDup_app in H.
  destruct H as (_ & H1 & _ & H2 & _ & H3 & _).
  intros [-> | [-> | [-> | ->]]]%in_cycle [-> | [-> | [-> | ->]]]%in_cycle Hne Hx Hx'; try done.
  all: first [ eapply H1; [exact Hx|]; rewrite !elem_of_app; by eauto
             | eapply H1; [exact Hx'|]; rewrite !elem_of_app; by eauto
             | eapply H2; [exact Hx|]; rewrite !elem_of_app; by eauto
             | eapply H2; [exact Hx'|]; rewrite !elem_of_app; by eauto
             | eapply H3; [exact Hx|]; by eauto
             | eapply H3; [exact Hx'|]; by eauto ].
Qed.

Lemma skip_count_le e i fuel : skip_count e i fuel ≤ fuel.
Proof.
  revert i. induction fuel as [|fuel IH]; intros i; simpl; [lia|].
  destruct (e i); [|lia]. specialize (IH ((i + 1) mod 4)). simpl in IH. lia.
Qed.

Lemma skip_count_ext e e' i fuel :
  (∀ j, e j = e' j) → skip_count e i fuel = skip_count e' i fuel.
Proof.
  intros He. revert i. induction fuel as [|fuel IH]; intros i; simpl; [done|].
  rewrite He. destruct (e' i); [|done]. by rewrite IH.
Qed.

Lemma skip_count_advance e i :
  i < 4 → e i = true → e 0 && e 1 && e 2 && e 3 = false →
  skip_count e ((i + 1) mod 4) 4 < skip_count e i 4.
Proof.
  intros Hi Hei Hall.
  destruct i as [|[|[|[|]]]]; try lia;
    change (length CYCLE_ORDER) with 4; cbn -[Nat.lt];
    destruct (e 0), (e 1), (e 2), (e 3); simpl in *; try done; lia.
Qed.

Lemma pointer_of_insert (tp : gmap string nat) T v ty :
  pointer_of (<[T := v]> tp) ty = if decide (T = ty) then v else pointer_of tp ty.
Proof. unfold pointer_of. rewrite lookup_insert. by case_decide. Qed.

Lemma allTypesExhausted_spec (tp : gmap string nat) :
  allTypesExhausted csv tp = true
  ↔ ∀ ty, ty ∈ CYCLE_ORDER → length (mainAuctionPlayers csv ty) ≤ pointer_of tp ty.
Proof.
  unfold allTypesExhausted. rewrite forallb_forall. split.
  - intros H ty Hty. apply list_elem_of_In in Hty. by apply (bool_decide_eq_true_1 _), H.
  - intros H ty Hty. apply list_elem_of_In in Hty. by apply bool_decide_eq_true_2, H.
Qed.

Lemma remaining_zero bs :
  remaining csv bs = 0
  ↔ ∀ ty, ty ∈ CYCLE_ORDER → length (mainAuctionPlayers csv ty) ≤ ptr bs ty.
Proof.
  unfold remaining, CYCLE_ORDER. simpl. split.
  - intros H ty [-> | [-> | [-> | ->]]]%in_cycle; lia.
  - intros H.
    pose proof (H "BAT"%string ltac:(apply in_cycle; tauto)).
    pose proof (H "AR"%string ltac:(apply in_cycle; tauto)).
    pose proof (H "BOWL"%string ltac:(apply in_cycle; tauto)).
    pose proof (H "WK"%string ltac:(apply in_cycle; tauto)). lia.
Qed.

Lemma NoDup_drop_names (l : list Player) n : NoDup (name <$> l) → NoDup (name <$> drop n l).
Proof.
  intros H. rewrite <- (take_drop n l), fmap_app in H. by apply NoDup_app in H as (_ & _ & ?).
Qed.

(** The batch collected at a state that satisfies the invariant. *)
Lemma nextBatch_scan bs :
  dispatch_inv csv bs →
  let T := cycle_type (currentCycleIndex bs) in
  let rest := drop (ptr bs T) (mainAuctionPlayers csv T) in
  scan_batch rest (BATCH_CONFIG T) [] (sentPlayers bs)
  = (to_auction_player <$> take (BATCH_CONFIG T) rest,
     list_to_set (name <$> take (BATCH_CONFIG T) rest) ∪ sentPlayers bs).
Proof.
  intros (Hidx & Hle & Hfresh) T rest.
  rewrite scan_batch_fresh.
  - simpl. by rewrite Nat.sub_0_r.
  - intros p Hp. eapply Hfresh; [|exact Hp]. by apply cycle_type_in.
  - apply NoDup_drop_names, catalog_names_NoDup. by apply cycle_type_in.
Qed.

Lemma nextBatch_complete now r :
  dispatch_inv csv (batchState r) → remaining csv (batchState r) = 0 →
  br_auctionComplete (nextBatch csv now r).2 = true.
Proof.
  intros Hinv Hrem. pose proof (nextBatch_scan _ Hinv) as Hscan. cbv zeta in Hscan.
  destruct Hinv as (Hidx & Hle & Hfresh).
  unfold nextBatch. unfold ptr in Hscan. rewrite Hscan. clear Hscan.
  set (T := cycle_type (currentCycleIndex (batchState r))).
  assert (T ∈ CYCLE_ORDER) as HT by (by apply cycle_type_in).
  assert (drop (pointer_of (typePointers (batchState r)) T) (mainAuctionPlayers csv T) = [])
    as Hdrop.
  { apply drop_ge. by apply remaining_zero. }
  rewrite Hdrop, take_nil. simpl length.
  rewrite decide_True by (by left).
  rewrite (proj2 (allTypesExhausted_spec _)); [done|].
  intros ty Hty. rewrite pointer_of_insert. case_decide; subst.
  - rewrite Nat.add_0_r. by apply remaining_zero.
  - by apply remaining_zero.
Qed.

Lemma remaining_update bs bs' T k :
  T ∈ CYCLE_ORDER →
  (∀ ty, ptr bs' ty = if decide (T = ty) then ptr bs T + k else ptr bs ty) →
  ptr bs T + k ≤ length (mainAuctionPlayers csv T) →
  remaining csv bs' + k = remaining csv bs.
Proof.
  intros HT Hptr Hle. unfold remaining, CYCLE_ORDER. simpl. rewrite !Hptr.
  apply in_cycle in HT as [-> | [-> | [-> | ->]]];
    repeat (case_decide; simplify_eq); lia.
Qed.

Lemma exhausted_ext bs bs' ty : ptr bs' ty = ptr bs ty → exhausted csv bs' ty = exhausted csv bs ty.
Proof. unfold exhausted. by intros ->. Qed.

Lemma take_nil_inv {A} (l : list A) n : 0 < n → take n l = [] → l = [].
Proof. destruct n, l; simpl; intros; try lia; done. Qed.

Lemma drop_length_take {A} (l : list A) n : drop (length (take n l)) l = drop n l.
Proof.
  rewrite length_take. destruct (decide (n ≤ length l)).
  - by rewrite Nat.min_l.
  - rewrite Nat.min_r by lia. rewrite drop_all. by rewrite drop_ge by lia.
Qed.

Lemma not_all_exhausted bs :
  remaining csv bs ≠ 0 →
  let e := λ i, exhausted csv bs (cycle_type i) in
  e 0 && e 1 && e 2 && e 3 = false.
Proof.
  intros Hrem e. destruct (e 0 && e 1 && e 2 && e 3) eqn:E; [|done].
  exfalso. apply Hrem, remaining_zero.
  apply andb_prop in E as [E E3]. apply andb_prop in E as [E E2].
  apply andb_prop in E as [E0 E1].
  apply (bool_decide_eq_true_1 _) in E0, E1, E2, E3.
  intros ty [-> | [-> | [-> | ->]]]%in_cycle; assumption.
Qed.

(** The result of one request at a state where some player is still to be
    served: the cursor stays or advances, and advances on an empty batch. *)
Lemma nextBatch_result now r :
  dispatch_inv csv (batchState r) → remaining csv (batchState r) ≠ 0 →
  let bs := batchState r in
  let T := cycle_type (currentCycleIndex bs) in
  let taken := take (BATCH_CONFIG T) (drop (ptr bs T) (mainAuctionPlayers csv T)) in
  ∃ idx',
    (idx' = currentCycleIndex bs ∨ idx' = (currentCycleIndex bs + 1) mod length CYCLE_ORDER)
    ∧ (taken = [] → idx' = (currentCycleIndex bs + 1) mod length CYCLE_ORDER)
    ∧ nextBatch csv now r
      = (set_lastActivity
           (set_batchState r
              (mkBatchState idx' (list_to_set (name <$> taken) ∪ sentPlayers bs)
                 (<[T := ptr bs T + length taken]> (typePointers bs)))) now,
         mkBatchResponse (to_auction_player <$> taken) (Some T) (Some (cycle_type idx'))
           (Some (BATCH_CONFIG T)) (Some (length taken))
           (Some (size (list_to_set (name <$> taken) ∪ sentPlayers bs))) false false).
Proof.
  intros Hinv Hrem. cbv zeta.
  pose proof (nextBatch_scan _ Hinv) as Hscan. cbv zeta in Hscan.
  unfold nextBatch. cbv zeta. unfold ptr in *. rewrite Hscan. clear Hscan.
  remember (batchState r) as bs eqn:Ebs.
  remember (cycle_type (currentCycleIndex bs)) as T eqn:ET.
  remember (pointer_of (typePointers bs) T) as start eqn:Estart.
  remember (take (BATCH_CONFIG T) (drop start (mainAuctionPlayers csv T))) as taken eqn:Etaken.
  rewrite length_fmap.
  destruct taken as [|a taken'].
  - rewrite decide_True by (by left). simpl length. rewrite Nat.add_0_r.
    assert (allTypesExhausted csv (<[T:=start]> (typePointers bs)) = false) as ->.
    { destruct (allTypesExhausted _ _) eqn:E; [|done]. exfalso. apply Hrem.
      apply remaining_zero. intros ty Hty.
      apply allTypesExhausted_spec with (ty := ty) in E; [|done].
      rewrite pointer_of_insert in E. unfold ptr. case_decide; by subst. }
    simpl. eexists. split; [by right|]. done.
  - case_decide.
    + rewrite andb_false_r. eexists. split; [by right|]. done.
    + eexists. split; [by left|]. split; [done|]. by rewrite <- ET.
Qed.

(** One request at a state where some player is still to be served. *)
Lemma nextBatch_progress now r :
  dispatch_inv csv (batchState r) → remaining csv (batchState r) ≠ 0 →
  let bs := batchState r in
  let T := cycle_type (currentCycleIndex bs) in
  let taken := take (BATCH_CONFIG T) (drop (ptr bs T) (mainAuctionPlayers csv T)) in
  let out := nextBatch csv now r in
  let bs' := batchState out.1 in
  br_auctionComplete out.2 = false
  ∧ br_players out.2 = to_auction_player <$> taken
  ∧ br_currentType out.2 = Some T
  ∧ dispatch_inv csv bs'
  ∧ (∀ ty, ptr bs' ty = if decide (T = ty) then ptr bs T + length taken else ptr bs ty)
  ∧ dispatch_measure csv bs' < dispatch_measure csv bs.
Proof.
  intros Hinv Hrem. cbv zeta.
  destruct (nextBatch_result now r Hinv Hrem) as (idx' & Hidx' & Hadv & ->).
  cbv zeta in Hadv. cbn [fst snd batchState set_lastActivity set_batchState
    br_auctionComplete br_players br_currentType].
  destruct Hinv as (Hidx & Hle & Hfresh).
  remember (batchState r) as bs eqn:Ebs.
  remember (cycle_type (currentCycleIndex bs)) as T eqn:ET.
  assert (T ∈ CYCLE_ORDER) as HT by (subst T; by apply cycle_type_in).
  pose proof (catalog_names_NoDup T HT) as HndT.
  remember (mainAuctionPlayers csv T) as avail eqn:Eavail.
  remember (ptr bs T) as start eqn:Estart.
  remember (take (BATCH_CONFIG T) (drop start avail)) as taken eqn:Etaken.
  assert (start + length taken ≤ length avail) as Hk.
  { subst taken. rewrite length_take, length_drop. pose proof (Hle T HT). subst. lia. }
  remember (mkBatchState idx' (list_to_set (name <$> taken) ∪ sentPlayers bs)
              (<[T:=start + length taken]> (typePointers bs))) as bs' eqn:Ebs'.
  assert (∀ ty, ptr bs' ty = if decide (T = ty) then start + length taken else ptr bs ty)
    as Hptr.
  { intros ty. rewrite Ebs'. unfold ptr. simpl. apply pointer_of_insert. }
  repeat split; try done.
  - (* cursor *)
    rewrite Ebs'. simpl. destruct Hidx' as [->| ->]; [done|].
    apply Nat.mod_upper_bound. done.
  - (* pointers *)
    intros ty Hty. rewrite Hptr. case_decide; subst; [done|by apply Hle].
  - (* freshness *)
    intros ty pl Hty Hpl. rewrite Hptr in Hpl. rewrite Ebs'. simpl.
    apply not_elem_of_union. split.
    + rewrite elem_of_list_to_set. intros Hin.
      case_decide as Hty'.
      * subst ty. rewrite <- Eavail in Hpl.
        assert (NoDup (name <$> (taken ++ drop (length taken) (drop start avail)))) as Hnd.
        { rewrite Etaken. rewrite drop_length_take, take_drop.
          by apply NoDup_drop_names. }
        rewrite fmap_app in Hnd. apply NoDup_app in Hnd as (_ & Hdis & _).
        apply (Hdis _ Hin). apply list_elem_of_fmap. exists pl. split; [done|].
        by rewrite drop_drop.
      * eapply (catalog_names_disjoint T ty); [done..| |].
        -- eapply list_elem_of_fmap in Hin as (q & Hname & Hq).
           apply list_elem_of_fmap. exists q. split; [done|].
           rewrite Etaken in Hq. rewrite <- Eavail. by eapply subseteq_drop, subseteq_take.
        -- apply list_elem_of_fmap. exists pl. split; [done|]. by eapply subseteq_drop.
    + case_decide as Hty'.
      * subst ty. eapply Hfresh; [exact HT|]. rewrite <- Eavail, <- Estart.
        rewrite <- Eavail, <- drop_drop in Hpl. by eapply subseteq_drop.
      * by eapply Hfresh.
  - (* measure *)
    unfold dispatch_measure.
    destruct taken as [|a taken'].
    + assert (∀ ty, ptr bs' ty = ptr bs ty) as Hsame.
      { intros ty. rewrite Hptr. simpl. case_decide; subst; lia. }
      assert (remaining csv bs' = remaining csv bs) as ->.
      { unfold remaining. simpl. by rewrite !Hsame. }
      rewrite (skip_count_ext _ (λ i, exhausted csv bs (cycle_type i)))
        by (intros; by apply exhausted_ext).
      rewrite Ebs'. simpl currentCycleIndex. rewrite (Hadv eq_refl).
      apply Nat.add_lt_mono_l. apply skip_count_advance; [done| |by apply not_all_exhausted].
      apply bool_decide_eq_true_2.
      symmetry in Etaken. apply take_nil_inv in Etaken; [|by apply BATCH_CONFIG_pos].
      apply (f_equal length) in Etaken. rewrite length_drop in Etaken. simpl in Etaken.
      rewrite <- ET, <- Eavail, <- Estart. lia.
    + pose proof (remaining_update bs bs' T (length (a :: taken')) HT) as Hr.
      rewrite <- Estart, <- Eavail in Hr. specialize (Hr Hptr Hk).
      pose proof (skip_count_le (λ i, exhausted csv bs' (cycle_type i))
                    (currentCycleIndex bs') 4).
      simpl length in Hr. lia.
Qed.

Lemma mainAuctionPlayers_elem ty p :
  p ∈ mainAuctionPlayers csv ty → type p = ty ∧ basePrice p ≠ None.
Proof.
  unfold mainAuctionPlayers. case_decide; [|by intros ?%elem_of_nil].
  rewrite sort_desc_elem_of. unfold playersWithBase.
  rewrite !list_elem_of_filter. naive_solver.
Qed.

Lemma served_for_cons ty b bs :
  served_for ty (b :: bs)
  = (if bool_decide (br_currentType b = Some ty) then br_players b else [])
    ++ served_for ty bs.
Proof. unfold served_for. simpl. by destruct (bool_decide _). Qed.

Lemma requestAll_complete now fuel : ∀ r,
  dispatch_inv csv (batchState r) →
  dispatch_measure csv (batchState r) < fuel →
  ∃ bs, requestAll csv now fuel r = (bs, true)
    ∧ (∀ ty, ty ∈ CYCLE_ORDER →
         served_for ty bs
         = to_auction_player <$> drop (ptr (batchState r) ty) (mainAuctionPlayers csv ty))
    ∧ Forall batch_typed bs.
Proof.
  induction fuel as [|fuel IH]; intros r Hinv Hlt; [lia|].
  destruct (decide (remaining csv (batchState r) = 0)) as [Hz|Hnz].
  - pose proof (nextBatch_complete now r Hinv Hz) as Hc.
    exists []. simpl. destruct (nextBatch csv now r) as [r' b]. simpl in Hc. rewrite Hc.
    split; [done|]. split; [|constructor].
    intros ty Hty. rewrite drop_ge; [done|]. by apply remaining_zero.
  - pose proof (nextBatch_progress now r Hinv Hnz) as Hp. cbv zeta in Hp.
    simpl. destruct (nextBatch csv now r) as [r' b]. simpl in Hp.
    destruct Hp as (Hc & Hpl & Hty & Hinv' & Hptr & Hm). rewrite Hc.
    destruct (IH r' Hinv') as (bs & Hreq & Hserved & Hall); [lia|].
    rewrite Hreq. exists (b :: bs). split; [done|].
    set (T := cycle_type (currentCycleIndex (batchState r))) in *.
    assert (T ∈ CYCLE_ORDER) as HT by (apply cycle_type_in, Hinv).
    split.
    + intros ty Hin. rewrite served_for_cons, Hty, (Hserved ty Hin), Hptr, Hpl.
      case_decide as HTty.
      * subst ty. rewrite bool_decide_eq_true_2 by done.
        rewrite <- fmap_app. f_equal.
        rewrite <- drop_drop, drop_length_take. apply take_drop.
      * rewrite bool_decide_eq_false_2 by congruence. done.
    + constructor; [|done]. exists T. split; [done|]. split; [done|].
      intros p Hp. rewrite Hpl in Hp.
      apply list_elem_of_fmap in Hp as (q & -> & Hq). simpl.
      eapply mainAuctionPlayers_elem. by eapply subseteq_drop, subseteq_take.
Qed.

Lemma concat_served bs :
  Forall batch_typed bs →
  concat (br_players <$> bs) ≡ₚ concat ((λ ty, served_for ty bs) <$> CYCLE_ORDER).
Proof.
  induction 1 as [|b bs (ty & Hty & Hb & _) _ IH]; [done|].
  simpl. rewrite IH. unfold CYCLE_ORDER. simpl. rewrite !served_for_cons, Hb.
  apply in_cycle in Hty as [-> | [-> | [-> | ->]]];
    repeat (first [rewrite bool_decide_eq_true_2 by done
                  |rewrite bool_decide_eq_false_2 by done]);
    simpl; solve_Permutation.
Qed.

Lemma initial_dispatch_inv bs : bs = initial_batchState → dispatch_inv csv bs.
Proof.
  intros ->. split; [simpl; lia|]. split.
  - intros ty [-> | [-> | [-> | ->]]]%in_cycle; vm_compute; lia.
  - intros ty pl _ _. simpl. set_solver.
Qed.

Lemma initial_ptr ty : ty ∈ CYCLE_ORDER → ptr initial_batchState ty = 0.
Proof. by intros [-> | [-> | [-> | ->]]]%in_cycle. Qed.

Lemma mainAuctionPlayers_sorted ty :
  StronglySorted (desc basePrice_key) (mainAuctionPlayers csv ty).
Proof.
  unfold mainAuctionPlayers. case_decide; [apply sort_desc_sorted|constructor].
Qed.

Lemma nextBatch_complete_state now r :
  dispatch_inv csv (batchState r) → remaining csv (batchState r) = 0 →
  let out := nextBatch csv now r in
  br_auctionComplete out.2 = true
  ∧ dispatch_inv csv (batchState out.1)
  ∧ ∀ ty, ptr (batchState out.1) ty = ptr (batchState r) ty.
Proof.
  intros Hinv Hrem. cbv zeta.
  pose proof (nextBatch_scan _ Hinv) as Hscan. cbv zeta in Hscan.
  destruct Hinv as (Hidx & Hle & Hfresh).
  unfold nextBatch. unfold ptr in Hscan. rewrite Hscan. clear Hscan.
  set (T := cycle_type (currentCycleIndex (batchState r))).
  assert (T ∈ CYCLE_ORDER) as HT by (by apply cycle_type_in).
  assert (drop (pointer_of (typePointers (batchState r)) T) (mainAuctionPlayers csv T) = [])
    as Hdrop.
  { apply drop_ge. by apply remaining_zero. }
  rewrite Hdrop, take_nil. simpl length.
  rewrite decide_True by (by left).
  assert (∀ ty, pointer_of (<[T:=pointer_of (typePointers (batchState r)) T + 0]>
                               (typePointers (batchState r))) ty
                = pointer_of (typePointers (batchState r)) ty) as Hsame.
  { intros ty. rewrite pointer_of_insert. case_decide; subst; lia. }
  rewrite (proj2 (allTypesExhausted_spec _)).
  2:{ intros ty Hty. rewrite Hsame. by apply remaining_zero. }
  cbn [andb bool_decide fst snd batchState set_batchState br_auctionComplete].
  rewrite bool_decide_eq_true_2 by done.
  cbn [fst snd batchState set_batchState br_auctionComplete].
  split; [done|]. split; [|exact Hsame].
  unfold dispatch_inv, ptr. cbn [currentCycleIndex sentPlayers typePointers].
  split; [apply Nat.mod_upper_bound; done|]. split.
  - intros ty Hty. rewrite Hsame. by apply Hle.
  - intros ty pl Hty. rewrite Hsame. intros Hpl.
    apply not_elem_of_union. split; [set_solver|]. by eapply Hfresh.
Qed.

Lemma served_for_app ty h1 h2 :
  served_for ty (h1 ++ h2) = served_for ty h1 ++ served_for ty h2.
Proof. unfold served_for. by rewrite List.filter_app, fmap_app, concat_app. Qed.

Lemma take_take_taken {A} (l : list A) n m :
  take n l ++ take m (drop n l) = take (n + length (take m (drop n l))) l.
Proof.
  rewrite take_take_drop, length_take, length_drop.
  destruct (decide (m ≤ length l - n)).
  - by rewrite Nat.min_l.
  - rewrite Nat.min_r by lia. rewrite !take_ge by lia. done.
Qed.

Lemma batches_of_cons r ev evs :
  batches_of csv r (ev :: evs)
  = batches_of csv r [ev] ++ batches_of csv (step csv r ev).1.1 evs.
Proof. simpl. destruct ev.2; try done. by destruct (br_auctionComplete _). Qed.

Lemma dispatch_history_step r ev hist :
  dispatch_history csv (batchState r) hist →
  dispatch_history csv (batchState (step csv r ev).1.1) (hist ++ batches_of csv r [ev]).
Proof.
  intros (Hinv & Hserved & Htyped). destruct ev as [now op].
  assert (op = OpNextBatch ∨ op ≠ OpNextBatch) as [->|Hop]
    by (destruct op; first [by left|by right]).
  2:{ rewrite step_keeps_batchState by done.
      replace (batches_of csv r [(now, op)]) with (@nil BatchResponse) by (by destruct op).
      rewrite app_nil_r. done. }
  unfold step. simpl.
  destruct (decide (remaining csv (batchState r) = 0)) as [Hz|Hnz].
  - destruct (nextBatch_complete_state now r Hinv Hz) as (Hc & Hinv' & Hptr).
    destruct (nextBatch csv now r) as [r' b]. simpl in *. rewrite Hc, app_nil_r.
    split; [done|]. split; [|done].
    intros ty Hty. rewrite Hptr. by apply Hserved.
  - pose proof (nextBatch_progress now r Hinv Hnz) as Hp. cbv zeta in Hp.
    destruct (nextBatch csv now r) as [r' b]. simpl in *.
    destruct Hp as (Hc & Hpl & Hty & Hinv' & Hptr & _). rewrite Hc.
    set (T := cycle_type (currentCycleIndex (batchState r))) in *.
    assert (T ∈ CYCLE_ORDER) as HT by (apply cycle_type_in, Hinv).
    split; [done|]. split.
    + intros ty Hin. rewrite served_for_app, (Hserved ty Hin), Hptr.
      unfold served_for at 1. simpl. rewrite Hty.
      case_decide as HTty.
      * subst ty. rewrite bool_decide_eq_true_2 by done. simpl.
        rewrite app_nil_r, Hpl, <- fmap_app. f_equal. apply take_take_taken.
      * rewrite bool_decide_eq_false_2 by congruence. simpl. by rewrite app_nil_r.
    + apply Forall_app. split; [done|]. constructor; [|constructor].
      exists T. split; [done|]. split; [done|].
      intros p Hp. rewrite Hpl in Hp.
      apply list_elem_of_fmap in Hp as (q & -> & Hq). simpl.
      eapply mainAuctionPlayers_elem. by eapply subseteq_drop, subseteq_take.
Qed.

Lemma dispatch_history_run evs : ∀ r hist,
  dispatch_history csv (batchState r) hist →
  dispatch_history csv (batchState (run csv r evs)) (hist ++ batches_of csv r evs).
Proof.
  induction evs as [|ev evs IH]; intros r hist H.
  - simpl. by rewrite app_nil_r.
  - rewrite batches_of_cons, app_assoc.
    change (run csv r (ev :: evs)) with (run csv (step csv r ev).1.1 evs).
    apply IH. by apply dispatch_history_step.
Qed.

Lemma dispatch_history_new rid usernames b now :
  dispatch_history csv (batchState (newRoom rid usernames b now)) [].
Proof.
  split; [by apply initial_dispatch_inv|]. split; [|constructor].
  intros ty Hty. simpl. by rewrite initial_ptr, take_0.
Qed.

(** With the names of the priced catalog pairwise distinct, in every room
    reached from its creation
    by any sequence of entry points, repeated requests reach
    [auctionComplete]; the batches answered since the creation of the room
    then serve, for each type, exactly that type's list in its order
    (descending base price), each batch holds players of the type served
    only, and together the batches are the priced catalog, each name once. *)
Theorem batch_dispatch_distinct_names rid usernames b now evs now' :
  let r0 := newRoom rid usernames b now in
  ∃ fuel bs,
    requestAll csv now' fuel (run csv r0 evs) = (bs, true)
    ∧ let all := batches_of csv r0 evs ++ bs in
      (∀ ty, ty ∈ CYCLE_ORDER →
         served_for ty all = to_auction_player <$> mainAuctionPlayers csv ty)
      ∧ (∀ b p, b ∈ all → p ∈ br_players b → br_currentType b = Some (ap_type p))
      ∧ concat (br_players <$> all) ≡ₚ to_auction_player <$> priced_catalog csv
      ∧ NoDup (ap_name <$> concat (br_players <$> all))
      ∧ (∀ ty, ty ∈ CYCLE_ORDER →
           StronglySorted (desc (λ p, default 0%Z (ap_basePrice p))) (served_for ty all)).
Proof.
  intros r0.
  pose proof (dispatch_history_run evs r0 [] (dispatch_history_new rid usernames b now))
    as (Hinv & Hhist & Htyped). simpl in Hhist, Htyped.
  set (r := run csv r0 evs) in *. set (hist := batches_of csv r0 evs) in *.
  destruct (requestAll_complete now'
              (S (dispatch_measure csv (batchState r))) r Hinv)
    as (bs & Hreq & Hserved & Hall); [lia|].
  assert (Forall batch_typed (hist ++ bs)) as Hall' by (by apply Forall_app).
  assert (∀ ty, ty ∈ CYCLE_ORDER →
            served_for ty (hist ++ bs) = to_auction_player <$> mainAuctionPlayers csv ty)
    as Hs.
  { intros ty Hty. rewrite served_for_app, (Hhist ty Hty), (Hserved ty Hty), <- fmap_app.
    by rewrite take_drop. }
  assert (concat (br_players <$> hist ++ bs) ≡ₚ to_auction_player <$> priced_catalog csv)
    as Hperm.
  { rewrite (concat_served _ Hall'). unfold priced_catalog, CYCLE_ORDER. simpl.
    rewrite !Hs by (apply in_cycle; tauto). by rewrite !fmap_app. }
  eexists _, bs. split; [exact Hreq|]. cbv zeta.
  split; [exact Hs|]. split; [|split; [done|split]].
  - intros b0 p Hb Hp. rewrite Forall_forall in Hall'.
    destruct (Hall' b0 Hb) as (ty & _ & -> & Hpl). by rewrite (Hpl p Hp).
  - rewrite Hperm. rewrite <- list_fmap_compose. exact names_unique.
  - intros ty Hty. rewrite (Hs ty Hty).
    pose proof (mainAuctionPlayers_sorted ty) as Hsorted.
    induction Hsorted as [|p l Hl IH Hp]; simpl; constructor; [done|].
    rewrite Forall_fmap. exact Hp.
Qed.
End dispatcher.

(** The example catalog is served in full in the example room, one request
    having been made before team A's bid and the others after it. *)
Lemma batch_dispatch_example :
  let r0 := example_room in
  let evs := [(1, OpNextBatch); (2, OpPlaceBid "P" 100000 "A" "x")]%string in
  ∃ fuel bs,
    requestAll example_catalog 3 fuel (run example_catalog r0 evs) = (bs, true)
    ∧ let all := batches_of example_catalog r0 evs ++ bs in
      (∀ ty, ty ∈ CYCLE_ORDER →
         served_for ty all = to_auction_player <$> mainAuctionPlayers example_catalog ty)
      ∧ (∀ b p, b ∈ all → p ∈ br_players b → br_currentType b = Some (ap_type p))
      ∧ concat (br_players <$> all) ≡ₚ to_auction_player <$> priced_catalog example_catalog
      ∧ NoDup (ap_name <$> concat (br_players <$> all))
      ∧ (∀ ty, ty ∈ CYCLE_ORDER →
           StronglySorted (desc (λ p, default 0 (ap_basePrice p))) (served_for ty all)).
Proof.
  apply (batch_dispatch_distinct_names example_catalog).
  apply (bool_decide_unpack _). vm_compute. exact I.
Defined.

(** ** C3: the dispatcher stalls on a repeated name *)

Lemma stalled_room_empty_batch i :
  (i < 4)%nat →
  ∃ b, nextBatch repeated_name_catalog 1 (stalled_room i)
       = (stalled_room ((i + 1) mod 4), b)
       ∧ br_auctionComplete b = false ∧ br_players b = [].
Proof.
  intros Hi. destruct i as [|[|[|[|]]]]; try lia; eexists;
    (split; [vm_compute; reflexivity|done]).
Qed.

Lemma stalled_room_serves_nothing fuel : ∀ i,
  (i < 4)%nat →
  (requestAll repeated_name_catalog 1 fuel (stalled_room i)).2 = false
  ∧ concat (br_players <$> (requestAll repeated_name_catalog 1 fuel (stalled_room i)).1) = [].
Proof.
  induction fuel as [|fuel IH]; intros i Hi; [done|]. simpl.
  destruct (stalled_room_empty_batch i Hi) as (b & -> & -> & Hb).
  specialize (IH ((i + 1) mod 4)%nat (Nat.mod_upper_bound _ 4 ltac:(lia))).
  destruct (requestAll _ _ _ _) as [bs done]. simpl in *. by rewrite Hb.
Qed.

(** C3 (the code departs from it).  A catalog whose two priced batsmen carry
    the same name: the priced catalog has two rows, but however many times
    [/next-batch] is requested from a fresh room, [auctionComplete] is never
    answered and the second row is never served; all that is ever served is
    the first row, in the first batch.  The request that skips the
    dispatched name leaves the BAT pointer at 1, the number of players
    collected, not at 2, the position scanned to. *)
Theorem C3_dispatch_stalls_on_repeated_name fuel :
  length (priced_catalog repeated_name_catalog) = 2%nat
  ∧ (requestAll repeated_name_catalog 1 fuel example_room).2 = false
  ∧ concat (br_players <$> (requestAll repeated_name_catalog 1 (S fuel) example_room).1)
    = [mkAuctionPlayer "X" "MI" "BAT" (Some 100)]
  ∧ ptr (batchState (run repeated_name_catalog example_room
                       [(1, OpNextBatch); (2, OpNextBatch)])) "BAT" = 1%nat.
Proof.
  split; [reflexivity|].
  assert (Hfirst : nextBatch repeated_name_catalog 1 example_room
          = (stalled_room 0,
             mkBatchResponse [mkAuctionPlayer "X" "MI" "BAT" (Some 100)]
               (Some "BAT"%string) (Some "BAT"%string) (Some 8%nat) (Some 1%nat)
               (Some 1%nat) false false)) by (vm_compute; reflexivity).
  split; [|split; [|vm_compute; reflexivity]].
  - destruct fuel as [|fuel]; [done|]. simpl. rewrite Hfirst. simpl.
    pose proof (stalled_room_serves_nothing fuel 0%nat ltac:(lia)) as [H _].
    by destruct (requestAll _ _ _ _).
  - cbn [requestAll]. rewrite Hfirst. cbn [br_auctionComplete].
    pose proof (stalled_room_serves_nothing fuel 0%nat ltac:(lia)) as [_ H].
    destruct (requestAll _ _ _ _) as [bs done]. cbn [fst snd] in *.
    rewrite fmap_cons. cbn [concat br_players]. rewrite H. reflexivity.
Qed.

(** * Further properties of the engine *)

(** ** Teams: balance, roster cap and append-only rosters *)

Lemma ledger_change_team_ok r r' :
  budgetPerUser r ≠ 0 →
  ledger_change r r' →
  map_Forall (λ _ t, team_ok (budgetPerUser r) t) (users r) →
  map_Forall (λ _ t, team_ok (budgetPerUser r) t) (users r').
Proof.
  intros Hb Hl Hm. destruct Hl as [Hu _|k t pp Hk Hu _ Hp Hn|k Hk Hu _]; rewrite Hu.
  - done.
  - apply map_Forall_insert_2; [|done].
    destruct (Hm k t Hk) as (H2 & H3). unfold team_ok.
    simpl. rewrite length_app. simpl. pose proof (js_sub_nonneg _ _ Hp). split; lia.
  - apply map_Forall_insert_2; [|done].
    unfold team_ok, or_default_budget. rewrite decide_False by done.
    simpl. unfold MAX_PLAYERS_PER_TEAM. split; lia.
Qed.

Lemma newRoom_team_ok rid usernames b now :
  map_Forall (λ _ t, team_ok (or_default_budget b) t) (users (newRoom rid usernames b now)).
Proof.
  intros k t Hk. apply newRoom_users_fresh in Hk as [Hb Hp].
  unfold team_ok. rewrite Hb, Hp. simpl. unfold MAX_PLAYERS_PER_TEAM. split; lia.
Qed.

Lemma reachable_team_ok csv r :
  reachable csv r → map_Forall (λ _ t, team_ok (budgetPerUser r) t) (users r).
Proof.
  induction 1 as [rid usernames b now|r ev Hr IH].
  - apply newRoom_team_ok.
  - rewrite step_budgetPerUser. apply ledger_change_team_ok; [|apply step_ledger|done].
    by eapply reachable_budgetPerUser.
Qed.

Lemma run_budgetPerUser csv r evs : budgetPerUser (run csv r evs) = budgetPerUser r.
Proof.
  induction evs as [|ev evs IH] using rev_ind; [done|].
  by rewrite run_snoc, step_budgetPerUser.
Qed.

(** X2. No roster ever exceeds [MAX_PLAYERS_PER_TEAM] entries, whichever
    path (direct purchase, regular or blind resolution) added them. *)
Theorem roster_within_cap csv rid usernames b now evs :
  map_Forall (λ _ t, (length (players t) ≤ MAX_PLAYERS_PER_TEAM)%nat)
    (users (run csv (newRoom rid usernames b now) evs)).
Proof.
  intros k t Hk.
  pose proof (reachable_team_ok csv _ (reachable_run csv rid usernames b now evs) k t Hk) as H.
  apply H.
Qed.

(** X3. No purchase overdraws a team: with a non-negative per-team budget no
    balance ever falls below zero (with a negative one, never below it). *)
Theorem budget_never_overdrawn csv rid usernames b now evs :
  map_Forall (λ _ t, Z.min 0 (or_default_budget b) ≤ budget t)
    (users (run csv (newRoom rid usernames b now) evs)).
Proof.
  intros k t Hk.
  pose proof (reachable_team_ok csv _ (reachable_run csv rid usernames b now evs) k t Hk) as H.
  rewrite run_budgetPerUser in H. apply H.
Qed.

Lemma ledger_change_on_roster r r' n :
  ledger_change r r' →
  (n ∈ soldPlayers r ↔ on_roster r n) → (n ∈ soldPlayers r' ↔ on_roster r' n).
Proof.
  intros [Hu Hs|k t pp Hk Hu Hs _ _|k Hk Hu Hs] IH; unfold on_roster in *; rewrite Hu, Hs.
  - done.
  - rewrite elem_of_union, elem_of_singleton, IH. split.
    + intros [->|(k' & t' & pp' & Hk' & Hin & Hn)].
      * exists k, (buy t pp), pp. rewrite lookup_insert_eq. simpl. set_solver.
      * destruct (decide (k' = k)) as [->|Hne].
        -- exists k, (buy t pp), pp'. rewrite lookup_insert_eq. simplify_eq. simpl. set_solver.
        -- exists k', t', pp'. by rewrite lookup_insert_ne.
    + intros (k' & t' & pp' & Hk' & Hin & Hn).
      destruct (decide (k' = k)) as [->|Hne].
      * rewrite lookup_insert_eq in Hk'. simplify_eq. simpl in Hin.
        apply elem_of_app in Hin as [Hin|Hin%list_elem_of_singleton]; [|left; by subst].
        right. by exists k, t, pp'.
      * rewrite lookup_insert_ne in Hk' by done. right. by exists k', t', pp'.
  - rewrite IH. split; intros (k' & t' & pp' & Hk' & Hin & Hn).
    + exists k', t', pp'. rewrite lookup_insert_ne; [done|]. intros ->. by rewrite Hk in Hk'.
    + destruct (decide (k' = k)) as [->|Hne].
      * rewrite lookup_insert_eq in Hk'. simplify_eq. simpl in Hin. by apply elem_of_nil in Hin.
      * rewrite lookup_insert_ne in Hk' by done. by exists k', t', pp'.
Qed.

(** X4. In every room reached from its creation, a name is in [soldPlayers]
    exactly when some roster holds a record for it. *)
Theorem sold_iff_on_roster csv rid usernames b now evs n :
  n ∈ soldPlayers (run csv (newRoom rid usernames b now) evs)
  ↔ on_roster (run csv (newRoom rid usernames b now) evs) n.
Proof.
  induction evs as [|ev evs IH] using rev_ind.
  - simpl. split; [set_solver|]. intros (k & t & pp & Hk & Hin & _).
    apply newRoom_users_fresh in Hk as [_ Hp]. rewrite Hp in Hin. by apply elem_of_nil in Hin.
  - rewrite run_snoc. eapply ledger_change_on_roster; [apply step_ledger|done].
Qed.

Lemma ledger_change_grows r r' :
  ledger_change r r' →
  soldPlayers r ⊆ soldPlayers r'
  ∧ ∀ k t, users r !! k = Some t →
      ∃ t', users r' !! k = Some t' ∧ username t' = username t
            ∧ players t `prefix_of` players t'.
Proof.
  intros [Hu Hs|k t pp Hk Hu Hs _ _|k Hk Hu Hs]; rewrite Hu, Hs; (split; [set_solver|]);
    intros k' t' Hk'.
  - by exists t'.
  - destruct (decide (k' = k)) as [->|Hne].
    + simplify_eq. exists (buy t pp). rewrite lookup_insert_eq. simpl.
      split_and!; [done..|]. by apply prefix_app_r.
    + exists t'. by rewrite lookup_insert_ne.
  - exists t'. rewrite lookup_insert_ne; [done|]. intros ->. by rewrite Hk in Hk'.
Qed.

Lemma run_grows csv r evs :
  soldPlayers r ⊆ soldPlayers (run csv r evs)
  ∧ ∀ k t, users r !! k = Some t →
      ∃ t', users (run csv r evs) !! k = Some t' ∧ username t' = username t
            ∧ players t `prefix_of` players t'.
Proof.
  induction evs as [|ev evs [IH1 IH2]] using rev_ind.
  - split; [done|]. intros k t Hk. by exists t.
  - rewrite run_snoc.
    destruct (ledger_change_grows _ _ (step_ledger csv (run csv r evs) ev)) as [H1 H2].
    split; [set_solver|]. intros k t Hk.
    destruct (IH2 k t Hk) as (t1 & Hk1 & Hu1 & Hp1).
    destruct (H2 k t1 Hk1) as (t2 & Hk2 & Hu2 & Hp2).
    exists t2. split_and!; [done|congruence|by etrans].
Qed.

(** X5. Teams are never removed and rosters are append-only: after any
    sequence of entry points a team is still registered under its key, with
    its former roster as a prefix of the present one. *)
Theorem roster_append_only csv r evs k t :
  users r !! k = Some t →
  ∃ t', users (run csv r evs) !! k = Some t' ∧ username t' = username t
        ∧ players t `prefix_of` players t'.
Proof. apply run_grows. Qed.

Lemma roster_append_only_witness :
  ∃ t', users (run example_catalog example_room [(1, OpSelectPlayer "P" 50000 "B")]%string)
          !! "B"%string = Some t'
        ∧ username t' = "B"%string ∧ [] `prefix_of` players t'.
Proof.
  apply (roster_append_only example_catalog example_room
           [(1, OpSelectPlayer "P" 50000 "B")]%string "B"%string (mkTeam "B" 1000000 [])).
  vm_compute. reflexivity.
Defined.



(** ** Sessions: what their fields record *)

Lemma currentHighestBid_nonneg l : Forall (λ b, 0 < amount b) l → 0 ≤ currentHighestBid l.
Proof.
  destruct l as [|b l]; [done|]. intros Hall.
  pose proof (currentHighestBid_ge (b :: l) b) as Hge.
  apply Forall_cons in Hall as [Hb _]. specialize (Hge ltac:(set_solver)). lia.
Qed.

Lemma bids_ok_perm bt (l l' : list Bid) :
  l ≡ₚ l' →
  match bt with
  | regular => NoDup (amount <$> l) ∧ Forall (λ b, 0 < amount b) l
  | blind => NoDup (bidderTeam <$> l)
  end →
  match bt with
  | regular => NoDup (amount <$> l') ∧ Forall (λ b, 0 < amount b) l'
  | blind => NoDup (bidderTeam <$> l')
  end.
Proof. intros Hp. destruct bt; by rewrite Hp. Qed.

Lemma session_step_ok pool usrs bt n o o' :
  session_step pool usrs bt n o o' →
  (∀ bd, o = Some bd → session_ok bt n bd) →
  ∀ bd', o' = Some bd' → session_ok bt n bd'.
Proof.
  induction 1 as [o|ty base now Hf|bd b now Hs Hu Hb|bd Hs|bd now Hs|bd w now Hs Hw|
                  o1 o2 o3 _ IH1 _ IH2]; intros Hok bd' E; simplify_eq.
  - by apply Hok.
  - unfold session_ok; simpl. split_and!; try done.
    destruct bt; simpl; [split; [apply NoDup_nil_2|apply Forall_nil_2]|apply NoDup_nil_2].
  - destruct (Hok bd eq_refl) as (Hn & Hbt & Hst & Hbids).
    unfold session_ok; simpl. rewrite Hs in *. destruct Hst as (?&?&?&?).
    split_and!; try done.
    destruct bt.
    + destruct Hbids as [Hnd Hpos].
      pose proof (currentHighestBid_nonneg _ Hpos) as Hnn.
      split.
      * rewrite fmap_app. apply NoDup_app. split_and!; [done| |apply NoDup_singleton].
        intros x (b' & -> & Hin)%list_elem_of_fmap Hx%list_elem_of_singleton.
        pose proof (currentHighestBid_ge _ _ Hin). lia.
      * apply Forall_app. split; [done|]. apply Forall_singleton. lia.
    + rewrite fmap_app. apply NoDup_app. split_and!; [done| |apply NoDup_singleton].
      intros x (b' & -> & Hin)%list_elem_of_fmap Hx%list_elem_of_singleton.
      by apply (Hb b').
  - destruct (Hok bd eq_refl) as (Hn & Hbt & Hst & Hbids).
    unfold session_ok, sort_in_place; simpl. split_and!; try done.
    + destruct (status bd); try done.
      * destruct Hst as (?&?&?&?&Hsorted). by rewrite sort_desc_sorted_id.
      * destruct Hst as (?&?&Hsorted&?). by rewrite sort_desc_sorted_id.
    + eapply bids_ok_perm; [|exact Hbids]. symmetry. apply sort_desc_perm.
  - destruct (Hok bd eq_refl) as (Hn & Hbt & Hst & Hbids).
    unfold session_ok; simpl. rewrite Hs in Hst. destruct Hst as (?&?&?&?).
    split_and!; try done. { apply sort_desc_sorted. }
    eapply bids_ok_perm; [|exact Hbids]. symmetry. apply sort_desc_perm.
  - destruct (Hok bd eq_refl) as (Hn & Hbt & Hst & Hbids).
    unfold session_ok; simpl. split_and!; try done. { apply sort_desc_sorted. }
    { by exists w. }
    eapply bids_ok_perm; [|exact Hbids]. symmetry. apply sort_desc_perm.
  - eauto.
Qed.

Lemma step_sessions_ok csv r ev : sessions_ok r → sessions_ok (step csv r ev).1.1.
Proof.
  intros Hok bt n bd' Hbd'. destruct (step_sessions csv r ev n) as [Hr Hb].
  destruct bt; simpl in *.
  - eapply session_step_ok; [exact Hr| |exact Hbd']. intros bd. apply (Hok regular).
  - eapply session_step_ok; [exact Hb| |exact Hbd']. intros bd. apply (Hok blind).
Qed.

Lemma run_sessions_ok csv rid usernames b now evs :
  sessions_ok (run csv (newRoom rid usernames b now) evs).
Proof.
  induction evs as [|ev evs IH] using rev_ind.
  - intros [] n bd; simpl; by rewrite lookup_empty.
  - rewrite run_snoc. by apply step_sessions_ok.
Qed.

(** X7. In every room reached from its creation a session is stored under
    the name of its player and carries the type of its table; [closedAt] is
    unset exactly while the session is active, [soldTo] is set exactly when
    it is sold, and the bid array of a closed or sold session is sorted by
    descending amount. *)
Theorem session_record_fields csv rid usernames b now evs bt :
  map_Forall (λ n bd,
      playerName bd = n ∧ biddingType bd = bt
      ∧ (status bd = active ↔ closedAt bd = None)
      ∧ (status bd = sold ↔ is_Some (soldTo bd))
      ∧ (status bd ≠ active → StronglySorted (desc amount) (bids bd)))
    (table_of bt (run csv (newRoom rid usernames b now) evs)).
Proof.
  intros n bd Hbd.
  destruct (run_sessions_ok csv rid usernames b now evs bt n bd Hbd) as (Hn & Hbt & H & _).
  split; [done|]. split; [done|].
  destruct (status bd); destruct_and?.
  - split_and!; [done| |done]. split; [done|]. intros [? E]. congruence.
  - match goal with H : is_Some (closedAt bd) |- _ => destruct H as [c Hc] end.
    split_and!; [|split; [done|]|done].
    + split; [done|]. intros E. congruence.
    + intros [? E]. congruence.
  - match goal with H : is_Some (closedAt bd) |- _ => destruct H as [c Hc] end.
    match goal with H : ∃ _, _ |- _ => destruct H as (w & _ & Hto & _) end.
    split_and!; [|split; [by eexists|done]|done].
    split; [done|]. intros E. congruence.
Qed.

(** X8. A sold session names its winner: [soldTo] and [finalPrice] are the
    team and the amount of the first bid of its array, and no bid of the
    session has a greater amount. *)
Theorem sold_session_names_winner csv rid usernames b now evs bt :
  map_Forall (λ n bd,
      status bd = sold →
      ∃ w, head (bids bd) = Some w
           ∧ soldTo bd = Some (bidderTeam w) ∧ finalPrice bd = Some (amount w)
           ∧ ∀ b', b' ∈ bids bd → amount b' ≤ amount w)
    (table_of bt (run csv (newRoom rid usernames b now) evs)).
Proof.
  intros n bd Hbd Hst.
  destruct (run_sessions_ok csv rid usernames b now evs bt n bd Hbd) as (_ & _ & H & _).
  rewrite Hst in H. destruct H as (_ & _ & Hsorted & w & Hw & Hto & Hp).
  exists w. split_and!; try done.
  destruct (bids bd) as [|w' l]; simplify_eq/=.
  apply StronglySorted_inv in Hsorted as [_ Hall].
  intros b' [->|Hin]%elem_of_cons; [lia|].
  rewrite Forall_forall in Hall. by apply Hall.
Qed.

(** X9. With the team of every [place-blind-bid] request named by a JSON
    string, as in this embedding (the source compares the request's value
    with [===] and looks the team up by its string form, which agree on
    strings), a blind session holds at most one bid per team, hence never
    more bids than the room has teams. *)
Theorem blind_one_bid_per_team csv rid usernames b now evs :
  map_Forall (λ _ bd,
      NoDup (bidderTeam <$> bids bd)
      ∧ (length (bids bd) ≤ size (users (run csv (newRoom rid usernames b now) evs)))%nat)
    (blindBids (run csv (newRoom rid usernames b now) evs)).
Proof.
  intros n bd Hbd.
  destruct (run_sessions_ok csv rid usernames b now evs blind n bd Hbd) as (_ & _ & _ & Hnd).
  split; [done|].
  destruct (reachable_sessions_wf csv _ (reachable_run csv rid usernames b now evs))
    as [_ Hwf].
  destruct (Hwf n bd Hbd) as [_ Hteams].
  rewrite <- (length_fmap bidderTeam), <- (size_list_to_set (C := gset string)) by done.
  rewrite <- size_dom. apply subseteq_size. intros k Hk.
  apply elem_of_list_to_set, list_elem_of_fmap in Hk as (b' & -> & Hin).
  apply elem_of_dom. by apply Hteams.
Qed.

(** X10. The bids of a regular session have positive, pairwise distinct
    amounts: a regular session has no tie for the highest bid. *)
Theorem regular_bids_distinct_positive csv rid usernames b now evs :
  map_Forall (λ _ bd, NoDup (amount <$> bids bd) ∧ Forall (λ b, 0 < amount b) (bids bd))
    (currentBids (run csv (newRoom rid usernames b now) evs)).
Proof.
  intros n bd Hbd.
  by destruct (run_sessions_ok csv rid usernames b now evs regular n bd Hbd) as (_ & _ & _ & H).
Qed.

Lemma session_step_terminal pool usrs bt n o o' :
  session_step pool usrs bt n o o' →
  ∀ bd, o = Some bd → status bd ≠ active →
  o' = Some bd ∨ o' = Some (sort_in_place bd).
Proof.
  induction 1 as [o|ty base now Hf|bd b now Hs Hu Hb|bd Hs|bd now Hs|bd w now Hs Hw|
                  o1 o2 o3 _ IH1 _ IH2]; intros bd0 E Hst; simplify_eq; try done.
  - by left.
  - by right.
  - destruct (IH1 bd0 eq_refl Hst) as [-> | ->].
    + by apply IH2.
    + destruct (IH2 (sort_in_place bd0) eq_refl Hst) as [-> | ->]; [by right|].
      right. unfold sort_in_place; simpl. by rewrite sort_desc_idem.
Qed.

(** X11. A closed or sold session is final: after any sequence of entry
    points the table still holds it, unchanged but for the in-place sort of
    its bid array; no bid is added, and status, buyer and price stay. *)
Theorem terminal_session_frozen csv r evs bt n bd :
  table_of bt r !! n = Some bd → status bd ≠ active →
  table_of bt (run csv r evs) !! n = Some bd
  ∨ table_of bt (run csv r evs) !! n = Some (sort_in_place bd).
Proof.
  intros Hbd Hst. induction evs as [|ev evs IH] using rev_ind; [by left|].
  rewrite run_snoc. destruct (step_sessions csv (run csv r evs) ev n) as [Hr Hb].
  assert (Hstep : session_step (match bt with regular => csv | blind => blindBidPlayers csv end)
            (users (run csv r evs)) bt n (table_of bt (run csv r evs) !! n)
            (table_of bt (step csv (run csv r evs) ev).1.1 !! n)) by (by destruct bt).
  destruct IH as [IH|IH]; rewrite IH in Hstep.
  - by eapply session_step_terminal.
  - destruct (session_step_terminal _ _ _ _ _ _ Hstep _ eq_refl Hst) as [-> | ->]; [by right|].
    right. unfold sort_in_place; simpl. by rewrite sort_desc_idem.
Qed.

Lemma terminal_session_frozen_witness :
  table_of regular
    (run example_catalog example_closed
       [(3, OpPlaceBid "P" 100000 "A" "x"); (4, OpTimerRegular "P");
        (5, OpCloseBidding "P" "regular")]%string) !! "P"%string
  = Some (mkBidData "P" "BAT" (Some 50000) [] 1 closed regular None (Some 2) None None None)
  ∨ table_of regular
      (run example_catalog example_closed
         [(3, OpPlaceBid "P" 100000 "A" "x"); (4, OpTimerRegular "P");
          (5, OpCloseBidding "P" "regular")]%string) !! "P"%string
    = Some (sort_in_place
              (mkBidData "P" "BAT" (Some 50000) [] 1 closed regular None (Some 2) None None None)).
Proof.
  apply (terminal_session_frozen example_catalog example_closed).
  - vm_compute. reflexivity.
  - simpl. discriminate.
Defined.

(** X12. Every session of a room reached from its creation is for a player
    of the catalog its resolution searches (the whole CSV for regular
    sessions, the blind pool for blind ones), and every bid it holds was
    placed by a team registered in the room. *)
Theorem sessions_reference_catalog_and_teams csv rid usernames b now evs :
  sessions_wf csv (run csv (newRoom rid usernames b now) evs).
Proof. apply reachable_sessions_wf, reachable_run. Qed.

(** ** Sales reported by sessions are in the ledger *)

Lemma resolve_sold_step pool bt' now r n' :
  sold_step r (resolve pool bt' now r (table_of bt' r)
                 (match bt' with regular => set_currentBids | blind => set_blindBids end) n').1.
Proof.
  intros bt n bd'. unfold resolve.
  destruct (table_of bt' r !! n') as [bd0|] eqn:E0; [|by left; eauto].
  case_decide as Hact; [by left; eauto|].
  assert (Hother : ∀ r1 x, 
    table_of bt ((match bt' with regular => set_currentBids | blind => set_blindBids end)
                   r1 (<[n' := x]> (table_of bt' r))) !! n = Some bd' →
    table_of bt r1 = table_of bt r →
    (bt = bt' ∧ n = n' ∧ bd' = x) ∨ table_of bt r !! n = Some bd').
  { intros r1 x Hl Hsame. destruct bt, bt'; simpl in *; try (right; congruence).
    - destruct (decide (n' = n)) as [->|?];
        [rewrite lookup_insert_eq in Hl|rewrite lookup_insert_ne in Hl by done];
        [left; split_and!; congruence|by right].
    - destruct (decide (n' = n)) as [->|?];
        [rewrite lookup_insert_eq in Hl|rewrite lookup_insert_ne in Hl by done];
        [left; split_and!; congruence|by right]. }
  repeat case_match; cbn [fst]; intros Hl Hst;
    (apply Hother in Hl as [(-> & -> & ->)|Hl]; [|by left; eauto|by destruct bt, bt']);
    try discriminate Hst.
  all: right; split; [destruct bt'; simpl; set_solver|].
  all: eexists _, _, _; split; [reflexivity|].
  all: split; [destruct bt'; simpl; apply lookup_insert_eq|].
  all: simpl; split; [apply elem_of_app; right; apply list_elem_of_singleton; reflexivity|].
  all: by destruct bt'.
Qed.

Lemma sold_step_refl r : sold_step r r.
Proof. intros bt n bd' Hl Hst. left. by exists bd'. Qed.

Lemma sold_step_same_tables r r' :
  currentBids r' = currentBids r → blindBids r' = blindBids r → sold_step r r'.
Proof.
  intros H1 H2 bt n bd' Hl Hst. left. exists bd'. split; [|done].
  destruct bt; simpl in *; congruence.
Qed.

Ltac sold_fin :=
  solve
  [ apply sold_step_refl
  | apply sold_step_same_tables; reflexivity
  | let bt := fresh "bt" in let Hl := fresh "Hl" in let Hst := fresh "Hst" in
    intros bt ? ? Hl Hst; destruct bt; cbn [table_of fst snd] in *; simpl in Hl;
    repeat match goal with
    | H : <[?k := _]> _ !! ?n = Some _ |- _ =>
        destruct (decide (k = n)) as [->|?];
        [rewrite lookup_insert_eq in H|rewrite lookup_insert_ne in H by done]
    end;
    simplify_eq; simpl in *; try congruence;
    try (exfalso; match goal with H : ¬ (status _ ≠ active) |- _ => apply H end; congruence);
    left; eexists; split_and!; eauto ].

Ltac handler_cases := repeat first [case_decide | case_match | progress simplify_eq/=].

Lemma sold_step_trans_sort bt' r r1 n' :
  sold_step r r1 →
  sold_step r (close_response bt' r1 (table_of bt' r1)
                 (match bt' with regular => set_currentBids | blind => set_blindBids end) n').1.
Proof.
  intros H1 bt n bd'. unfold close_response.
  destruct (table_of bt' r1 !! n') as [bd1|] eqn:E1; [|apply H1]. cbn [fst].
  intros Hl Hst.
  assert (Hcase : (bt = bt' ∧ n = n' ∧ bd' = sort_in_place bd1)
                  ∨ table_of bt r1 !! n = Some bd').
  { destruct bt, bt'; simpl in *; try (by right);
      (destruct (decide (n' = n)) as [->|?];
       [rewrite lookup_insert_eq in Hl|rewrite lookup_insert_ne in Hl by done];
       [left; by simplify_eq|by right]). }
  destruct Hcase as [(-> & -> & ->)|Hl1]; [|].
  - destruct (H1 bt' n' bd1 E1 Hst) as [(bd & ? & ? & ? & ?)|(Hs & k & t & pp & ? & ? & ? & ? & ?)].
    + left. by exists bd.
    + right. split; [by destruct bt'|]. exists k, t, pp. split_and!; try done.
      by destruct bt'.
  - destruct (H1 bt n bd' Hl1 Hst) as [?|(Hs & k & t & pp & ? & ? & ? & ? & ?)]; [by left|].
    right. split; [by destruct bt'|]. exists k, t, pp. split_and!; try done.
    by destruct bt'.
Qed.

Lemma step_sold_step csv r ev : sold_step r (step csv r ev).1.1.
Proof.
  destruct ev as [now op];
    destruct op as [n' p t| |n' a t rnd|n' a t rnd|n'|n'|n' ty|n'|n'|n'|n'| | |t];
    unfold step; cbn [fst snd].
  - unfold selectPlayer. handler_cases; sold_fin.
  - unfold nextBatch. handler_cases; sold_fin.
  - unfold placeBid. handler_cases; sold_fin.
  - unfold placeBlindBid. handler_cases; sold_fin.
  - unfold startBidding. handler_cases; sold_fin.
  - unfold startBlindBidding. handler_cases; sold_fin.
  - unfold closeBidding. repeat case_decide; try sold_fin.
    + destruct (currentBids r !! n') as [bd|] eqn:E; [|sold_fin].
      case_decide; [sold_fin|].
      pose proof (resolve_sold_step csv regular now r n') as Hs.
      pose proof (sold_step_trans_sort regular r _ n' Hs) as Hs'.
      unfold autoAwardPlayer. simpl in *.
      destruct (resolve csv regular now r (currentBids r) set_currentBids n') as [r1 eff].
      simpl in *.
      by destruct (close_response regular r1 (currentBids r1) set_currentBids n') as [r2 resp].
    + destruct (blindBids r !! n') as [bd|] eqn:E; [|sold_fin].
      case_decide; [sold_fin|].
      pose proof (resolve_sold_step (blindBidPlayers csv) blind now r n') as Hs.
      pose proof (sold_step_trans_sort blind r _ n' Hs) as Hs'.
      unfold autoAwardBlindBidPlayer. simpl in *.
      destruct (resolve (blindBidPlayers csv) blind now r (blindBids r) set_blindBids n')
        as [r1 eff].
      simpl in *.
      by destruct (close_response blind r1 (blindBids r1) set_blindBids n') as [r2 resp].
  - unfold timerRegular.
    destruct (currentBids r !! n') as [bd|]; [|sold_fin]. case_decide; [|sold_fin].
    pose proof (resolve_sold_step csv regular now r n') as Hs.
    unfold autoAwardPlayer. simpl in *.
    by destruct (resolve csv regular now r (currentBids r) set_currentBids n') as [r1 eff].
  - unfold timerBlind.
    destruct (blindBids r !! n') as [bd|]; [|sold_fin]. case_decide; [|sold_fin].
    pose proof (resolve_sold_step (blindBidPlayers csv) blind now r n') as Hs.
    unfold autoAwardBlindBidPlayer. simpl in *.
    by destruct (resolve (blindBidPlayers csv) blind now r (blindBids r) set_blindBids n')
      as [r1 eff].
  - unfold playerBids. handler_cases; sold_fin.
  - unfold blindBidsQuery. handler_cases; sold_fin.
  - unfold roomBids. cbn [fst]. intros bt n bd' Hl Hst. left. destruct bt; simpl in *.
    + rewrite lookup_fmap in Hl. destruct (currentBids r !! n) as [bd|]; simplify_eq/=.
      exists bd. unfold sort_active in *. by destruct (is_active bd).
    + by exists bd'.
  - unfold biddingHistory. cbn [fst]. intros bt n bd' Hl Hst. left. destruct bt; simpl in *.
    + rewrite lookup_fmap in Hl. destruct (currentBids r !! n) as [bd|]; simplify_eq/=.
      exists bd. unfold sort_terminal in *. by destruct (is_terminal bd).
    + rewrite lookup_fmap in Hl. destruct (blindBids r !! n) as [bd|]; simplify_eq/=.
      exists bd. unfold sort_terminal in *. by destruct (is_terminal bd).
  - unfold joinRoom. handler_cases; sold_fin.
Qed.

Lemma sale_recorded_grows r r' n bd bd' :
  ledger_change r r' → sale_recorded r n bd →
  soldTo bd = soldTo bd' → finalPrice bd = finalPrice bd' →
  sale_recorded r' n bd'.
Proof.
  intros [Hs Hu]%ledger_change_grows (Hn & k & t & pp & Hto & Hk & Hin & Hname & Hp) E1 E2.
  split; [set_solver|]. destruct (Hu k t Hk) as (t' & Hk' & _ & Hpre).
  exists k, t', pp. split_and!; try congruence.
  destruct Hpre as [l ->]. apply elem_of_app. by left.
Qed.

(** X13. Every sold session is backed by the ledger: its player is in
    [soldPlayers], and the roster of the team named by [soldTo] holds a
    record for the player at the session's [finalPrice]. *)
Theorem every_sale_recorded csv rid usernames b now evs bt :
  map_Forall (λ n bd, status bd = sold →
                      sale_recorded (run csv (newRoom rid usernames b now) evs) n bd)
    (table_of bt (run csv (newRoom rid usernames b now) evs)).
Proof.
  induction evs as [|ev evs IH] using rev_ind.
  - intros n bd Hl. destruct bt; simpl in Hl; by rewrite lookup_empty in Hl.
  - rewrite run_snoc. intros n bd' Hl Hst.
    destruct (step_sold_step csv _ ev bt n bd' Hl Hst) as [(bd & Hbd & Hs & E1 & E2)|?]; [|done].
    eapply sale_recorded_grows; [apply step_ledger|by apply (IH n bd)|done..].
Qed.

(** ** C1: the ledger is balanced while the arithmetic is exact *)

Lemma resolve_purchase_step pool bt' now r n' ev :
  purchase_step r ev
    (resolve pool bt' now r (table_of bt' r)
       (match bt' with regular => set_currentBids | blind => set_blindBids end) n').1.
Proof.
  unfold resolve.
  destruct (table_of bt' r !! n') as [bd|] eqn:E; [|by left].
  case_decide; [by left|].
  destruct (head (sort_desc amount (bids bd))) as [w|] eqn:Hw; [|left; by destruct bt'].
  assert (Hin : w ∈ bids bd).
  { apply sort_desc_elem_of with (key := amount). by apply head_Some_elem_of. }
  repeat case_match; try (left; by destruct bt').
  all: right; left; eexists _, _, _; split; [eassumption|].
  all: split; [by destruct bt'|]; split; [by destruct bt'|].
  all: destruct_and?; split; [simpl; lia|].
  all: right; exists bt', n', bd, w; split_and!; try done; by subst.
Qed.

Lemma purchase_step_same_fields r ev r1 r2 :
  purchase_step r ev r1 → users r2 = users r1 → soldPlayers r2 = soldPlayers r1 →
  purchase_step r ev r2.
Proof.
  intros [[Hu Hs]|[(k & t & pp & ? & Hu & Hs & ? & ?)|(k & ? & Hu & Hs)]] E1 E2.
  - left. split; congruence.
  - right; left. exists k, t, pp. split_and!; try done; congruence.
  - right; right. exists k. split_and!; try done; congruence.
Qed.

Lemma step_purchase_step csv r ev : purchase_step r ev (step csv r ev).1.1.
Proof.
  destruct ev as [now op];
    destruct op as [n' p t| |n' a t rnd|n' a t rnd|n'|n'|n' ty|n'|n'|n'|n'| | |t];
    unfold step; cbn [fst snd].
  - unfold selectPlayer. handler_cases; try (by left).
    right; left. eexists _, _, _. split; [eassumption|]. split; [done|]. split; [done|].
    split; [simpl; lia|]. by left.
  - unfold nextBatch. handler_cases; by left.
  - unfold placeBid. handler_cases; by left.
  - unfold placeBlindBid. handler_cases; by left.
  - unfold startBidding. handler_cases; by left.
  - unfold startBlindBidding. handler_cases; by left.
  - unfold closeBidding. repeat case_decide; try (by left).
    + destruct (currentBids r !! n') as [bd|] eqn:E; [|by left].
      case_decide; [by left|].
      pose proof (resolve_purchase_step csv regular now r n' (now, OpCloseBidding n' ty)) as Hs.
      unfold autoAwardPlayer. simpl in Hs.
      destruct (resolve csv regular now r (currentBids r) set_currentBids n') as [r1 eff].
      simpl in *.
      pose proof (close_response_fields regular r1 (currentBids r1) set_currentBids n') as Hl'.
      destruct (close_response regular r1 (currentBids r1) set_currentBids n') as [r2 resp].
      simpl in *. destruct Hl' as (?&?&?); [done|]. by eapply purchase_step_same_fields.
    + destruct (blindBids r !! n') as [bd|] eqn:E; [|by left].
      case_decide; [by left|].
      pose proof (resolve_purchase_step (blindBidPlayers csv) blind now r n'
                    (now, OpCloseBidding n' ty)) as Hs.
      unfold autoAwardBlindBidPlayer. simpl in Hs.
      destruct (resolve (blindBidPlayers csv) blind now r (blindBids r) set_blindBids n')
        as [r1 eff].
      simpl in *.
      pose proof (close_response_fields blind r1 (blindBids r1) set_blindBids n') as Hl'.
      destruct (close_response blind r1 (blindBids r1) set_blindBids n') as [r2 resp].
      simpl in *. destruct Hl' as (?&?&?); [done|]. by eapply purchase_step_same_fields.
  - unfold timerRegular.
    destruct (currentBids r !! n') as [bd|]; [|by left]. case_decide; [|by left].
    pose proof (resolve_purchase_step csv regular now r n' (now, OpTimerRegular n')) as Hs.
    unfold autoAwardPlayer. simpl in Hs.
    by destruct (resolve csv regular now r (currentBids r) set_currentBids n') as [r1 eff].
  - unfold timerBlind.
    destruct (blindBids r !! n') as [bd|]; [|by left]. case_decide; [|by left].
    pose proof (resolve_purchase_step (blindBidPlayers csv) blind now r n'
                  (now, OpTimerBlind n')) as Hs.
    unfold autoAwardBlindBidPlayer. simpl in Hs.
    by destruct (resolve (blindBidPlayers csv) blind now r (blindBids r) set_blindBids n')
      as [r1 eff].
  - unfold playerBids. handler_cases; by left.
  - unfold blindBidsQuery. handler_cases; by left.
  - by left.
  - by left.
  - unfold joinRoom. case_match eqn:E; simpl; [by left|].
    case_match; simpl; [by left|]. right; right. eexists. split_and!; [exact E|done|done].
Qed.

Lemma bid_origin_refl r ev : bid_origin r ev r.
Proof. intros bt n bd' b Hl Hin. left. by exists bd'. Qed.

Lemma bid_origin_same_tables r ev r' :
  currentBids r' = currentBids r → blindBids r' = blindBids r → bid_origin r ev r'.
Proof.
  intros H1 H2 bt n bd' b Hl Hin. left. exists bd'. split; [|done].
  destruct bt; simpl in *; congruence.
Qed.

Ltac origin_fin :=
  solve
  [ apply bid_origin_refl
  | apply bid_origin_same_tables; reflexivity
  | let bt := fresh "bt" in let Hl := fresh "Hl" in let Hin := fresh "Hin" in
    intros bt ? ? ? Hl Hin; destruct bt; cbn [table_of fst snd] in *; simpl in Hl;
    repeat match goal with
    | H : <[?k := _]> _ !! ?n = Some _ |- _ =>
        destruct (decide (k = n)) as [->|?];
        [rewrite lookup_insert_eq in H|rewrite lookup_insert_ne in H by done]
    end;
    simplify_eq; simpl in *;
    repeat match goal with
    | H : _ ∈ [] |- _ => by apply elem_of_nil in H
    | H : _ ∈ [_] |- _ => apply list_elem_of_singleton in H
    | H : _ ∈ _ ++ [_] |- _ => apply elem_of_app in H as [H|H%list_elem_of_singleton]
    | H : _ ∈ sort_desc _ _ |- _ => apply sort_desc_elem_of in H
    end;
    simplify_eq; simpl in *;
    first [by right | left; eexists; split; eauto ] ].

Lemma resolve_bid_origin pool bt' now r n' ev :
  bid_origin r ev
    (resolve pool bt' now r (table_of bt' r)
       (match bt' with regular => set_currentBids | blind => set_blindBids end) n').1.
Proof.
  unfold resolve.
  destruct (table_of bt' r !! n') as [bd|] eqn:E; [|apply bid_origin_refl].
  case_decide; [apply bid_origin_refl|].
  destruct bt'; simpl in *; repeat case_match; cbn [fst]; origin_fin.
Qed.

Lemma close_response_bid_origin bt' r r1 n' ev :
  bid_origin r ev r1 →
  bid_origin r ev
    (close_response bt' r1 (table_of bt' r1)
       (match bt' with regular => set_currentBids | blind => set_blindBids end) n').1.
Proof.
  intros H1 bt n bd' b. unfold close_response.
  destruct (table_of bt' r1 !! n') as [bd1|] eqn:E1; [|apply H1]. cbn [fst].
  intros Hl Hin.
  assert (Hcase : ∃ bd1', table_of bt r1 !! n = Some bd1' ∧ b ∈ bids bd1').
  { destruct bt, bt'; simpl in *; try (by eexists);
      (destruct (decide (n' = n)) as [->|?];
       [rewrite lookup_insert_eq in Hl|rewrite lookup_insert_ne in Hl by done];
       [|by eexists]); simplify_eq; simpl in Hin; apply sort_desc_elem_of in Hin; by eexists. }
  destruct Hcase as (bd1' & Hl1 & Hin1). by eapply H1.
Qed.

Lemma step_bid_origin csv r ev : bid_origin r ev (step csv r ev).1.1.
Proof.
  destruct ev as [now op];
    destruct op as [n' p t| |n' a t rnd|n' a t rnd|n'|n'|n' ty|n'|n'|n'|n'| | |t];
    unfold step; cbn [fst snd].
  - unfold selectPlayer. handler_cases; origin_fin.
  - unfold nextBatch. handler_cases; origin_fin.
  - unfold placeBid. handler_cases; origin_fin.
  - unfold placeBlindBid. handler_cases; origin_fin.
  - unfold startBidding. handler_cases; origin_fin.
  - unfold startBlindBidding. handler_cases; origin_fin.
  - unfold closeBidding. repeat case_decide; try origin_fin.
    + destruct (currentBids r !! n') as [bd|] eqn:E; [|origin_fin].
      case_decide; [origin_fin|].
      pose proof (resolve_bid_origin csv regular now r n' (now, OpCloseBidding n' ty)) as Hs.
      pose proof (close_response_bid_origin regular r _ n' _ Hs) as Hs'.
      unfold autoAwardPlayer. simpl in *.
      destruct (resolve csv regular now r (currentBids r) set_currentBids n') as [r1 eff].
      simpl in *.
      by destruct (close_response regular r1 (currentBids r1) set_currentBids n') as [r2 resp].
    + destruct (blindBids r !! n') as [bd|] eqn:E; [|origin_fin].
      case_decide; [origin_fin|].
      pose proof (resolve_bid_origin (blindBidPlayers csv) blind now r n'
                    (now, OpCloseBidding n' ty)) as Hs.
      pose proof (close_response_bid_origin blind r _ n' _ Hs) as Hs'.
      unfold autoAwardBlindBidPlayer. simpl in *.
      destruct (resolve (blindBidPlayers csv) blind now r (blindBids r) set_blindBids n')
        as [r1 eff].
      simpl in *.
      by destruct (close_response blind r1 (blindBids r1) set_blindBids n') as [r2 resp].
  - unfold timerRegular.
    destruct (currentBids r !! n') as [bd|]; [|origin_fin]. case_decide; [|origin_fin].
    pose proof (resolve_bid_origin csv regular now r n' (now, OpTimerRegular n')) as Hs.
    unfold autoAwardPlayer. simpl in *.
    by destruct (resolve csv regular now r (currentBids r) set_currentBids n') as [r1 eff].
  - unfold timerBlind.
    destruct (blindBids r !! n') as [bd|]; [|origin_fin]. case_decide; [|origin_fin].
    pose proof (resolve_bid_origin (blindBidPlayers csv) blind now r n'
                  (now, OpTimerBlind n')) as Hs.
    unfold autoAwardBlindBidPlayer. simpl in *.
    by destruct (resolve (blindBidPlayers csv) blind now r (blindBids r) set_blindBids n')
      as [r1 eff].
  - unfold playerBids. handler_cases; origin_fin.
  - unfold blindBidsQuery. handler_cases; origin_fin.
  - unfold roomBids. cbn [fst]. intros bt n bd' b Hl Hin. left. destruct bt; simpl in *.
    + rewrite lookup_fmap in Hl. destruct (currentBids r !! n) as [bd|]; simplify_eq/=.
      exists bd. split; [done|]. unfold sort_active, sort_in_place in *.
      destruct (is_active bd); simpl in *; [by apply sort_desc_elem_of in Hin|done].
    + by exists bd'.
  - unfold biddingHistory. cbn [fst]. intros bt n bd' b Hl Hin. left. destruct bt; simpl in *.
    + rewrite lookup_fmap in Hl. destruct (currentBids r !! n) as [bd|]; simplify_eq/=.
      exists bd. split; [done|]. unfold sort_terminal, sort_in_place in *.
      destruct (is_terminal bd); simpl in *; [by apply sort_desc_elem_of in Hin|done].
    + rewrite lookup_fmap in Hl. destruct (blindBids r !! n) as [bd|]; simplify_eq/=.
      exists bd. split; [done|]. unfold sort_terminal, sort_in_place in *.
      destruct (is_terminal bd); simpl in *; [by apply sort_desc_elem_of in Hin|done].
  - unfold joinRoom. handler_cases; origin_fin.
Qed.

Lemma spent_nonneg t : Forall (λ pp, 0 ≤ boughtPrice pp) (players t) → 0 ≤ spent t.
Proof. unfold spent. induction 1; simpl; lia. Qed.

Lemma step_exact_ledger csv r ev :
  budgetPerUser r ≠ 0 → budgetPerUser r ≤ exact_limit → amounts_nonneg ev → exact_ledger r →
  exact_ledger (step csv r ev).1.1 ∧ ledger_effect r (step csv r ev).1.1.
Proof.
  intros Hnz Hb Hev [Hteams Hbids].
  assert (Hbids' : ∀ bt, map_Forall (λ _ bd, Forall (λ b, 0 ≤ amount b) (bids bd))
                           (table_of bt (step csv r ev).1.1)).
  { intros bt n bd' Hl. apply Forall_forall. intros b Hin.
    destruct (step_bid_origin csv r ev bt n bd' b Hl Hin) as [(bd & Hbd & Hb')|Ha].
    - pose proof (Hbids bt n bd Hbd) as Hall. rewrite Forall_forall in Hall. by apply Hall.
    - unfold amounts_nonneg in Hev. by rewrite Ha in Hev. }
  unfold exact_ledger.
  destruct (step_purchase_step csv r ev)
    as [[Hu Hs]|[(k & t & pp & Hk & Hu & Hs & Hle & Hp)|(k & Hk & Hu & Hs)]].
  - split; [|by left]. split; [|done]. rewrite step_budgetPerUser, Hu. done.
  - destruct (Hteams k t Hk) as (H0 & Hsum & Hprices).
    assert (0 ≤ boughtPrice pp) as Hpos.
    { destruct Hp as [Ha|(bt & n & bd & b & Hbd & Hin & <-)].
      - unfold amounts_nonneg in Hev. by rewrite Ha in Hev.
      - pose proof (Hbids bt n bd Hbd) as Hall. rewrite Forall_forall in Hall. by apply Hall. }
    pose proof (spent_nonneg t Hprices) as Hsp.
    assert (Hex : js_sub (budget t) (boughtPrice pp) = budget t - boughtPrice pp).
    { apply js_sub_exact. lia. }
    split.
    + split; [|done]. rewrite step_budgetPerUser, Hu.
      apply map_Forall_insert_2; [|done]. simpl. rewrite Hex.
      split; [lia|]. split.
      * rewrite <- Hsum. pose proof (spent_buy t pp) as Hsb. unfold spent, buy in Hsb.
        simpl in Hsb. unfold spent. simpl. lia.
      * apply Forall_app. split; [done|]. by apply Forall_singleton.
    + right; left. exists k, t, (buy t pp), pp. simpl. by rewrite Hex.
  - assert (or_default_budget (Some (budgetPerUser r)) = budgetPerUser r) as Hod.
    { unfold or_default_budget. by rewrite decide_False. }
    rewrite Hod in Hu. split.
    + split; [|done]. rewrite step_budgetPerUser, Hu.
      apply map_Forall_insert_2; [|done]. simpl. unfold spent. simpl.
      split; [lia|]. split; [lia|]. apply Forall_nil_2.
    + right; right. by exists k.
Qed.

Lemma newRoom_exact_ledger rid usernames b now :
  exact_ledger (newRoom rid usernames b now).
Proof.
  split.
  - intros k t Hk. apply newRoom_users_fresh in Hk as [Hbu Hp].
    change (budgetPerUser (newRoom rid usernames b now)) with (or_default_budget b).
    unfold spent. rewrite Hbu, Hp. cbn [foldr].
    split; [lia|]. split; [lia|]. constructor.
  - intros bt n bd Hl. destruct bt; simpl in Hl; by rewrite lookup_empty in Hl.
Qed.

Lemma run_exact_ledger csv rid usernames b now evs :
  or_default_budget b ≤ exact_limit → Forall amounts_nonneg evs →
  exact_ledger (run csv (newRoom rid usernames b now) evs).
Proof.
  intros Hb. induction evs as [|ev evs IH] using rev_ind; intros Hevs.
  - apply newRoom_exact_ledger.
  - apply Forall_app in Hevs as [Hevs Hev]. apply (proj1 (Forall_singleton _ _)) in Hev.
    rewrite run_snoc. refine (proj1 (step_exact_ledger csv _ ev _ _ Hev (IH Hevs))).
    + rewrite run_budgetPerUser. apply or_default_budget_nonzero.
    + by rewrite run_budgetPerUser.
Qed.

Lemma sum_teams_plus f g (m : gmap string Team) :
  sum_teams (λ t, f t + g t) m = sum_teams f m + sum_teams g m.
Proof.
  induction m as [|k t m Hk IH] using map_ind.
  - by rewrite !sum_teams_empty.
  - rewrite !sum_teams_insert_fresh by done. lia.
Qed.

(** C1 (amended). In a room created with a per-team budget of at most 2^53
    and driven by any sequence of entry points whose amounts (purchase
    prices and bids) are non-negative, the teams' remaining budgets plus the
    purchase prices recorded in all rosters equal the number of teams times
    the per-team budget; and one more such entry point leaves the registry
    as it is, or debits one team by exactly the price of the record it
    appends to that team's roster (the budget after is the budget before
    minus the price, the roster after is the roster before followed by the
    record), or adds one team with the full budget. *)
Theorem C1_budget_conservation csv rid usernames b now evs :
  or_default_budget b ≤ exact_limit →
  Forall amounts_nonneg evs →
  let r := run csv (newRoom rid usernames b now) evs in
  total_budget r + total_spent r = Z.of_nat (size (users r)) * budgetPerUser r
  ∧ ∀ ev, amounts_nonneg ev → ledger_effect r (step csv r ev).1.1.
Proof.
  intros Hb Hevs r. pose proof (run_exact_ledger csv rid usernames b now evs Hb Hevs) as Hex.
  fold r in Hex. split.
  - unfold total_budget, total_spent. rewrite <- sum_teams_plus.
    apply sum_teams_const. intros k t Hk. by destruct (proj1 Hex k t Hk) as (_ & ? & _).
  - intros ev Hev. refine (proj2 (step_exact_ledger csv _ ev _ _ Hev Hex)).
    + unfold r. rewrite run_budgetPerUser. apply or_default_budget_nonzero.
    + unfold r. by rewrite run_budgetPerUser.
Qed.

(** One direct purchase in the example room. *)
Lemma C1_witness :
  total_budget (run example_catalog example_room [(1, OpSelectPlayer "P" 50000 "B")]%string)
  + total_spent (run example_catalog example_room [(1, OpSelectPlayer "P" 50000 "B")]%string)
  = Z.of_nat (size (users (run example_catalog example_room
                             [(1, OpSelectPlayer "P" 50000 "B")]%string)))
    * budgetPerUser (run example_catalog example_room
                       [(1, OpSelectPlayer "P" 50000 "B")]%string).
Proof.
  refine (proj1 (C1_budget_conservation example_catalog "room" ["A"; "B"]%string
                   (Some 1000000) 0 [(1, OpSelectPlayer "P" 50000 "B")]%string _ _)).
  - vm_compute. discriminate.
  - apply Forall_singleton. unfold amounts_nonneg. simpl. lia.
Defined.

(** With a per-team budget of 2^53 + 2, a purchase at price 1 leaves team A
    with 2^53, one less than the exact difference: the two teams' budgets
    and the price paid no longer add up to twice the per-team budget. *)
Lemma C1_counterexample :
  budget <$> users (run example_catalog
                      (newRoom "room" ["A"; "B"]%string (Some 9007199254740994) 0)
                      [(1, OpSelectPlayer "P" 1 "A")]%string) !! "A"%string
  = Some 9007199254740992
  ∧ total_budget (run example_catalog
                    (newRoom "room" ["A"; "B"]%string (Some 9007199254740994) 0)
                    [(1, OpSelectPlayer "P" 1 "A")]%string)
    + total_spent (run example_catalog
                     (newRoom "room" ["A"; "B"]%string (Some 9007199254740994) 0)
                     [(1, OpSelectPlayer "P" 1 "A")]%string)
    ≠ Z.of_nat (size (users (run example_catalog
                               (newRoom "room" ["A"; "B"]%string (Some 9007199254740994) 0)
                               [(1, OpSelectPlayer "P" 1 "A")]%string)))
      * budgetPerUser (run example_catalog
                         (newRoom "room" ["A"; "B"]%string (Some 9007199254740994) 0)
                         [(1, OpSelectPlayer "P" 1 "A")]%string).
Proof. split; [vm_compute; reflexivity|]. vm_compute. discriminate. Qed.

(** Why the amounts are taken non-negative: [select-player] accepts a
    negative price and credits the buyer, and from a budget of 2^53 a price
    of -1 leaves 2^53 where the exact difference is 2^53 + 1. *)
Example negative_price_inexact :
  budget <$> users (run example_catalog
                      (newRoom "room" ["A"; "B"]%string (Some 9007199254740992) 0)
                      [(1, OpSelectPlayer "P" (-1) "A")]%string) !! "A"%string
  = Some 9007199254740992
  ∧ (spent <$> users (run example_catalog
                        (newRoom "room" ["A"; "B"]%string (Some 9007199254740992) 0)
                        [(1, OpSelectPlayer "P" (-1) "A")]%string) !! "A"%string)
    = Some (-1).
Proof. split; vm_compute; reflexivity. Qed.

(** X1. Team by team: in a room created with a per-team budget of at most
    2^53 and driven by entry points with non-negative amounts, each
    team's remaining budget plus the purchase prices recorded in its roster
    equals the per-team budget, late joiners included. *)
Theorem team_budget_plus_spent csv rid usernames b now evs :
  or_default_budget b ≤ exact_limit →
  Forall amounts_nonneg evs →
  map_Forall (λ _ t, budget t + spent t = or_default_budget b)
    (users (run csv (newRoom rid usernames b now) evs)).
Proof.
  intros Hb Hevs k t Hk.
  destruct (proj1 (run_exact_ledger csv rid usernames b now evs Hb Hevs) k t Hk) as (_ & H & _).
  by rewrite run_budgetPerUser in H.
Qed.

Lemma team_budget_plus_spent_witness :
  map_Forall (λ _ t, budget t + spent t = 1000000)
    (users (run example_catalog example_room
              [(1, OpPlaceBid "P" 100000 "A" "x"); (60001, OpTimerRegular "P");
               (60002, OpJoinRoom "C")]%string)).
Proof.
  apply (team_budget_plus_spent example_catalog "room" ["A"; "B"]%string (Some 1000000) 0
           [(1, OpPlaceBid "P" 100000 "A" "x"); (60001, OpTimerRegular "P");
            (60002, OpJoinRoom "C")]%string).
  - vm_compute. discriminate.
  - repeat constructor; unfold amounts_nonneg; simpl; lia.
Defined.

(** ** Rejected requests and timers *)

(** X14. A request answered with an error changes nothing and requests no
    side effect, with one exception: a first [place-bid] on a player that is
    rejected for its amount (below the base price, or not above 0) has
    already opened the player's regular session and armed its timer; the
    room differs by that empty session only.  In particular a rejected
    request never refreshes [lastActivity]. *)
Theorem rejected_request_effect csv r ev e :
  (step csv r ev).1.2 = Err e →
  step csv r ev = (r, Err e, [])
  ∨ ∃ n a t rnd p,
      ev.2 = OpPlaceBid n a t rnd ∧ currentBids r !! n = None ∧ find_player csv n = Some p
      ∧ (e = BidTooLow 0 ∨ ∃ base, e = BelowBasePrice base)
      ∧ step csv r ev
        = (set_currentBids r
             (<[n := new_session n (type p) (basePrice p) ev.1 regular]> (currentBids r)),
           Err e, [SetTimeout regular n BIDDING_TIMEOUT]).
Proof.
  destruct ev as [now op]; destruct op as [n p t| |n a t rnd|n a t rnd|n|n|n bt|n|n|n|n| | |t];
    unfold step; simpl.
  - unfold selectPlayer. repeat case_match; simpl; intros; simplify_eq; by left.
  - destruct (nextBatch csv now r); simpl. done.
  - unfold placeBid.
    repeat first [progress (simpl in *; simplify_eq) | case_match | intros ?]; try (by left).
    all: right; do 5 eexists; split_and!; try done; eauto.
  - unfold placeBlindBid.
    repeat first [progress (simpl in *; simplify_eq) | case_match | intros ?]; try (by left).
  - unfold startBidding. repeat case_match; simpl; intros; simplify_eq; by left.
  - unfold startBlindBidding. repeat case_match; simpl; intros; simplify_eq; by left.
  - unfold closeBidding, close_response.
    repeat first [progress (simpl in *; simplify_eq) | case_match | intros ?]; try (by left).
  - destruct (timerRegular csv now r n); simpl; done.
  - destruct (timerBlind csv now r n); simpl; done.
  - unfold playerBids. repeat case_match; simpl; intros; simplify_eq.
  - unfold blindBidsQuery. repeat case_match; simpl; intros; simplify_eq.
  - done.
  - done.
  - unfold joinRoom. repeat case_match; simpl; intros; simplify_eq.
Qed.

Lemma rejected_request_effect_witness :
  step example_catalog example_room (1, OpPlaceBid "P" 10 "A" "x")
  = (example_room, Err (BelowBasePrice 50000), [])
  ∨ ∃ n a t rnd p,
      OpPlaceBid "P" 10 "A" "x" = OpPlaceBid n a t rnd
      ∧ currentBids example_room !! n = None ∧ find_player example_catalog n = Some p
      ∧ (BelowBasePrice 50000 = BidTooLow 0 ∨ ∃ base, BelowBasePrice 50000 = BelowBasePrice base)
      ∧ step example_catalog example_room (1, OpPlaceBid "P" 10 "A" "x")
        = (set_currentBids example_room
             (<[n := new_session n (type p) (basePrice p) 1 regular]>
                (currentBids example_room)),
           Err (BelowBasePrice 50000), [SetTimeout regular n BIDDING_TIMEOUT]).
Proof.
  apply (rejected_request_effect example_catalog example_room
           (1, OpPlaceBid "P" 10 "A" "x")%string (BelowBasePrice 50000)).
  vm_compute. reflexivity.
Defined.

Lemma resolve_timer pool bt' now r table set_table n' bt n d :
  (∀ r m, table_of bt (set_table r m) = if decide (bt = bt') then m else table_of bt r) →
  (∀ r m, table_of bt (set_users r m) = table_of bt r) →
  (∀ r m, table_of bt (add_sold r m) = table_of bt r) →
  table = table_of bt' r →
  let out := resolve pool bt' now r table set_table n' in
  (SetTimeout bt n d ∉ out.2)
  ∧ (table_of bt r !! n = None → table_of bt out.1 !! n = None).
Proof.
  intros Hset Hu Hs ->. unfold resolve.
  repeat case_match; simpl; rewrite ?Hset, ?Hs, ?Hu; 
    (split; [set_solver|]); try done; intros Hnone; case_decide; subst; try done;
    (destruct (decide (n' = n)) as [->|?];
      [congruence|by rewrite lookup_insert_ne by done]).
Qed.

Lemma resolve_regular_timer csv now r n' bt n d :
  let out := autoAwardPlayer csv now r n' in
  (SetTimeout bt n d ∉ out.2)
  ∧ (table_of bt r !! n = None → table_of bt out.1 !! n = None).
Proof.
  apply resolve_timer; try done. intros r0 m. by destruct bt.
Qed.

Lemma resolve_blind_timer csv now r n' bt n d :
  let out := autoAwardBlindBidPlayer csv now r n' in
  (SetTimeout bt n d ∉ out.2)
  ∧ (table_of bt r !! n = None → table_of bt out.1 !! n = None).
Proof.
  apply resolve_timer; try done. intros r0 m. by destruct bt.
Qed.

Lemma close_response_timer bt' r n' bt n :
  table_of bt r !! n = None →
  table_of bt (close_response bt' r (table_of bt' r)
                 (match bt' with regular => set_currentBids | blind => set_blindBids end) n').1
    !! n = None.
Proof.
  intros Hnone. unfold close_response. case_match eqn:E; [|done]. simpl.
  destruct bt, bt'; simpl in *; try done;
    (destruct (decide (n' = n)) as [->|?];
      [congruence|by rewrite lookup_insert_ne by done]).
Qed.

Lemma no_timer_step (out : Room * Response * list Effect) r bt n d :
  SetTimeout bt n d ∉ out.2 →
  (table_of bt r !! n = None → table_of bt out.1.1 !! n = None) →
  SetTimeout bt n d ∈ out.2
  ↔ d = timeout_of bt ∧ table_of bt r !! n = None ∧ is_Some (table_of bt out.1.1 !! n).
Proof.
  intros Hno Hkeep. split; [done|]. intros (_ & Hnone & Hsome).
  rewrite (Hkeep Hnone) in Hsome. by destruct Hsome.
Qed.

Ltac timer_fin_at bt :=
  split;
  [ let Hin := fresh "Hin" in
    intros Hin; repeat (apply elem_of_cons in Hin as [Hin|Hin]);
    try (by apply elem_of_nil in Hin); try discriminate; simplify_eq; simpl;
    rewrite ?lookup_insert_eq; split_and!; eauto
  | let Hnone := fresh "Hnone" in let Hsome := fresh "Hsome" in
    intros (-> & Hnone & Hsome); destruct bt; simpl in *;
    repeat match goal with
    | H : is_Some (<[?k := _]> _ !! ?n) |- _ =>
        destruct (decide (k = n)) as [->|?];
        [clear H|rewrite lookup_insert_ne in H by done]
    end;
    try (rewrite Hnone in Hsome; by destruct Hsome); try congruence; try set_solver ].

Ltac timer_fin :=
  solve [cbn [fst snd]; match goal with |- SetTimeout ?bt _ _ ∈ _ ↔ _ => timer_fin_at bt end].

(** X15. An entry point arms the auto-close timer of a player exactly when
    it creates the player's session in that table, and with the timeout of
    the table's type: every session gets one timer, at its creation, and no
    timer is armed for an existing session. *)
Theorem timer_armed_iff_session_created csv r ev bt n d :
  SetTimeout bt n d ∈ (step csv r ev).2
  ↔ d = timeout_of bt ∧ table_of bt r !! n = None
    ∧ is_Some (table_of bt (step csv r ev).1.1 !! n).
Proof.
  destruct ev as [now op];
    destruct op as [n' p t| |n' a t rnd|n' a t rnd|n'|n'|n' ty|n'|n'|n'|n'| | |t];
    unfold step; cbn [fst snd].
  - unfold selectPlayer. handler_cases; timer_fin.
  - unfold nextBatch. handler_cases; timer_fin.
  - unfold placeBid. handler_cases; timer_fin.
  - unfold placeBlindBid. handler_cases; timer_fin.
  - unfold startBidding. handler_cases; timer_fin.
  - unfold startBlindBidding. handler_cases; timer_fin.
  - unfold closeBidding. repeat case_decide; try timer_fin.
    + destruct (currentBids r !! n') as [bd|] eqn:E; [|timer_fin].
      case_decide; [timer_fin|].
      destruct (resolve_regular_timer csv now r n' bt n d) as [Ht1 Ht2].
      destruct (autoAwardPlayer csv now r n') as [r1 eff]; simpl in *.
      pose proof (close_response_timer regular r1 n' bt n) as Ht3. simpl in Ht3.
      destruct (close_response regular r1 (currentBids r1) set_currentBids n') as [r2 resp].
      simpl in *. apply (no_timer_step (r2, resp, eff)); simpl; [done|]. eauto.
    + destruct (blindBids r !! n') as [bd|] eqn:E; [|timer_fin].
      case_decide; [timer_fin|].
      destruct (resolve_blind_timer csv now r n' bt n d) as [Ht1 Ht2].
      destruct (autoAwardBlindBidPlayer csv now r n') as [r1 eff]; simpl in *.
      pose proof (close_response_timer blind r1 n' bt n) as Ht3. simpl in Ht3.
      destruct (close_response blind r1 (blindBids r1) set_blindBids n') as [r2 resp].
      simpl in *. apply (no_timer_step (r2, resp, eff)); simpl; [done|]. eauto.
  - unfold timerRegular.
    destruct (currentBids r !! n') as [bd|]; [|timer_fin]. case_decide; [|timer_fin].
    destruct (resolve_regular_timer csv now r n' bt n d) as [Ht1 Ht2].
    destruct (autoAwardPlayer csv now r n') as [r1 eff]; simpl in *.
    by apply (no_timer_step (r1, NoResponse, eff)).
  - unfold timerBlind.
    destruct (blindBids r !! n') as [bd|]; [|timer_fin]. case_decide; [|timer_fin].
    destruct (resolve_blind_timer csv now r n' bt n d) as [Ht1 Ht2].
    destruct (autoAwardBlindBidPlayer csv now r n') as [r1 eff]; simpl in *.
    by apply (no_timer_step (r1, NoResponse, eff)).
  - unfold playerBids. handler_cases; timer_fin.
  - unfold blindBidsQuery. handler_cases; timer_fin.
  - unfold roomBids. simpl. split; [by intros ?%elem_of_nil|].
    intros (_ & Hnone & Hsome). destruct bt; simpl in *.
    + rewrite lookup_fmap, Hnone in Hsome. by destruct Hsome.
    + rewrite Hnone in Hsome. by destruct Hsome.
  - unfold biddingHistory. simpl. split; [by intros ?%elem_of_nil|].
    intros (_ & Hnone & Hsome). destruct bt; simpl in *.
    + rewrite lookup_fmap, Hnone in Hsome. by destruct Hsome.
    + rewrite lookup_fmap, Hnone in Hsome. by destruct Hsome.
  - unfold joinRoom. handler_cases; timer_fin.
Qed.

Lemma find_priced_none csv n :
  (∀ q, q ∈ csv → name q = n → basePrice q = None) →
  List.find (λ p, bool_decide (name p = n ∧ basePrice p ≠ None)) csv = None.
Proof.
  intros Hall. induction csv as [|q l IH]; [done|]. simpl.
  rewrite bool_decide_eq_false_2.
  - apply IH. intros q' Hq'. apply Hall. by right.
  - intros [Hn Hb]. apply Hb, Hall; [by left|done].
Qed.

(** X16. [start-bidding] refuses a player without base price, but
    [place-bid] searches the whole CSV: a first positive bid that the team
    can afford on a blind-pool player opens a regular session for it, with
    no base price, holding that bid. *)
Theorem blind_pool_player_takes_open_bids csv now r n a t rnd p tm :
  n ≠ ""%string → t ≠ ""%string →
  find_player csv n = Some p →
  (∀ q, q ∈ csv → name q = n → basePrice q = None) →
  users r !! t = Some tm → a ≤ budget tm →
  (length (players tm) < MAX_PLAYERS_PER_TEAM)%nat →
  n ∉ soldPlayers r → currentBids r !! n = None → 0 < a →
  startBidding csv now r n = (r, Err PlayerNotFound, [])
  ∧ currentBids (placeBid csv now r n a t rnd).1.1 !! n
    = Some (mkBidData n (type p) None [mkBid t a now rnd] now active regular (Some now)
                      None None None None).
Proof.
  intros Hn Ht Hp Hall Htm Ha Hlen Hsold Hnone Hpos.
  assert (Hb : basePrice p = None).
  { apply find_some in Hp as [Hin Hname]. apply bool_decide_eq_true_1 in Hname.
    apply Hall; [by apply list_elem_of_In|done]. }
  split.
  - unfold startBidding. case_decide; [done|]. by rewrite find_priced_none.
  - unfold placeBid. case_decide as H1; [by destruct H1|].
    rewrite Htm. case_decide; [lia|]. case_decide; [lia|].
    rewrite Hp. case_decide; [done|]. rewrite Hnone.
    unfold below_base. rewrite Hb. cbn [status new_session bids].
    case_decide; [done|]. case_decide; [simpl in *; lia|].
    cbn [fst currentBids set_lastActivity set_currentBids].
    by rewrite lookup_insert_eq.
Qed.

Lemma blind_pool_player_takes_open_bids_witness :
  startBidding example_catalog 1 example_room "S" = (example_room, Err PlayerNotFound, [])
  ∧ currentBids (placeBid example_catalog 1 example_room "S" 10 "A" "x").1.1 !! "S"%string
    = Some (mkBidData "S" "AR" None [mkBid "A" 10 1 "x"] 1 active regular (Some 1)
                      None None None None).
Proof.
  apply (blind_pool_player_takes_open_bids example_catalog 1 example_room "S" 10 "A" "x"
           (mkPlayer "S" "RR" "AR" None) (mkTeam "A" 1000000 [])).
  - discriminate.
  - discriminate.
  - reflexivity.
  - intros q Hq Hname. unfold example_catalog in Hq.
    repeat (apply elem_of_cons in Hq as [->|Hq]; [simpl in *; try done; discriminate|]).
    by apply elem_of_nil in Hq.
  - vm_compute. reflexivity.
  - simpl. lia.
  - simpl. unfold MAX_PLAYERS_PER_TEAM. lia.
  - vm_compute. set_solver.
  - vm_compute. reflexivity.
  - lia.
Defined.

(** ** The dispatcher on any catalog *)

Lemma scan_batch_spec rest size acc (sent : gset string) :
  ∃ new,
    scan_batch rest size acc sent = (acc ++ new, list_to_set (ap_name <$> new) ∪ sent)
    ∧ NoDup (ap_name <$> new)
    ∧ (∀ a, a ∈ new → (ap_name a ∉ sent) ∧ ∃ p, p ∈ rest ∧ a = to_auction_player p)
    ∧ (length new ≤ size - length acc)%nat
    ∧ (length new ≤ length rest)%nat.
Proof.
  revert acc sent. induction rest as [|p rest IH]; intros acc sent; simpl.
  - exists []. rewrite app_nil_r. simpl. split_and!; try lia.
    + f_equal. set_solver.
    + apply NoDup_nil_2.
    + by intros a ?%elem_of_nil.
  - case_decide as Hlen.
    + case_decide as Hin.
      * destruct (IH acc sent) as (new & -> & Hnd & Hnew & Hl1 & Hl2).
        exists new. split_and!; try done; try lia.
        intros a Ha. destruct (Hnew a Ha) as (? & q & ? & ?). split; [done|].
        exists q. split; [by right|done].
      * destruct (IH (acc ++ [to_auction_player p]) ({[name p]} ∪ sent))
          as (new & -> & Hnd & Hnew & Hl1 & Hl2).
        rewrite length_app in Hl1. simpl in Hl1.
        exists (to_auction_player p :: new). rewrite <- app_assoc. simpl.
        split_and!; try lia.
        -- f_equal. set_solver.
        -- apply NoDup_cons. split; [|done].
           intros (a & Ea & Ha)%list_elem_of_fmap. destruct (Hnew a Ha) as [Hn _].
           apply Hn. rewrite <- Ea. set_solver.
        -- intros a [->|Ha]%elem_of_cons.
           ++ split; [done|]. exists p. split; [by left|done].
           ++ destruct (Hnew a Ha) as (Hn & q & ? & ?). split; [set_solver|].
              exists q. split; [by right|done].
    + exists []. rewrite app_nil_r. simpl. split_and!; try lia.
      * f_equal. set_solver.
      * apply NoDup_nil_2.
      * by intros a ?%elem_of_nil.
Qed.

Lemma BATCH_CONFIG_le ty : (BATCH_CONFIG ty ≤ 8)%nat.
Proof. unfold BATCH_CONFIG. repeat case_decide; lia. Qed.

Lemma mainAuctionPlayers_typed csv ty p :
  p ∈ mainAuctionPlayers csv ty → p ∈ csv ∧ type p = ty ∧ is_Some (basePrice p).
Proof.
  unfold mainAuctionPlayers, playersWithBase. case_decide; [|by intros ?%elem_of_nil].
  rewrite sort_desc_elem_of, !list_elem_of_filter. intros (? & ? & ?).
  split_and!; try done. by destruct (basePrice p).
Qed.

Lemma nextBatch_spec csv now r :
  ∃ new idx,
    let bs := batchState r in
    let T := cycle_type (currentCycleIndex bs) in
    let out := nextBatch csv now r in
    batchState out.1
    = mkBatchState idx (list_to_set (ap_name <$> new) ∪ sentPlayers bs)
        (<[T := (ptr bs T + length new)%nat]> (typePointers bs))
    ∧ (br_players out.2 = new ∧ br_currentType out.2 = Some T
       ∨ br_players out.2 = [] ∧ new = [] ∧ br_currentType out.2 = None
         ∧ br_auctionComplete out.2 = true)
    ∧ NoDup (ap_name <$> new)
    ∧ (∀ a, a ∈ new →
         (ap_name a ∉ sentPlayers bs) ∧ ap_type a = T ∧ is_Some (ap_basePrice a))
    ∧ (length new ≤ BATCH_CONFIG T)%nat.
Proof.
  unfold nextBatch. cbv zeta.
  destruct (scan_batch_spec
              (drop (pointer_of (typePointers (batchState r))
                       (cycle_type (currentCycleIndex (batchState r))))
                 (mainAuctionPlayers csv (cycle_type (currentCycleIndex (batchState r)))))
              (BATCH_CONFIG (cycle_type (currentCycleIndex (batchState r)))) []
              (sentPlayers (batchState r))) as (new & -> & Hnd & Hnew & Hl1 & Hl2).
  simpl in Hl1. simpl app.
  assert (Hnew' : ∀ a, a ∈ new →
    (ap_name a ∉ sentPlayers (batchState r))
    ∧ ap_type a = cycle_type (currentCycleIndex (batchState r)) ∧ is_Some (ap_basePrice a)).
  { intros a Ha. destruct (Hnew a Ha) as (Hn & p & Hp & ->). split; [done|].
    apply subseteq_drop in Hp. apply mainAuctionPlayers_typed in Hp as (_ & ? & ?).
    done. }
  exists new.
  repeat case_match; simpl; eexists; (split; [reflexivity|]); split_and!; try done; try lia;
    try (by left).
  right. match goal with H : _ && _ = true |- _ =>
    apply andb_prop in H as [_ Hz]; apply bool_decide_eq_true_1 in Hz;
    apply nil_length_inv in Hz end.
  by subst.
Qed.

(** X17. Whatever the room and the catalog, the players of one
    [/next-batch] answer number at most the batch size of the type served
    (at most 8), have pairwise distinct names, are of the type the answer
    names, carry a base price, were not dispatched before and are recorded
    as dispatched afterwards. *)
Theorem batch_shape csv now r :
  let b := (nextBatch csv now r).2 in
  (length (br_players b) ≤ from_option BATCH_CONFIG 0 (br_currentType b))%nat
  ∧ (length (br_players b) ≤ 8)%nat
  ∧ NoDup (ap_name <$> br_players b)
  ∧ Forall (λ a, Some (ap_type a) = br_currentType b ∧ is_Some (ap_basePrice a)
                 ∧ (ap_name a ∉ sentPlayers (batchState r))
                 ∧ ap_name a ∈ sentPlayers (batchState (nextBatch csv now r).1))
      (br_players b).
Proof.
  destruct (nextBatch_spec csv now r) as (new & idx & Hbs & Hb & Hnd & Hnew & Hlen).
  cbv zeta in *. rewrite Hbs. simpl.
  destruct Hb as [[-> ->]|(-> & -> & -> & _)]; simpl.
  - split_and!; [done| |done|].
    + pose proof (BATCH_CONFIG_le (cycle_type (currentCycleIndex (batchState r)))). lia.
    + apply Forall_forall. intros a Ha. destruct (Hnew a Ha) as (? & -> & ?).
      split_and!; try done. apply elem_of_union_l, elem_of_list_to_set, list_elem_of_fmap.
      by exists a.
  - split_and!; [lia|lia|apply NoDup_nil_2|apply Forall_nil_2].
Qed.

Lemma step_batchState csv r ev :
  batchState (step csv r ev).1.1 = batchState r
  ∨ ev.2 = OpNextBatch ∧ (step csv r ev).1.1 = (nextBatch csv ev.1 r).1.
Proof.
  destruct ev as [now op].
  assert (op = OpNextBatch ∨ op ≠ OpNextBatch) as [-> |Hop]
    by (destruct op; first [by left|by right]).
  - right. split; [done|]. unfold step; simpl. by destruct (nextBatch csv now r).
  - left. by apply step_keeps_batchState.
Qed.

Lemma batches_of_fresh csv evs : ∀ r,
  NoDup (ap_name <$> concat (br_players <$> batches_of csv r evs))
  ∧ Forall (λ x, x ∉ sentPlayers (batchState r))
      (ap_name <$> concat (br_players <$> batches_of csv r evs)).
Proof.
  induction evs as [|[now op] evs IH]; intros r.
  { simpl. split; [apply NoDup_nil_2|apply Forall_nil_2]. }
  destruct (IH (step csv r (now, op)).1.1) as [IH1 IH2].
  assert (op = OpNextBatch ∨ op ≠ OpNextBatch) as [Eop|Hop]
    by (destruct op; first [by left|by right]).
  2: { assert (batches_of csv r ((now, op) :: evs)
               = batches_of csv (step csv r (now, op)).1.1 evs) as ->
         by (by destruct op).
       by rewrite (step_keeps_batchState csv r now op Hop) in IH2. }
  assert (E : (step csv r (now, op)).1.1 = (nextBatch csv now r).1).
  { subst op. unfold step; simpl. by destruct (nextBatch csv now r). }
  subst op. cbn [batches_of snd fst].
    destruct (nextBatch_spec csv now r) as (new & idx & Hbs & Hb & Hnd & Hnew & Hlen).
    cbv zeta in *. rewrite E in *. rewrite Hbs in IH2. simpl in IH2.
    rewrite Forall_forall in IH2.
    assert (Hrest : Forall (λ x, x ∉ sentPlayers (batchState r))
              (ap_name <$> concat (br_players <$> batches_of csv (nextBatch csv now r).1 evs))).
    { apply Forall_forall. intros x Hx. specialize (IH2 x Hx). set_solver. }
    destruct (br_auctionComplete (nextBatch csv now r).2) eqn:Ec; [done|].
    destruct Hb as [[Hp Hty]|(_ & _ & _ & Hc)]; [|congruence].
    simpl. rewrite Hp, fmap_app. split.
    + apply NoDup_app. split_and!; [done| |done].
      intros x Hx Hx'. specialize (IH2 x Hx'). apply IH2.
      apply elem_of_union_l. by apply elem_of_list_to_set.
    + apply Forall_app. split; [|done]. apply Forall_forall.
      intros x (a & -> & Ha)%list_elem_of_fmap. by apply Hnew.
Qed.

(** X18. No name is dispatched twice: the batches answered along any
    sequence of entry points, from any room, hold pairwise distinct names,
    none of which was in [sentPlayers] at the start.  This needs no
    uniqueness of names in the catalog. *)
Theorem no_name_dispatched_twice csv r evs :
  NoDup (ap_name <$> concat (br_players <$> batches_of csv r evs))
  ∧ Forall (λ x, x ∉ sentPlayers (batchState r))
      (ap_name <$> concat (br_players <$> batches_of csv r evs)).
Proof. apply batches_of_fresh. Qed.

(** X19. The dispatch state only advances: along any sequence of entry
    points [sentPlayers] only grows and no type pointer ever decreases. *)
Theorem dispatch_cursor_monotone csv r evs :
  sentPlayers (batchState r) ⊆ sentPlayers (batchState (run csv r evs))
  ∧ ∀ ty, (ptr (batchState r) ty ≤ ptr (batchState (run csv r evs)) ty)%nat.
Proof.
  induction evs as [|ev evs [IH1 IH2]] using rev_ind; [done|].
  rewrite run_snoc.
  destruct (step_batchState csv (run csv r evs) ev) as [-> |[_ ->]]; [done|].
  destruct (nextBatch_spec csv ev.1 (run csv r evs)) as (new & idx & Hbs & _).
  cbv zeta in Hbs. rewrite Hbs. simpl. split; [set_solver|].
  intros ty. etrans; [apply IH2|]. unfold ptr at 2. simpl.
  unfold pointer_of. rewrite lookup_insert. case_decide; [subst; simpl|done].
  unfold ptr, pointer_of. lia.
Qed.

(** ** The catalog ([processPlayerData]) *)

Lemma blind_priced_partition csv : blindBidPlayers csv ++ playersWithBase csv ≡ₚ csv.
Proof.
  unfold blindBidPlayers, playersWithBase.
  induction csv as [|p l IH]; [done|].
  rewrite !filter_cons. destruct (basePrice p) eqn:E; repeat case_decide; try done.
  - rewrite <- Permutation_middle. by f_equiv.
  - simpl. by f_equiv.
Qed.

Lemma filter_by_type (l : list Player) :
  filter (λ p, type p ∈ CYCLE_ORDER) l
  ≡ₚ filter (λ p, type p = "BAT"%string) l ++ filter (λ p, type p = "AR"%string) l
     ++ filter (λ p, type p = "BOWL"%string) l ++ filter (λ p, type p = "WK"%string) l.
Proof.
  induction l as [|p l IH]; [done|].
  rewrite !filter_cons.
  destruct (decide (type p ∈ CYCLE_ORDER)) as [Hin|Hnin].
  - unfold CYCLE_ORDER in Hin.
    repeat case_decide; try congruence; try (exfalso; set_solver);
      rewrite IH; solve_Permutation.
  - unfold CYCLE_ORDER in Hnin.
    repeat case_decide; try (exfalso; set_solver). done.
Qed.

(** X20. [processPlayerData] splits the CSV rows into the blind pool and the
    priced rows; the four lists of the main auction together are exactly the
    priced rows whose type is one of the cycle (a priced row of any other
    type is in no list and is never offered), none of them is in the blind
    pool, and each list is sorted by descending base price. *)
Theorem catalog_partition csv :
  blindBidPlayers csv ++ playersWithBase csv ≡ₚ csv
  ∧ priced_catalog csv
    ≡ₚ filter (λ p, type p ∈ CYCLE_ORDER) (filter (λ p, basePrice p ≠ None) csv)
  ∧ Forall (λ p, p ∉ blindBidPlayers csv) (priced_catalog csv)
  ∧ ∀ ty, StronglySorted (desc basePrice_key) (mainAuctionPlayers csv ty).
Proof.
  split; [apply blind_priced_partition|].
  assert (Hp : priced_catalog csv
    ≡ₚ filter (λ p, type p ∈ CYCLE_ORDER) (filter (λ p, basePrice p ≠ None) csv)).
  { rewrite filter_by_type. unfold priced_catalog.
    assert (Hc : ∀ ty, ty ∈ CYCLE_ORDER →
      mainAuctionPlayers csv ty ≡ₚ filter (λ p, type p = ty) (filter (λ p, basePrice p ≠ None) csv)).
    { intros ty Hty. unfold mainAuctionPlayers, playersWithBase.
      rewrite decide_True by done. apply sort_desc_perm. }
    change (mainAuctionPlayers csv <$> CYCLE_ORDER)
      with [mainAuctionPlayers csv "BAT"; mainAuctionPlayers csv "AR";
            mainAuctionPlayers csv "BOWL"; mainAuctionPlayers csv "WK"]%string.
    simpl. rewrite app_nil_r.
    rewrite !Hc by (unfold CYCLE_ORDER; set_solver). done. }
  split; [done|]. split.
  - apply Forall_forall. intros p Hin. rewrite Hp in Hin.
    apply list_elem_of_filter in Hin as [_ Hin]. apply list_elem_of_filter in Hin as [Hb _].
    unfold blindBidPlayers. rewrite list_elem_of_filter. by intros [? _].
  - intros ty. unfold mainAuctionPlayers. case_decide; [apply sort_desc_sorted|constructor].
Qed.

(** ** The room registry: creation, late join, housekeeping *)

(** X21. [join-room] is idempotent: joining again under the same name
    changes nothing, requests no save and gives the same answer.  A join
    leaves every registered team as it is, and adds the joining name to the
    registry unless [users[teamName]] is truthy already: for a registered
    team, and for a name that [users] inherits (a member of
    [Object.prototype]), for which nothing is added. *)
Theorem joinRoom_idempotent now now' r t :
  let out := joinRoom now r t in
  joinRoom now' out.1.1 t = (out.1.1, out.1.2, [])
  ∧ users r ⊆ users out.1.1
  ∧ dom (users out.1.1)
    = (if inherited (users r) t then ∅ else {[t]}) ∪ dom (users r)
  ∧ (t ∈ proto_members → out = (r, out.1.2, [])).
Proof.
  unfold joinRoom. destruct (users r !! t) as [tm|] eqn:E; simpl.
  - rewrite E. split; [done|]. split; [done|]. split; [|done].
    apply elem_of_dom_2 in E. destruct (inherited (users r) t); set_solver.
  - destruct (inherited (users r) t) eqn:Ei; simpl.
    + rewrite E, Ei. split; [done|]. split; [done|]. split; [set_solver|done].
    + rewrite lookup_insert_eq. split; [done|]. split; [by apply insert_subseteq|].
      split; [by rewrite dom_insert_L|].
      intros Hin. unfold inherited in Ei. by rewrite bool_decide_eq_true_2 in Ei.
Qed.

Lemma newRoom_fold (us : list string) budget : ∀ (m : gmap string Team),
  let m' := foldl (λ m u, <[u := mkTeam u budget []]> m) m us in
  dom m' = list_to_set us ∪ dom m
  ∧ ∀ k, k ∈ us → m' !! k = Some (mkTeam k budget []).
Proof.
  induction us as [|u us IH]; intros m; simpl.
  - split; [set_solver|]. by intros k ?%elem_of_nil.
  - destruct (IH (<[u := mkTeam u budget []]> m)) as [H1 H2]. split.
    + rewrite H1, dom_insert_L. set_solver.
    + intros k Hk. destruct (decide (k ∈ us)) as [Hin|Hnin]; [by apply H2|].
      apply elem_of_cons in Hk as [->|?]; [|done].
      clear H1 H2 IH. revert m. induction us as [|v us IH]; intros m; simpl.
      * by rewrite lookup_insert_eq.
      * rewrite insert_insert_ne by set_solver. apply IH. set_solver.
Qed.

Lemma newRoom_teams rid usernames b now :
  dom (users (newRoom rid usernames b now)) = list_to_set usernames
  ∧ map_Forall (λ k t, t = mkTeam k (or_default_budget b) [])
      (users (newRoom rid usernames b now))
  ∧ (size (users (newRoom rid usernames b now)) ≤ length usernames)%nat.
Proof.
  unfold newRoom; simpl.
  destruct (newRoom_fold usernames (or_default_budget b) ∅) as [H1 H2]. cbv zeta in *.
  rewrite dom_empty_L, (right_id_L ∅ (∪)) in H1.
  assert (Hall : map_Forall (λ k t, t = mkTeam k (or_default_budget b) [])
      (foldl (λ m u, <[u := mkTeam u (or_default_budget b) []]> m)
             (∅ : gmap string Team) usernames)).
  { intros k t Hk. assert (Hin : k ∈ usernames).
    { apply elem_of_dom_2 in Hk. rewrite H1 in Hk. by apply elem_of_list_to_set in Hk. }
    rewrite (H2 k Hin) in Hk. by simplify_eq. }
  split; [done|]. split; [done|].
  rewrite <- size_dom, H1. clear. induction usernames as [|u us IH].
  - rewrite list_to_set_nil, size_empty. simpl. lia.
  - rewrite list_to_set_cons, size_union_alt, size_singleton.
    assert (size (list_to_set us ∖ {[u]} : gset string) ≤ size (list_to_set us : gset string))%nat.
    { apply subseteq_size. set_solver. }
    simpl. lia.
Qed.

(** X22. [create-room] never replaces or alters a registered room, and
    creates nothing under an identifier that [rooms] inherits (a member of
    [Object.prototype]): it answers 409 there.  When it succeeds, with no
    user named ["__proto__"], the identifier was free and the new room has
    one team per distinct user name (repeated names collapse), each with the
    full budget and an empty roster, nothing sold, no session and the
    initial dispatch state; when it fails the registry is unchanged. *)
Theorem createRoom_result rooms rid usernames b now :
  ("__proto__"%string ∉ usernames) →
  let out := createRoom rooms rid usernames b now in
  rooms ⊆ out.1
  ∧ (rid ∈ proto_members → out = (rooms, out.2) ∧ is_Some out.2)
  ∧ match out.2 with
    | None =>
        rooms !! rid = None ∧ (rid ∉ proto_members)
        ∧ ∃ r, out.1 = <[rid := r]> rooms ∧ roomId r = rid
             ∧ dom (users r) = list_to_set usernames
             ∧ map_Forall (λ k t, t = mkTeam k (or_default_budget b) []) (users r)
             ∧ (size (users r) ≤ length usernames)%nat
             ∧ budgetPerUser r = or_default_budget b
             ∧ soldPlayers r = ∅ ∧ currentBids r = ∅ ∧ blindBids r = ∅
             ∧ batchState r = initial_batchState
    | Some _ => out.1 = rooms
    end.
Proof.
  intros _. unfold createRoom.
  destruct (decide (rid = ""%string ∨ (length usernames < 2)%nat)); simpl.
  { split; [done|]. split; [|done]. intros _. split; [done|by eexists]. }
  destruct (rooms !! rid) as [r0|] eqn:E; simpl.
  { split; [done|]. split; [|done]. intros _. split; [done|by eexists]. }
  destruct (decide (rid ∈ proto_members)) as [Hin|Hnin]; simpl.
  { split; [done|]. split; [|done]. intros _. split; [done|by eexists]. }
  split; [by apply insert_subseteq|]. split; [done|].
  destruct (newRoom_teams rid usernames b now) as (Hd & Hf & Hs).
  split; [done|]. split; [done|].
  exists (newRoom rid usernames b now). split_and!; done.
Qed.

Lemma createRoom_result_witness :
  (∅ : gmap string Room) ⊆ (createRoom ∅ "room" ["A"; "B"]%string (Some 1000000) 0).1.
Proof.
  refine (proj1 (createRoom_result ∅ "room" ["A"; "B"]%string (Some 1000000) 0 _)).
  intros Hin. repeat (apply elem_of_cons in Hin as [Hin|Hin]; [discriminate|]).
  by apply elem_of_nil in Hin.
Defined.

Lemma cleanup_fold now (l : list string) : ∀ (m : gmap string Room) (c : nat),
  let out := foldl (λ '(m, c) roomID,
             match m !! roomID with
             | Some room =>
                 if decide (ROOM_INACTIVE_TIMEOUT < now - lastActivity room)
                 then (delete roomID m, S c) else (m, c)
             | None => (m, c)
             end) (m, c) l in
  (∀ k, out.1 !! k = if decide (k ∈ l) then m !! k ≫= keep_room now else m !! k)
  ∧ (c ≤ out.2)%nat
  ∧ (out.2 = c ↔ ∀ k r, k ∈ l → m !! k = Some r → keep_room now r = Some r).
Proof.
  induction l as [|x l IH]; intros m c; cbv zeta; cbn [foldl fst snd].
  { split; [|split; [lia|]].
    - intros k. rewrite decide_False; [done|]. apply not_elem_of_nil.
    - split; [|done]. intros _ k r Hk. by apply elem_of_nil in Hk. }
  destruct (m !! x) as [room|] eqn:Ex.
  - case_decide as Hin.
    + destruct (IH (delete x m) (S c)) as (H1 & H2 & H3). split; [|split; [lia|]].
      * intros k. rewrite H1. destruct (decide (k = x)) as [->|Hne].
        -- rewrite (decide_True (P := x ∈ x :: l)) by set_solver.
           rewrite lookup_delete_eq, Ex. cbn [mbind option_bind]. unfold keep_room.
           rewrite (decide_True (P := (ROOM_INACTIVE_TIMEOUT < _))) by done. by case_decide.
        -- rewrite lookup_delete_ne by done.
           destruct (decide (k ∈ l)).
           ++ by rewrite decide_True by set_solver.
           ++ by rewrite decide_False by set_solver.
      * split; [lia|]. intros Hall. specialize (Hall x room ltac:(set_solver) Ex).
        unfold keep_room in Hall. by rewrite decide_True in Hall.
    + destruct (IH m c) as (H1 & H2 & H3). split; [|split; [lia|]].
      * intros k. rewrite H1. destruct (decide (k = x)) as [->|Hne].
        -- rewrite (decide_True (P := x ∈ x :: l)) by set_solver.
           rewrite Ex. cbn [mbind option_bind]. unfold keep_room.
           rewrite (decide_False (P := (ROOM_INACTIVE_TIMEOUT < _))) by done. by case_decide.
        -- destruct (decide (k ∈ l)).
           ++ by rewrite decide_True by set_solver.
           ++ by rewrite decide_False by set_solver.
      * rewrite H3. split.
        -- intros Hall k r [->|Hk]%elem_of_cons Hr; [|by eapply Hall].
           simplify_eq. unfold keep_room. by rewrite decide_False.
        -- intros Hall k r Hk. apply Hall. by right.
  - destruct (IH m c) as (H1 & H2 & H3). split; [|split; [lia|]].
    + intros k. rewrite H1. destruct (decide (k = x)) as [->|Hne].
      * rewrite (decide_True (P := x ∈ x :: l)) by set_solver.
        rewrite Ex. cbn [mbind option_bind]. by case_decide.
      * destruct (decide (k ∈ l)).
        -- by rewrite decide_True by set_solver.
        -- by rewrite decide_False by set_solver.
    + rewrite H3. split.
      * intros Hall k r [->|Hk]%elem_of_cons Hr; [congruence|by eapply Hall].
      * intros Hall k r Hk. apply Hall. by right.
Qed.

Lemma cleanup_lookup now rooms k :
  (cleanupInactiveRooms now rooms).1 !! k = rooms !! k ≫= keep_room now.
Proof.
  unfold cleanupInactiveRooms.
  pose proof (cleanup_fold now (map_to_list rooms).*1 rooms 0) as H. cbv zeta in H.
  destruct (foldl _ _ _) as [m' c']. simpl in *. destruct H as (H1 & _).
  rewrite H1. case_decide as Hk; [done|].
  destruct (rooms !! k) as [r|] eqn:E; [|done]. exfalso. apply Hk.
  apply list_elem_of_fmap. exists (k, r). split; [done|]. by apply elem_of_map_to_list.
Qed.

Lemma cleanup_effects now rooms :
  (cleanupInactiveRooms now rooms).2
  = if decide (map_Forall (λ _ r, now - lastActivity r ≤ ROOM_INACTIVE_TIMEOUT) rooms)
    then [] else [SaveRooms].
Proof.
  unfold cleanupInactiveRooms.
  pose proof (cleanup_fold now (map_to_list rooms).*1 rooms 0) as H. cbv zeta in H.
  destruct (foldl _ _ _) as [m' c']. simpl in *. destruct H as (_ & _ & H3).
  assert (Hiff : c' = 0%nat
    ↔ map_Forall (λ _ r, now - lastActivity r ≤ ROOM_INACTIVE_TIMEOUT) rooms).
  { rewrite H3. split.
    - intros Hall k r Hk. 
      assert (Hin : k ∈ (map_to_list rooms).*1).
      { apply list_elem_of_fmap. exists (k, r). split; [done|]. by apply elem_of_map_to_list. }
      specialize (Hall k r Hin Hk). unfold keep_room in Hall. case_decide; [done|lia].
    - intros Hall k r _ Hk. specialize (Hall k r Hk). simpl in Hall.
      unfold keep_room. rewrite decide_False; [done|lia]. }
  destruct (decide (0 < c')%nat) as [Hc|Hc]; case_decide as Hf; try done.
  - exfalso. apply Hiff in Hf. lia.
  - exfalso. apply Hf, Hiff. lia.
Qed.

(** X23. [cleanupInactiveRooms] keeps exactly the rooms whose last activity
    is at most [ROOM_INACTIVE_TIMEOUT] old, each unchanged; it saves the
    registry exactly when it removed a room; and a second sweep at the same
    clock reading removes nothing and saves nothing. *)
Theorem cleanupInactiveRooms_spec now rooms :
  (cleanupInactiveRooms now rooms).1
  = filter (λ kv, now - lastActivity kv.2 ≤ ROOM_INACTIVE_TIMEOUT) rooms
  ∧ (cleanupInactiveRooms now rooms).2
    = (if decide (map_Forall (λ _ r, now - lastActivity r ≤ ROOM_INACTIVE_TIMEOUT) rooms)
       then [] else [SaveRooms])
  ∧ cleanupInactiveRooms now (cleanupInactiveRooms now rooms).1
    = ((cleanupInactiveRooms now rooms).1, []).
Proof.
  assert (H1 : (cleanupInactiveRooms now rooms).1
               = filter (λ kv, now - lastActivity kv.2 ≤ ROOM_INACTIVE_TIMEOUT) rooms).
  { apply map_eq. intros k. rewrite cleanup_lookup.
    destruct (rooms !! k) as [r|] eqn:E; simpl.
    - unfold keep_room. case_decide.
      + symmetry. apply map_lookup_filter_None. right. intros r' ?. simplify_eq/=. lia.
      + symmetry. apply map_lookup_filter_Some. split; [done|]. simpl. lia.
    - symmetry. apply map_lookup_filter_None. by left. }
  split; [done|]. split; [apply cleanup_effects|].
  assert (Hall : map_Forall (λ _ r, now - lastActivity r ≤ ROOM_INACTIVE_TIMEOUT)
                   (cleanupInactiveRooms now rooms).1).
  { rewrite H1. intros k r Hk. by apply map_lookup_filter_Some in Hk as [_ ?]. }
  destruct (cleanupInactiveRooms now (cleanupInactiveRooms now rooms).1) as [m e] eqn:E.
  f_equal.
  - change m with (m, e).1. rewrite <- E. apply map_eq. intros k. rewrite cleanup_lookup.
    destruct (_ !! k) as [r|] eqn:Ek; [|done]. simpl. unfold keep_room.
    specialize (Hall k r Ek). simpl in Hall. rewrite decide_False; [done|lia].
  - change e with (m, e).2. rewrite <- E. rewrite cleanup_effects. by rewrite decide_True.
Qed.

(** ** Persistence: what a reload keeps *)

Lemma JValue_induction (P : JValue → Prop) :
  P JNull → (∀ z, P (JNum z)) → (∀ s, P (JStr s)) →
  (∀ l, Forall P l → P (JArr l)) →
  (∀ props, Forall (λ kv, P kv.2) props → P (JObj props)) →
  (∀ s, P (JSet s)) →
  ∀ v, P v.
Proof.
  intros Hnull Hnum Hstr Harr Hobj Hset. fix IH 1. intros [|z|s|l|props|s].
  - exact Hnull.
  - apply Hnum.
  - apply Hstr.
  - apply Harr. induction l as [|x l IHl]; constructor; [apply IH|exact IHl].
  - apply Hobj. induction props as [|[k x] props IHl]; constructor; [apply IH|exact IHl].
  - apply Hset.
Qed.

Lemma reload_set_free v : set_free (reload v) = true.
Proof.
  induction v as [|z|s|l IH|props IH|s] using JValue_induction; simpl; try done.
  - induction IH as [|x l Hx _ IHl]; simpl; [done|]. by rewrite Hx, IHl.
  - induction IH as [|[k x] l Hx _ IHl]; simpl in *; [done|]. by rewrite Hx, IHl.
Qed.

Lemma reload_fixed v : set_free v = true → reload v = v.
Proof.
  induction v as [|z|s|l IH|props IH|s] using JValue_induction; simpl; try done.
  - intros Hall. f_equal. induction IH as [|x l Hx _ IHl]; simpl in *; [done|].
    apply andb_prop in Hall as [H1 H2]. by rewrite Hx, IHl.
  - intros Hall. f_equal. induction IH as [|[k x] l Hx _ IHl]; simpl in *; [done|].
    apply andb_prop in Hall as [H1 H2]. by rewrite Hx, IHl.
Qed.

(** X24. Saving and reloading is idempotent: what is lost is lost at the
    first reload, a second one changes nothing. *)
Theorem reload_idempotent v : reload (reload v) = reload v.
Proof. apply reload_fixed, reload_set_free. Qed.






(** ** Room summaries *)

Lemma is_active_sort_active bd : is_active (sort_active bd) = is_active bd.
Proof. unfold sort_active. by destruct (is_active bd) eqn:E. Qed.

Lemma filter_values_length (m : gmap string BidData) :
  length (List.filter (λ kv, is_active kv.2) (map_to_list m))
  = length (List.filter is_active (values m)).
Proof.
  unfold values. induction (map_to_list m) as [|[k bd] l IH]; [done|].
  simpl. destruct (is_active bd); simpl; by rewrite IH.
Qed.

(** X26. The two counters of [/room-data] agree with [/room-bids]:
    [activeBidsCount] and [activeBlindBidsCount] are the numbers of regular
    and blind sessions that [/room-bids] lists for the same room. *)
Theorem roomData_counts_match_roomBids now now' r :
  match (roomBids now' r).2 with
  | RoomBidsView regularBids blindViews =>
      rd_activeBidsCount (roomData now r).2 = length regularBids
      ∧ rd_activeBlindBidsCount (roomData now r).2 = length blindViews
  | _ => False
  end.
Proof.
  unfold roomBids, roomData. simpl.
  rewrite !sort_desc_length, !length_fmap, !filter_values_length.
  split; [|done].
  rewrite values_fmap, (filter_fmap_commute _ _ _ is_active_sort_active).
  by rewrite length_fmap.
Qed.

Lemma batches_of_sent csv evs : ∀ r,
  sentPlayers (batchState (run csv r evs))
  = list_to_set (ap_name <$> concat (br_players <$> batches_of csv r evs))
    ∪ sentPlayers (batchState r).
Proof.
  induction evs as [|[now op] evs IH]; intros r.
  { simpl. set_solver. }
  change (run csv r ((now, op) :: evs)) with (run csv (step csv r (now, op)).1.1 evs).
  rewrite IH.
  assert (op = OpNextBatch ∨ op ≠ OpNextBatch) as [Eop|Hop]
    by (destruct op; first [by left|by right]).
  2: { assert (batches_of csv r ((now, op) :: evs)
               = batches_of csv (step csv r (now, op)).1.1 evs) as ->
         by (by destruct op).
       by rewrite (step_keeps_batchState csv r now op Hop). }
  subst op.
  assert (E : (step csv r (now, OpNextBatch)).1.1 = (nextBatch csv now r).1).
  { unfold step; simpl. by destruct (nextBatch csv now r). }
  cbn [batches_of snd fst]. rewrite E.
  destruct (nextBatch_spec csv now r) as (new & idx & Hbs & Hb & _).
  cbv zeta in *. rewrite Hbs. simpl.
  destruct Hb as [[Hp Hty]|(Hp & -> & _ & Hc)].
  - destruct (br_auctionComplete (nextBatch csv now r).2) eqn:Ec.
    + unfold nextBatch in Ec, Hp. cbv zeta in Ec, Hp.
      repeat case_match; simplify_eq/=. set_solver.
    + simpl. rewrite Hp, fmap_app, list_to_set_app_L. set_solver.
  - rewrite Hc. simpl. set_solver.
Qed.

Lemma run_sent_size csv rid usernames b now evs :
  size (sentPlayers (batchState (run csv (newRoom rid usernames b now) evs)))
  = length (concat (br_players <$> batches_of csv (newRoom rid usernames b now) evs)).
Proof.
  rewrite batches_of_sent. simpl. rewrite (right_id_L ∅ (∪)).
  rewrite size_list_to_set by apply batches_of_fresh. by rewrite length_fmap.
Qed.

(** X27. In the [/room-state] answer for a room created with a per-team
    budget of at most 2^53 and driven by entry points with non-negative
    amounts, each team's [spentAmount] is the sum of the prices in its
    roster and adds up with [budget] to the per-team budget, [playerCount]
    is the length of the roster and [canBuyMore] is false exactly at
    [MAX_PLAYERS_PER_TEAM] players; for any room reached from its creation,
    [totalPlayersSent] is the number of players in the batches answered so
    far and [remainingPlayers] the size of the priced catalog minus that
    number. *)
Theorem roomState_accounts csv rid usernames b now evs now' :
  or_default_budget b ≤ exact_limit →
  Forall amounts_nonneg evs →
  let r0 := newRoom rid usernames b now in
  let v := (roomState csv now' (run csv r0 evs)).2 in
  map_Forall (λ k u,
      us_username u = k
      ∧ us_spentAmount u = foldr (λ pp acc, boughtPrice pp + acc) 0 (us_players u)
      ∧ us_budget u + us_spentAmount u = or_default_budget b
      ∧ us_playerCount u = length (us_players u)
      ∧ us_canBuyMore u = bool_decide (us_playerCount u ≠ MAX_PLAYERS_PER_TEAM))
    (rs_users v)
  ∧ rs_totalPlayersSent v = length (concat (br_players <$> batches_of csv r0 evs))
  ∧ rs_remainingPlayers v
    = Z.of_nat (length (priced_catalog csv))
      - Z.of_nat (length (concat (br_players <$> batches_of csv r0 evs))).
Proof.
  intros Hb Hevs. cbv zeta. unfold roomState.
  cbn [snd rs_users rs_totalPlayersSent rs_remainingPlayers].
  rewrite run_sent_size. split; [|done].
  intros k u Hu. rewrite map_lookup_imap in Hu.
  destruct (delete "__proto__"%string (users (run csv (newRoom rid usernames b now) evs)) !! k)
    as [t|] eqn:Hk; simplify_eq/=.
  apply lookup_delete_Some in Hk as [_ Hk].
  destruct (proj1 (run_exact_ledger csv rid usernames b now evs Hb Hevs) k t Hk)
    as (H0 & Hsum & Hprices).
  pose proof (reachable_team_ok csv _ (reachable_run csv rid usernames b now evs) k t Hk)
    as (Hcap & _).
  rewrite run_budgetPerUser in *.
  change (budgetPerUser (newRoom rid usernames b now)) with (or_default_budget b) in *.
  pose proof (spent_nonneg t Hprices) as Hsp.
  assert (Hex : js_sub (or_default_budget b) (budget t) = or_default_budget b - budget t).
  { apply js_sub_exact. assert (0 ≤ exact_limit) by (vm_compute; discriminate). lia. }
  rewrite Hex. unfold spent in *. split_and!; [done|lia|lia|done|].
  apply bool_decide_ext. lia.
Qed.

Lemma roomState_accounts_witness :
  rs_totalPlayersSent
    (roomState example_catalog 9
       (run example_catalog (newRoom "room" ["A"; "B"]%string (Some 1000000) 0)
          [(1, OpNextBatch); (2, OpSelectPlayer "P" 50000 "B")]%string)).2
  = length (concat (br_players <$>
                      batches_of example_catalog
                        (newRoom "room" ["A"; "B"]%string (Some 1000000) 0)
                        [(1, OpNextBatch); (2, OpSelectPlayer "P" 50000 "B")]%string)).
Proof.
  refine (proj1 (proj2 (roomState_accounts example_catalog "room" ["A"; "B"]%string
                          (Some 1000000) 0
                          [(1, OpNextBatch); (2, OpSelectPlayer "P" 50000 "B")]%string 9 _ _))).
  - vm_compute. discriminate.
  - repeat constructor; unfold amounts_nonneg; simpl; lia.
Defined.

(** X28. With the names of the priced catalog pairwise distinct,
    [/room-state] and the dispatcher agree: [remainingPlayers] is the number
    of players the type pointers have not reached, and [auctionPhase] is
    [completed] exactly when the next [/next-batch] request answers
    [auctionComplete]. *)
Theorem roomState_phase csv rid usernames b now evs now1 now2 :
  NoDup (name <$> priced_catalog csv) →
  let r := run csv (newRoom rid usernames b now) evs in
  let v := (roomState csv now1 r).2 in
  rs_remainingPlayers v = Z.of_nat (remaining csv (batchState r))
  ∧ (rs_auctionPhase v = completed ↔ br_auctionComplete (nextBatch csv now2 r).2 = true).
Proof.
  intros Hu. cbv zeta.
  pose proof (dispatch_history_run csv Hu evs _ [] (dispatch_history_new csv Hu rid usernames b now))
    as (Hinv & Hserved & Htyped). simpl in Hserved, Htyped.
  assert (Hrem : Z.of_nat (length (priced_catalog csv))
                 - Z.of_nat (size (sentPlayers (batchState (run csv (newRoom rid usernames b now) evs))))
                 = Z.of_nat (remaining csv (batchState (run csv (newRoom rid usernames b now) evs)))).
  { rewrite run_sent_size, (concat_served _ Htyped).
    destruct Hinv as (_ & Hle & _).
    pose proof (Hle "BAT"%string ltac:(apply in_cycle; tauto)).
    pose proof (Hle "AR"%string ltac:(apply in_cycle; tauto)).
    pose proof (Hle "BOWL"%string ltac:(apply in_cycle; tauto)).
    pose proof (Hle "WK"%string ltac:(apply in_cycle; tauto)).
    unfold priced_catalog, remaining.
    change CYCLE_ORDER with ["BAT"; "AR"; "BOWL"; "WK"]%string.
    cbn [fmap list_fmap concat sum_list sum_list_with].
    rewrite !Hserved by (apply in_cycle; tauto).
    rewrite !length_app, !length_fmap, !length_take. simpl length.
    unfold id. lia. }
  unfold roomState. cbn [snd rs_remainingPlayers rs_auctionPhase]. split; [done|].
  rewrite Hrem.
  destruct (decide (remaining csv (batchState (run csv (newRoom rid usernames b now) evs)) = 0%nat))
    as [Hz|Hnz].
  - rewrite Hz. rewrite decide_False by lia.
    split; [intros _|done]. by apply nextBatch_complete.
  - rewrite decide_True by lia.
    pose proof (nextBatch_progress csv Hu now2 _ Hinv Hnz) as Hp. cbv zeta in Hp.
    destruct Hp as (Hc & _). rewrite Hc. split; intros; discriminate.
Qed.

Lemma roomState_phase_witness :
  rs_remainingPlayers
    (roomState example_catalog 9
       (run example_catalog (newRoom "room" ["A"; "B"]%string (Some 1000000) 0)
          [(1, OpNextBatch)])).2
  = Z.of_nat (remaining example_catalog
                (batchState (run example_catalog
                               (newRoom "room" ["A"; "B"]%string (Some 1000000) 0)
                               [(1, OpNextBatch)]))).
Proof.
  apply (roomState_phase example_catalog "room" ["A"; "B"]%string (Some 1000000) 0
           [(1, OpNextBatch)] 9 9).
  apply (bool_decide_unpack _). vm_compute. exact I.
Defined.
